(** * A disk-backed video cache and a per-chat delivery coordinator

    Shallow embedding of the cache manager ([src/utils/CacheManager.ts] and
    its JavaScript twin), of the cache manager of the consolidated service
    module, and of [MessageHandler.handleSeriesRequest], followed by the
    properties of the specification that concern them; then of what
    [TelegramService.fetchVideosFromGroup] makes of the messages of a group
    and of [MessageHandler.cleanTempDirectory], with further properties of
    all of these.

    Modelling conventions.
    - JavaScript numbers that hold byte counts, counters and millisecond
      timestamps are integers far below 2^53; they are modelled in [Z].
    - A JavaScript object used as a dictionary is an association list in
      property-creation order, the order in which [for..in],
      [Object.entries] and [Object.values] enumerate keys that are not
      written as integers; series codes (two letters, three digits) are such
      keys.  Video identifiers are written as integers and are enumerated in
      ascending order instead; only sums and counts are taken over them,
      which do not depend on the order.  A key is never listed twice.
    - The file system is a small explicit state; the calls of [fs] that can
      throw do so when the [Faults] record says so.
    - [Date.now()] is the argument [now] of the operation that reads it. *)

From Stdlib Require Import ZArith Lia Ascii.
From stdpp Require Import base option list sorting gmap strings pretty relations.

Local Open Scope Z_scope.

(** ** JavaScript objects as ordered dictionaries *)

Section JSObject.
Context {V : Type}.

(** [o[k]] *)
Fixpoint jsGet (k : string) (o : list (string * V)) : option V :=
  match o with
  | [] => None
  | (k', v) :: o' => if decide (k = k') then Some v else jsGet k o'
  end.

(** [o[k] = v]: an existing property keeps its place, a new one goes last. *)
Fixpoint jsSet (k : string) (v : V) (o : list (string * V)) : list (string * V) :=
  match o with
  | [] => [(k, v)]
  | (k', v') :: o' =>
      if decide (k = k') then (k, v) :: o' else (k', v') :: jsSet k v o'
  end.

(** [delete o[k]] *)
Fixpoint jsDelete (k : string) (o : list (string * V)) : list (string * V) :=
  match o with
  | [] => []
  | (k', v) :: o' =>
      if decide (k = k') then jsDelete k o' else (k', v) :: jsDelete k o'
  end.

(** [Object.keys(o)] *)
Definition jsKeys (o : list (string * V)) : list string := o.*1.

End JSObject.

(** ** [Array.prototype.sort] with a numeric comparator

    [xs.sort((a, b) => key(a) - key(b))] is a stable sort: it returns the one
    arrangement of [xs] that ascends in [key] and keeps elements of equal key
    in their original order.  Insertion from the right computes it. *)

Section StableSort.
Context {A : Type} (key : A → Z).

Fixpoint insertBy (x : A) (l : list A) : list A :=
  match l with
  | [] => [x]
  | y :: l' => if bool_decide (key x ≤ key y) then x :: y :: l' else y :: insertBy x l'
  end.

Definition sortBy (l : list A) : list A := foldr insertBy [] l.

End StableSort.

(** ** The cache manager ([src/utils/CacheManager.ts]) *)

Module Cache.

(** *** Data model ([src/types]) *)

Record VideoMetadata := mkVideo { size : Z; cachedAt : Z }.

Record SeriesMetadata := mkSeries {
  createdAt : Z;
  lastAccessAt : Z;
  accessCount : Z;
  videos : list (string * VideoMetadata)
}.

Abbreviation CacheMetadata := (list (string * SeriesMetadata)).

Record Config := mkConfig {
  maxCacheSize : Z;
  maxAge : Z;
  metadataFile : string
}.

Record CacheManager := mkCache {
  cacheDir : string;
  config : Config;
  metadata : CacheMetadata
}.

(** *** File system *)

(** What [metadata.json] holds.  [FileJSON m] is the text
    [JSON.stringify(m, null, 2)], which [JSON.parse] maps back to [m]. *)
Inductive MetaFile :=
| FileMissing                    (* [existsSync] is false *)
| FileUnreadable                 (* [readFileSync] throws *)
| FileGarbage                    (* [JSON.parse] throws *)
| FileJSON (m : CacheMetadata).

(** The cache root holds one directory per series code, and each of them the
    artifacts [<videoId>.mp4] with their byte sizes.  Artifacts are addressed
    by the pair of series code and video identifier from which
    [getVideoPath] builds the path. *)
Record FS := mkFS {
  rootExists : bool;
  seriesDirs : gmap string (gmap string Z);
  outside : gmap string Z;       (* files outside the cache root, by path *)
  metaFile : MetaFile
}.

(** What a [copyFileSync] that throws leaves at its target.  The copy is not
    atomic: it throws before it opens the target, which is then as it was,
    or after, and then it tries to remove the target, which is gone or, when
    that fails too, left with what was written so far. *)
Inductive Residue :=
| Untouched
| Removed
| Truncated (written : Z).

(** The calls that throw for reasons the state above does not show
    (disk full, permission denied), and what the throwing call has done to
    the disk by then. *)
Record Faults := mkFaults {
  mkdirFails : string → bool;    (* [mkdirSync] of that series directory *)
  copyFails : string → bool;     (* [copyFileSync] from that source path *)
  copyLeaves : string → Residue; (* the target after that copy has thrown *)
  statFails : string → bool;     (* [statSync] of the copy of that source path *)
  rmFails : string → bool;       (* [rmSync] of that series directory *)
  rmLeaves : string → string → bool;
                                 (* the artifacts of that series directory that
                                    are still there after the removal has thrown *)
  mkdirRootFails : bool;         (* [mkdirSync] of the cache root *)
  rmRootFails : bool;            (* [rmSync] of the cache root *)
  writeFails : bool              (* [writeFileSync] of the metadata file *)
}.

Definition noFaults : Faults :=
  mkFaults (λ _, false) (λ _, false) (λ _, Untouched) (λ _, false)
           (λ _, false) (λ _ _, true) false false false.

Definition State : Type := CacheManager * FS.

Definition withMetadata (cm : CacheManager) (m : CacheMetadata) : CacheManager :=
  mkCache (cacheDir cm) (config cm) m.

(** [path.join] on the two shapes of path the class builds. *)
Definition pathJoin (a b : string) : string := a +:+ "/" +:+ b.

Definition getSeriesDir (cm : CacheManager) (seriesCode : string) : string :=
  pathJoin (cacheDir cm) seriesCode.

Definition getVideoPath (cm : CacheManager) (seriesCode videoId : string) : string :=
  pathJoin (getSeriesDir cm seriesCode) (videoId +:+ ".mp4").

(** [fs.existsSync(getVideoPath(seriesCode, videoId))] *)
Definition existsVideo (fs : FS) (seriesCode videoId : string) : bool :=
  match seriesDirs fs !! seriesCode with
  | Some d => bool_decide (is_Some (d !! videoId))
  | None => false
  end.

(** [fs.existsSync(getSeriesDir(seriesCode))] *)
Definition existsSeriesDir (fs : FS) (seriesCode : string) : bool :=
  bool_decide (is_Some (seriesDirs fs !! seriesCode)).

(** *** Metadata file *)

Definition loadMetadata (fs : FS) : CacheMetadata :=
  match metaFile fs with
  | FileJSON m => m
  | FileMissing => []            (* falls through to [return {}] *)
  | FileUnreadable => []         (* caught, then [return {}] *)
  | FileGarbage => []            (* caught, then [return {}] *)
  end.

(** [writeFileSync] throws when asked to or when the cache root is gone; the
    error is caught and logged, the file keeps its content. *)
Definition saveMetadata (F : Faults) (st : State) : State :=
  let '(cm, fs) := st in
  if writeFails F || negb (rootExists fs) then (cm, fs)
  else (cm, mkFS (rootExists fs) (seriesDirs fs) (outside fs) (FileJSON (metadata cm))).

(** [ensureCacheDir]: [None] when [mkdirSync] throws. *)
Definition ensureCacheDir (F : Faults) (fs : FS) : option FS :=
  if rootExists fs then Some fs
  else if mkdirRootFails F then None
  else Some (mkFS true (seriesDirs fs) (outside fs) (metaFile fs)).

(** The constructor; [config.maxCacheSize || default] takes the default for
    a missing or zero option.  [None] when [ensureCacheDir] throws. *)
Definition defaultMaxCacheSize : Z := 1024 * 1024 * 1024.
Definition defaultMaxAge : Z := 7 * 24 * 60 * 60 * 1000.

Definition orDefault (o : option Z) (d : Z) : Z :=
  match o with
  | Some x => if decide (x = 0) then d else x
  | None => d
  end.

Definition constructor (F : Faults) (dir : string) (optSize optAge : option Z)
    (optFile : option string) (fs : FS) : option State :=
  let cfg := mkConfig (orDefault optSize defaultMaxCacheSize)
                      (orDefault optAge defaultMaxAge)
                      (match optFile with
                       | Some f => if decide (f = "") then pathJoin dir "metadata.json" else f
                       | None => pathJoin dir "metadata.json"
                       end) in
  let cm := mkCache dir cfg (loadMetadata fs) in
  fs' ← ensureCacheDir F fs;
  Some (cm, fs').

(** *** Lookup *)

Definition isCached (st : State) (seriesCode videoId : string) : bool :=
  existsVideo st.2 seriesCode videoId.

(** [videoIds.every((id) => this.isCached(seriesCode, id))] *)
Definition isSeriesCached (st : State) (seriesCode : string) (videoIds : list string) : bool :=
  forallb (isCached st seriesCode) videoIds.

Definition touch (now : Z) (e : SeriesMetadata) : SeriesMetadata :=
  mkSeries (createdAt e) now (accessCount e + 1) (videos e).

Definition updateAccessTime (F : Faults) (now : Z) (seriesCode videoId : string)
    (st : State) : State :=
  let '(cm, fs) := st in
  match jsGet seriesCode (metadata cm) with
  | Some e =>
      saveMetadata F (withMetadata cm (jsSet seriesCode (touch now e) (metadata cm)), fs)
  | None => st
  end.

Definition getCachedVideo (F : Faults) (now : Z) (seriesCode videoId : string)
    (st : State) : option string * State :=
  if existsVideo st.2 seriesCode videoId
  then (Some (getVideoPath st.1 seriesCode videoId),
        updateAccessTime F now seriesCode videoId st)
  else (None, st).

(** *** Insertion *)

(** [if (!existsSync(seriesDir)) mkdirSync(seriesDir, { recursive: true })] *)
Definition ensureSeriesDir (F : Faults) (seriesCode : string) (fs : FS) : option FS :=
  if existsSeriesDir fs seriesCode then Some fs
  else if mkdirFails F seriesCode then None
  else Some (mkFS true (<[seriesCode := ∅]> (seriesDirs fs)) (outside fs) (metaFile fs)).

(** The directory of a series replaced by [d]. *)
Definition withSeriesDir (fs : FS) (seriesCode : string) (d : gmap string Z) : FS :=
  mkFS (rootExists fs) (<[seriesCode := d]> (seriesDirs fs)) (outside fs) (metaFile fs).

(** [copyFileSync(filePath, targetPath)]: the size of the copy and the new
    disk, or [None] when the source is missing, the target directory is gone
    or the copy throws; the disk is then as [afterFailedCopy] gives it. *)
Definition copyFileSync (F : Faults) (filePath seriesCode videoId : string)
    (fs : FS) : option (Z * FS) :=
  match outside fs !! filePath, seriesDirs fs !! seriesCode with
  | Some sz, Some d =>
      if copyFails F filePath then None
      else Some (sz, mkFS (rootExists fs)
                          (<[seriesCode := <[videoId := sz]> d]> (seriesDirs fs))
                          (outside fs) (metaFile fs))
  | _, _ => None
  end.

(** The disk after a [copyFileSync] that has thrown.  A missing source or
    target directory is found before the target is opened. *)
Definition afterFailedCopy (F : Faults) (filePath seriesCode videoId : string)
    (fs : FS) : FS :=
  match outside fs !! filePath, seriesDirs fs !! seriesCode with
  | Some _, Some d =>
      match copyLeaves F filePath with
      | Untouched => fs
      | Removed => withSeriesDir fs seriesCode (delete videoId d)
      | Truncated written => withSeriesDir fs seriesCode (<[videoId := written]> d)
      end
  | _, _ => fs
  end.

Definition freshSeries (now : Z) : SeriesMetadata := mkSeries now now 0 [].

(** The entry of [seriesCode] after lines 118-132: created if missing, the
    video recorded, the access time and count updated. *)
Definition recordVideo (now fileSize : Z) (videoId : string) (o : option SeriesMetadata)
    : SeriesMetadata :=
  let e := default (freshSeries now) o in
  mkSeries (createdAt e) now (accessCount e + 1)
           (jsSet videoId (mkVideo fileSize now) (videos e)).

Definition cacheVideo (F : Faults) (now : Z) (seriesCode videoId filePath : string)
    (st : State) : option string * State :=
  let '(cm, fs) := st in
  match ensureSeriesDir F seriesCode fs with
  | None => (None, st)
  | Some fs1 =>
      match copyFileSync F filePath seriesCode videoId fs1 with
      | None => (None, (cm, afterFailedCopy F filePath seriesCode videoId fs1))
      | Some (fileSize, fs2) =>
          (* [statSync(targetPath).size] *)
          if statFails F filePath then (None, (cm, fs2))
          else
            let e := recordVideo now fileSize videoId (jsGet seriesCode (metadata cm)) in
            let cm' := withMetadata cm (jsSet seriesCode e (metadata cm)) in
            (Some (getVideoPath cm seriesCode videoId), saveMetadata F (cm', fs2))
      end
  end.

(** *** Statistics *)

Definition seriesSize (e : SeriesMetadata) : Z :=
  foldl (λ sum v, sum + size v.2) 0 (videos e).

Definition totalSize (m : CacheMetadata) : Z :=
  foldl (λ sum s, sum + seriesSize s.2) 0 m.

Definition totalFiles (m : CacheMetadata) : Z :=
  foldl (λ n s, n + Z.of_nat (length (videos s.2))) 0 m.

Record CacheStats := mkStats {
  stats_totalSize : Z;
  stats_totalFiles : Z;
  stats_seriesCount : Z;
  stats_maxSize : Z
}.

(** [usagePercent], a formatted string, is left out. *)
Definition getCacheStats (cm : CacheManager) : CacheStats :=
  mkStats (totalSize (metadata cm)) (totalFiles (metadata cm))
          (Z.of_nat (length (jsKeys (metadata cm)))) (maxCacheSize (config cm)).

(** *** Removal and eviction *)

(** The disk after an [rmSync] of the series directory that has thrown:
    the removal is recursive, and some artifacts are gone by then. *)
Definition afterFailedRm (F : Faults) (seriesCode : string) (fs : FS) : FS :=
  mkFS (rootExists fs)
       (alter (filter (λ kv, rmLeaves F seriesCode kv.1 = true)) seriesCode (seriesDirs fs))
       (outside fs) (metaFile fs).

(** When [rmSync] throws, the entry stays in the index and nothing is
    written. *)
Definition removeSeries (F : Faults) (seriesCode : string) (st : State) : State :=
  let '(cm, fs) := st in
  if existsSeriesDir fs seriesCode && rmFails F seriesCode
  then (cm, afterFailedRm F seriesCode fs)
  else
    let fs' := mkFS (rootExists fs) (delete seriesCode (seriesDirs fs))
                    (outside fs) (metaFile fs) in
    saveMetadata F (withMetadata cm (jsDelete seriesCode (metadata cm)), fs').

(** One turn of the [for..in] loop of [cleanOldEntries]; a key deleted
    before its turn is not visited. *)
Definition cleanOldStep (F : Faults) (now : Z) (st : State) (seriesCode : string) : State :=
  match jsGet seriesCode (metadata st.1) with
  | Some series =>
      let age := now - createdAt series in
      if bool_decide (age > maxAge (config st.1)) then removeSeries F seriesCode st else st
  | None => st
  end.

Definition cleanOldEntries (F : Faults) (now : Z) (st : State) : State :=
  foldl (cleanOldStep F now) st (jsKeys (metadata st.1)).

(** The elements of [seriesList]: code, [lastAccessAt], size. *)
Definition SeriesInfo : Type := string * Z * Z.

Definition seriesInfo (kv : string * SeriesMetadata) : SeriesInfo :=
  (kv.1, lastAccessAt kv.2, seriesSize kv.2).

(** [.sort((a, b) => a.lastAccessAt - b.lastAccessAt)] *)
Definition sortByAccess (l : list SeriesInfo) : list SeriesInfo :=
  sortBy (λ x, x.1.2) l.

(** [currentSize <= maxCacheSize * 0.8].  On integers below 2^50 the
    comparison with the rounded product is the exact one with 4/5. *)
Definition withinBuffer (currentSize maxSize : Z) : bool :=
  bool_decide (5 * currentSize ≤ 4 * maxSize).

Fixpoint evictLoop (F : Faults) (seriesList : list SeriesInfo) (currentSize : Z)
    (st : State) : State :=
  match seriesList with
  | [] => st
  | series :: rest =>
      if withinBuffer currentSize (maxCacheSize (config st.1)) then st
      else evictLoop F rest (currentSize - series.2) (removeSeries F series.1.1 st)
  end.

Definition cleanBySize (F : Faults) (st : State) : State :=
  let stats := getCacheStats st.1 in
  if bool_decide (stats_totalSize stats ≤ maxCacheSize (config st.1)) then st
  else
    let seriesList := sortByAccess (seriesInfo <$> metadata st.1) in
    evictLoop F seriesList (stats_totalSize stats) st.

Definition cleanup (F : Faults) (now : Z) (st : State) : State :=
  cleanBySize F (cleanOldEntries F now st).

(** [clearAll]: on an error nothing after the throwing call happens.  An
    [rmSync] of the cache root that throws is taken to throw before it has
    removed anything. *)
Definition clearAll (F : Faults) (st : State) : State :=
  let '(cm, fs) := st in
  if rootExists fs && rmRootFails F then st
  else
    let cm' := withMetadata cm [] in
    let fs1 := mkFS false ∅ (outside fs) FileMissing in
    match ensureCacheDir F fs1 with
    | None => (cm', fs1)
    | Some fs2 => saveMetadata F (cm', fs2)
    end.

(** *** The life of a cache *)

Inductive Op :=
| CacheVideoOp (seriesCode videoId filePath : string)
| GetCachedVideoOp (seriesCode videoId : string)
| RemoveSeriesOp (seriesCode : string)
| CleanupOp
| ClearAllOp.

Definition applyOp (F : Faults) (now : Z) (op : Op) (st : State) : State :=
  match op with
  | CacheVideoOp seriesCode videoId filePath =>
      (cacheVideo F now seriesCode videoId filePath st).2
  | GetCachedVideoOp seriesCode videoId =>
      (getCachedVideo F now seriesCode videoId st).2
  | RemoveSeriesOp seriesCode => removeSeries F seriesCode st
  | CleanupOp => cleanup F now st
  | ClearAllOp => clearAll F st
  end.

(** A metadata file from which no index can be read. *)
Definition unusable (f : MetaFile) : Prop :=
  f = FileMissing ∨ f = FileUnreadable ∨ f = FileGarbage.

Definition withMetaFile (fs : FS) (f : MetaFile) : FS :=
  mkFS (rootExists fs) (seriesDirs fs) (outside fs) f.

Definition withOutside (fs : FS) (o : gmap string Z) : FS :=
  mkFS (rootExists fs) (seriesDirs fs) o (metaFile fs).

(** [reached clock st]: the cache can be in state [st], the clock having read
    at most [clock] so far.  A cache starts on a directory without a usable
    metadata file; operations read a clock that does not go back; the
    process may restart, which builds the manager anew from the disk; the
    metadata file may be lost or damaged; files come and go outside the
    cache. *)
Inductive reached : Z → State → Prop :=
| reached_new F dir optSize optAge optFile fs st clock :
    unusable (metaFile fs) →
    constructor F dir optSize optAge optFile fs = Some st →
    reached clock st
| reached_op F clock now op st :
    reached clock st → clock ≤ now → reached now (applyOp F now op st)
| reached_restart F dir optSize optAge optFile clock st st' :
    reached clock st →
    constructor F dir optSize optAge optFile st.2 = Some st' →
    reached clock st'
| reached_damage clock st f :
    reached clock st → unusable f → reached clock (st.1, withMetaFile st.2 f)
| reached_outside clock st o :
    reached clock st → reached clock (st.1, withOutside st.2 o).

(** Every entry was created before it was last accessed, and last accessed
    before the clock read [clock]. *)
Definition WellTimed (clock : Z) (m : CacheMetadata) : Prop :=
  ∀ kv, kv ∈ m → createdAt kv.2 ≤ lastAccessAt kv.2 ∧ lastAccessAt kv.2 ≤ clock.

(** *** Notions used in the statements *)

(** The reasons for which the artifact cannot be copied: the series directory
    cannot be created, the source file is missing, the copy throws. *)
Definition copyCannotSucceed (F : Faults) (filePath seriesCode : string) (fs : FS) : Prop :=
  (existsSeriesDir fs seriesCode = false ∧ mkdirFails F seriesCode = true) ∨
  outside fs !! filePath = None ∨
  copyFails F filePath = true.

(** The sum of the sizes of a list of series. *)
Definition sumSizes (l : list SeriesInfo) : Z := foldr (λ x s, x.2 + s) 0 l.

(** The invariant: the index in memory is well timed, and (with [disk]) so is
    the index that the metadata file holds. *)
Definition Inv (disk : bool) (clock : Z) (st : State) : Prop :=
  WellTimed clock (metadata st.1) ∧
  (disk = true → ∀ m, metaFile st.2 = FileJSON m → WellTimed clock m).

End Cache.

(** ** The cache manager of the consolidated service module

    The single-file variant of the service keeps no index in memory: every
    operation reads [metadata.json] and writes it back.  Its index records,
    per series, the list of cached video identifiers, the time of the last
    access and the size of the directory. *)

Module Consolidated.

Record SeriesEntry := mkEntry {
  files : list string;
  lastAccessed : Z;
  size : Z
}.

Abbreviation CacheMetadata := (list (string * SeriesEntry)).

Inductive MetaFile :=
| FileMissing
| FileUnreadable
| FileGarbage
| FileJSON (m : CacheMetadata).

Record FS := mkFS {
  rootExists : bool;
  seriesDirs : gmap string (gmap string Z);
  outside : gmap string Z;
  metaFile : MetaFile
}.

(** The calls that throw, and what a copy or a removal that throws has done
    to the disk by then, as for the cache manager of [src/utils]. *)
Record Faults := mkFaults {
  mkdirFails : string → bool;
  copyFails : string → bool;
  copyLeaves : string → Cache.Residue;
  rmFails : string → bool;
  rmLeaves : string → string → bool;
  readdirFails : string → bool;
  writeFails : bool
}.

Definition noFaults : Faults :=
  mkFaults (λ _, false) (λ _, false) (λ _, Cache.Untouched) (λ _, false) (λ _ _, true)
           (λ _, false) false.

Record CacheManager := mkCache {
  cacheDir : string;
  maxCacheSize : Z;
  maxAge : Z
}.

Definition existsVideo (fs : FS) (seriesCode videoId : string) : bool :=
  match seriesDirs fs !! seriesCode with
  | Some d => bool_decide (is_Some (d !! videoId))
  | None => false
  end.

Definition existsSeriesDir (fs : FS) (seriesCode : string) : bool :=
  bool_decide (is_Some (seriesDirs fs !! seriesCode)).

Definition cachedPath (cm : CacheManager) (seriesCode videoId : string) : string :=
  cacheDir cm +:+ "/" +:+ seriesCode +:+ "/" +:+ videoId +:+ ".mp4".

Definition loadMetadata (fs : FS) : CacheMetadata :=
  match metaFile fs with
  | FileJSON m => m
  | FileMissing => []
  | FileUnreadable => []
  | FileGarbage => []
  end.

Definition saveMetadata (F : Faults) (m : CacheMetadata) (fs : FS) : FS :=
  if writeFails F || negb (rootExists fs) then fs
  else mkFS (rootExists fs) (seriesDirs fs) (outside fs) (FileJSON m).

(** The sum of the sizes of the files of the directory; 0 when the directory
    is missing or cannot be listed. *)
Definition getDirectorySize (F : Faults) (fs : FS) (seriesCode : string) : Z :=
  match seriesDirs fs !! seriesCode with
  | Some d => if readdirFails F seriesCode then 0
              else foldl (λ sum kv, sum + kv.2) 0 (map_to_list d)
  | None => 0
  end.

Definition getCachedVideo (F : Faults) (now : Z) (cm : CacheManager)
    (seriesCode videoId : string) (fs : FS) : option string * FS :=
  if existsVideo fs seriesCode videoId then
    let metadata := loadMetadata fs in
    (Some (cachedPath cm seriesCode videoId),
     match jsGet seriesCode metadata with
     | Some e =>
         saveMetadata F (jsSet seriesCode (mkEntry (files e) now (size e)) metadata) fs
     | None => fs
     end)
  else (None, fs).

Definition isSeriesCached (fs : FS) (seriesCode : string) (videoIds : list string) : bool :=
  match jsGet seriesCode (loadMetadata fs) with
  | None => false
  | Some cachedSeries => forallb (λ id, bool_decide (id ∈ files cachedSeries)) videoIds
  end.

(** The disk after an [rmSync] of the series directory that has thrown. *)
Definition afterFailedRm (F : Faults) (seriesCode : string) (fs : FS) : FS :=
  mkFS (rootExists fs)
       (alter (filter (λ kv, rmLeaves F seriesCode kv.1 = true)) seriesCode (seriesDirs fs))
       (outside fs) (metaFile fs).

Definition removeSeries (F : Faults) (seriesCode : string) (fs : FS) : FS :=
  if existsSeriesDir fs seriesCode && rmFails F seriesCode
  then afterFailedRm F seriesCode fs
  else
    let fs' := mkFS (rootExists fs) (delete seriesCode (seriesDirs fs))
                    (outside fs) (metaFile fs) in
    saveMetadata F (jsDelete seriesCode (loadMetadata fs')) fs'.

(** The second loop of [enforceCache]; [metadata] is the index as read at
    the start of the call. *)
Fixpoint enforceLoop (F : Faults) (cm : CacheManager) (metadata : CacheMetadata)
    (sortedSeries : list (string * SeriesEntry)) (totalSize : Z) (fs : FS) : FS :=
  match sortedSeries with
  | [] => fs
  | (seriesCode, _) :: rest =>
      if bool_decide (totalSize ≤ maxCacheSize cm) then fs
      else
        let seriesSize := default 0 (size <$> jsGet seriesCode metadata) in
        enforceLoop F cm metadata rest (totalSize - seriesSize) (removeSeries F seriesCode fs)
  end.

(** The codes that the first loop of [enforceCache] collects. *)
Definition seriesToRemove (cm : CacheManager) (now : Z) (metadata : CacheMetadata)
    : list string :=
  (filter (λ kv, now - lastAccessed kv.2 > maxAge cm) metadata).*1.

Definition enforceCache (F : Faults) (now : Z) (cm : CacheManager) (fs : FS) : FS :=
  let metadata := loadMetadata fs in
  let totalSize := foldl (λ sum series, sum + size series.2) 0 metadata in
  let fs1 := foldl (λ fs code, removeSeries F code fs) fs (seriesToRemove cm now metadata) in
  let sortedSeries := sortBy (λ kv, lastAccessed kv.2) metadata in
  enforceLoop F cm metadata sortedSeries totalSize fs1.

(** The directory of a series after a [copyFileSync] into it that has
    thrown. *)
Definition afterFailedCopy (F : Faults) (sourcePath videoId : string) (d : gmap string Z)
    : gmap string Z :=
  match copyLeaves F sourcePath with
  | Cache.Untouched => d
  | Cache.Removed => delete videoId d
  | Cache.Truncated written => <[videoId := written]> d
  end.

(** [cacheVideo] reads the clock for the entry ([now]); [enforceCache] reads
    it again ([nowEnforce]).  Errors are caught and logged, nothing is
    returned. *)
Definition cacheVideo (F : Faults) (now nowEnforce : Z) (cm : CacheManager)
    (seriesCode videoId sourcePath : string) (fs : FS) : FS :=
  let mk :=
    if existsSeriesDir fs seriesCode then Some fs
    else if mkdirFails F seriesCode then None
    else Some (mkFS true (<[seriesCode := ∅]> (seriesDirs fs)) (outside fs) (metaFile fs)) in
  match mk with
  | None => fs
  | Some fs1 =>
      match outside fs1 !! sourcePath, seriesDirs fs1 !! seriesCode with
      | Some sz, Some d =>
          if copyFails F sourcePath
          then mkFS (rootExists fs1)
                    (<[seriesCode := afterFailedCopy F sourcePath videoId d]> (seriesDirs fs1))
                    (outside fs1) (metaFile fs1)
          else
            let fs2 := mkFS (rootExists fs1)
                            (<[seriesCode := <[videoId := sz]> d]> (seriesDirs fs1))
                            (outside fs1) (metaFile fs1) in
            let metadata := loadMetadata fs2 in
            let e := default (mkEntry [] now 0) (jsGet seriesCode metadata) in
            let files' := if bool_decide (videoId ∈ files e) then files e
                          else files e ++ [videoId] in
            let e' := mkEntry files' now (getDirectorySize F fs2 seriesCode) in
            enforceCache F nowEnforce cm (saveMetadata F (jsSet seriesCode e' metadata) fs2)
      | _, _ => fs1
      end
  end.

Definition cleanup (F : Faults) (now : Z) (cm : CacheManager) (fs : FS) : FS :=
  enforceCache F now cm fs.

(** The removal of the directory of the series throws. *)
Definition blocked (F : Faults) (fs : FS) (seriesCode : string) : bool :=
  existsSeriesDir fs seriesCode && rmFails F seriesCode.

End Consolidated.

(** ** The message handler ([src/handlers/MessageHandler.ts])

    An [async] method is a tree of the calls it makes: a node is a call, its
    children the continuations for each value the call can produce.  Calls on
    the [activeRequests] map are interpreted on that map; the other calls are
    answered by the collaborators (cache manager, Telegram service, WhatsApp
    client, database, file system), so that a property proved of the tree
    holds whatever they answer.  An awaited call is a point where other
    requests run. *)

Module Handler.

Definition Error : Type := string.

(** How a call ends: [return] or [throw] (a rejected promise). *)
Inductive Outcome (A : Type) : Type :=
| Returned (a : A)
| Thrown (err : Error).
Arguments Returned {A} a.
Arguments Thrown {A} err.

Record VideoInfo := mkVideoInfo { id : Z; caption : string }.

(** A [MessageMedia], known by the file it was read from. *)
Definition Media : Type := string.

(** The texts sent to the customer, by their first words. *)
Inductive Text :=
| PleaseWait                          (* "Please wait, we are still processing ..." *)
| SeriesNotFound (code : string)      (* "Sorry, series ... not found." *)
| FoundSeries (code : string)         (* "Found series: ... Fetching videos ..." *)
| NoVideosFound                       (* "No videos found for this series." *)
| FoundCached (n : nat)               (* "Found n video(s)! (Cached) ..." *)
| FoundDownloading (n : nat)          (* "Found n video(s)! ... Downloading ..." *)
| AllVideosSent                       (* "All videos sent successfully!" *)
| ErrorOccurred                       (* "Sorry, an error occurred ..." *)
| ErrorSendingVideo (videoNumber : nat). (* "Error sending video n. Skipping ..." *)

Inductive Event : Type → Type :=
(* [this.activeRequests], a [Map<string, string>] *)
| ActiveHas (chatId : string) : Event bool
| ActiveSet (chatId code : string) : Event unit
| ActiveDelete (chatId : string) : Event bool
(* synchronous calls *)
| IsSeriesCached (code : string) (videoIds : list string) : Event bool
| GetCachedVideo (code videoId : string) : Event (option string)
| CacheVideo (code videoId filePath : string) : Event (option string)
| MediaFromFilePath (filePath : string) : Event (Outcome Media)
| FsExistsSync (path : string) : Event bool
| FsUnlinkSync (path : string) : Event (Outcome unit)
| CleanTempDirectory (dirPath : string) : Event unit
(* awaited calls *)
| MessageReply (text : Text) : Event (Outcome unit)
| ClientSendText (chatId : string) (text : Text) : Event (Outcome unit)
| ClientSendMedia (chatId : string) (media : Media) (videoNumber total : nat)
    (caption : string) : Event (Outcome unit)
| FetchVideosFromGroup (groupUsername : string) : Event (Outcome (list VideoInfo))
| DownloadVideo (video : VideoInfo) (tempDir : string) : Event (Outcome string)
| UpdateUserRequest (chatId code : string) : Event (Outcome unit)
| Sleep (ms : Z) : Event unit.

(** The calls that are awaited. *)
Definition suspends {X} (e : Event X) : bool :=
  match e with
  | MessageReply _ | ClientSendText _ _ | ClientSendMedia _ _ _ _ _
  | FetchVideosFromGroup _ | DownloadVideo _ _ | UpdateUserRequest _ _ | Sleep _ => true
  | _ => false
  end.

Inductive Task (R : Type) : Type :=
| Ret (r : R)
| Vis {X : Type} (e : Event X) (k : X → Task R).
Arguments Ret {R} r.
Arguments Vis {R X} e k.

(** A computation that returns an [A] or throws. *)
Definition Async (A : Type) : Type := Task (Outcome A).

Definition ret {A} (a : A) : Async A := Ret (Returned a).
Definition throw {A} (err : Error) : Async A := Ret (Thrown err).

(** A call that cannot throw, and one that can. *)
Definition call {X} (e : Event X) : Async X := Vis e (λ x, Ret (Returned x)).
Definition attempt {X} (e : Event (Outcome X)) : Async X := Vis e (λ o, Ret o).

Fixpoint bind {A B} (t : Async A) (f : A → Async B) : Async B :=
  match t with
  | Ret (Returned a) => f a
  | Ret (Thrown err) => Ret (Thrown err)
  | Vis e k => Vis e (λ x, bind (k x) f)
  end.

(** [try { t } catch (error) { h error }] *)
Fixpoint tryCatch {A} (t : Async A) (h : Error → Async A) : Async A :=
  match t with
  | Ret (Returned a) => Ret (Returned a)
  | Ret (Thrown err) => h err
  | Vis e k => Vis e (λ x, tryCatch (k x) h)
  end.

(** [try { t } finally { fin }]: [fin] runs however [t] ends; the outcome is
    that of [t] unless [fin] throws. *)
Fixpoint tryFinally {A} (t : Async A) (fin : Async unit) : Async A :=
  match t with
  | Ret o => bind fin (λ _, Ret o)
  | Vis e k => Vis e (λ x, tryFinally (k x) fin)
  end.

#[global] Instance async_ret : MRet Async := λ A a, ret a.
#[global] Instance async_bind : MBind Async := λ A B f t, bind t f.

(** *** Series configuration ([config/series.config.ts]) *)

Definition upperAscii (a : ascii) : ascii :=
  let n := nat_of_ascii a in
  if bool_decide (97 ≤ n ≤ 122)%nat then ascii_of_nat (n - 32) else a.

(** [String.prototype.toUpperCase] on the ASCII letters of a series code. *)
Fixpoint toUpperCase (s : string) : string :=
  match s with
  | EmptyString => EmptyString
  | String a s' => String (upperAscii a) (toUpperCase s')
  end.

Definition seriesMapping : gmap string string :=
  {[ "AB001" := "wbsd06"; "AB002" := "dfhjuuu"; "AB003" := "wbsd08" ]}.

Section Config.
Variable mapping : gmap string string.

(** [seriesMapping[seriesCode.toUpperCase()] || null]; the empty string is
    falsy. *)
Definition getTelegramGroup (seriesCode : string) : option string :=
  match mapping !! toUpperCase seriesCode with
  | Some g => if decide (g = "") then None else Some g
  | None => None
  end.

(** [seriesCode.toUpperCase() in seriesMapping] *)
Definition isValidSeries (seriesCode : string) : bool :=
  bool_decide (is_Some (mapping !! toUpperCase seriesCode)).

(** *** Sending the videos *)

Definition tempDir : string := "./temp".

(** [video.id.toString()] *)
Definition videoIdOf (video : VideoInfo) : string := pretty (id video).

(** The body of the [try] of one turn of the loop of [sendVideosInOrder];
    [i] is the index of [video], [total] is [videos.length].  A path returned
    by the cache is a non-empty string, hence truthy. *)
Definition sendOne (total i : nat) (video : VideoInfo) (chatId seriesCode : string)
    : Async unit :=
  let videoNumber := (i + 1)%nat in
  let videoId := videoIdOf video in
  cachedPath ← call (GetCachedVideo seriesCode videoId);
  filePath ← match cachedPath with
             | Some p => ret p
             | None =>
                 p ← attempt (DownloadVideo video tempDir);
                 call (CacheVideo seriesCode videoId p);;
                 ret p
             end;
  media ← attempt (MediaFromFilePath filePath);
  attempt (ClientSendMedia chatId media videoNumber total (caption video));;
  match cachedPath with
  | Some _ => ret tt
  | None =>
      there ← call (FsExistsSync filePath);
      if there : bool then attempt (FsUnlinkSync filePath) else ret tt
  end;;
  if bool_decide (i < total - 1)%nat then call (Sleep 2000) else ret tt.

Fixpoint sendLoop (total i : nat) (videos : list VideoInfo) (chatId seriesCode : string)
    : Async unit :=
  match videos with
  | [] => ret tt
  | video :: rest =>
      tryCatch (sendOne total i video chatId seriesCode)
               (λ error, attempt (ClientSendText chatId (ErrorSendingVideo (i + 1))));;
      sendLoop total (S i) rest chatId seriesCode
  end.

Definition sendVideosInOrder (videos : list VideoInfo) (chatId seriesCode : string)
    : Async unit :=
  sendLoop (length videos) 0 videos chatId seriesCode;;
  call (CleanTempDirectory tempDir).

(** *** The series request *)

(** The body of the [try] of [handleSeriesRequest]. *)
Definition processRequest (code chatId : string) : Async unit :=
  call (ActiveSet chatId code);;
  match getTelegramGroup code with
  | None => throw "No Telegram group found for series"
  | Some groupUsername =>
      attempt (MessageReply (FoundSeries code));;
      videos ← attempt (FetchVideosFromGroup groupUsername);
      if bool_decide (length videos = 0%nat) then
        attempt (MessageReply NoVideosFound);;
        call (ActiveDelete chatId);;
        ret tt
      else
        let videoIds := videoIdOf <$> videos in
        isCached ← call (IsSeriesCached code videoIds);
        attempt (MessageReply (if isCached : bool then FoundCached (length videos)
                               else FoundDownloading (length videos)));;
        sendVideosInOrder videos chatId code;;
        attempt (UpdateUserRequest chatId code);;
        attempt (ClientSendText chatId AllVideosSent)
  end.

Definition handleSeriesRequest (seriesCode chatId : string) : Async unit :=
  busy ← call (ActiveHas chatId);
  if busy : bool then attempt (MessageReply PleaseWait)
  else
    let code := toUpperCase seriesCode in
    if negb (isValidSeries code) then attempt (MessageReply (SeriesNotFound code))
    else
      tryFinally
        (tryCatch (processRequest code chatId)
                  (λ error, attempt (MessageReply ErrorOccurred)))
        (call (ActiveDelete chatId);; ret tt).

End Config.

(** *** Execution *)

(** The [activeRequests] map. *)
Abbreviation Active := (gmap string string).

(** What a request did to the map: [set], and [delete] with its return value
    (whether there was an entry to remove). *)
Inductive LockEvent :=
| Acquire (chatId code : string)
| Release (chatId : string) (existed : bool).

(** The calls on the map: result, new map, and what is logged. *)
Definition mapEvent {X} (e : Event X) (active : Active)
    : option (X * Active * list LockEvent) :=
  match e in Event X return option (X * Active * list LockEvent) with
  | ActiveHas chatId =>
      Some (bool_decide (is_Some (active !! chatId)), active, [])
  | ActiveSet chatId code =>
      Some (tt, <[chatId := code]> active, [Acquire chatId code])
  | ActiveDelete chatId =>
      let existed := bool_decide (is_Some (active !! chatId)) in
      Some (existed, delete chatId active, [Release chatId existed])
  | _ => None
  end.

(** The answers of the collaborators: to the [n]-th call, for each call. *)
Definition Answers : Type := nat → ∀ X, Event X → X.

(** Runs [t]: the calls on the map act on [active], the others take the next
    answer.  With [through = false] the run stops at the first awaited call
    (one turn of the event loop); with [through = true] it goes on to the
    end, nothing else touching the map in between. *)
Fixpoint exec {R} (through : bool) (ans : Answers) (n : nat) (t : Task R)
    (log : list LockEvent) (active : Active) : Task R * list LockEvent * Active :=
  match t with
  | Ret r => (Ret r, log, active)
  | Vis e k =>
      match mapEvent e active with
      | Some (x, active', evs) => exec through ans n (k x) (log ++ evs) active'
      | None =>
          if suspends e && negb through then (Vis e k, log, active)
          else exec through ans (S n) (k (ans n _ e)) log active
      end
  end.

Definition advance {R} := @exec R false.
Definition run {R} := @exec R true.

Definition isAcquire (chatId : string) (ev : LockEvent) : bool :=
  match ev with
  | Acquire c _ => bool_decide (c = chatId)
  | Release _ _ => false
  end.

(** A [delete] that returned [true] removed an entry. *)
Definition isRelease (chatId : string) (ev : LockEvent) : bool :=
  match ev with
  | Acquire _ _ => false
  | Release c existed => bool_decide (c = chatId) && existed
  end.

Definition acquisitions (chatId : string) (log : list LockEvent) : nat :=
  length (List.filter (isAcquire chatId) log).

Definition releases (chatId : string) (log : list LockEvent) : nat :=
  length (List.filter (isRelease chatId) log).

(** *** Concurrent requests

    The requests in progress, each suspended at an awaited call or finished,
    share the map.  A turn either starts a request, which runs up to its first
    awaited call, or hands a suspended request the result of the call it
    awaits and runs it up to the next one. *)

Record Request := mkRequest {
  chat : string;
  history : list LockEvent;
  rest : Async unit
}.

Record System := mkSystem {
  activeRequests : Active;
  requests : list Request
}.

(** A request is in flight from its [set] to its [delete]. *)
Definition inFlight (r : Request) : Prop :=
  (releases (chat r) (history r) < acquisitions (chat r) (history r))%nat.

Definition initial : System := mkSystem ∅ [].

Inductive step (mapping : gmap string string) : System → System → Prop :=
| step_request sys seriesCode chatId ans t' log' active' :
    advance ans 0%nat (handleSeriesRequest mapping seriesCode chatId) []
            (activeRequests sys) = (t', log', active') →
    step mapping sys (mkSystem active' (requests sys ++ [mkRequest chatId log' t']))
| step_resume sys i r X (e : Event X) k (x : X) ans t' log' active' :
    requests sys !! i = Some r →
    rest r = Vis e k →
    suspends e = true →
    advance ans 0%nat (k x) (history r) (activeRequests sys) = (t', log', active') →
    step mapping sys (mkSystem active' (<[i := mkRequest (chat r) log' t']> (requests sys))).

Definition reachable (mapping : gmap string string) : System → Prop :=
  rtc (step mapping) initial.

(** The two kinds of turn as functions, the collaborators answering with
    [ans]. *)
Definition startRequest (mapping : gmap string string) (ans : Answers)
    (seriesCode chatId : string) (sys : System) : System :=
  let '(t', log', active') :=
    advance ans 0%nat (handleSeriesRequest mapping seriesCode chatId) []
            (activeRequests sys) in
  mkSystem active' (requests sys ++ [mkRequest chatId log' t']).

Definition resumeRequest (ans : Answers) (i : nat) (sys : System) : System :=
  match requests sys !! i with
  | Some r =>
      match rest r with
      | Vis e k =>
          if suspends e then
            let '(t', log', active') :=
              advance (λ n, ans (S n)) 0%nat (k (ans 0%nat _ e)) (history r)
                      (activeRequests sys) in
            mkSystem active' (<[i := mkRequest (chat r) log' t']> (requests sys))
          else sys
      | Ret _ => sys
      end
  | None => sys
  end.

(** Collaborators that never fail; the Telegram group holds [videos]. *)
Definition answerWith (videos : list VideoInfo) : Answers := λ _ X e,
  match e in Event X return X with
  | ActiveHas _ => false
  | ActiveSet _ _ => tt
  | ActiveDelete _ => false
  | IsSeriesCached _ _ => false
  | GetCachedVideo _ _ => None
  | CacheVideo _ _ filePath => Some filePath
  | MediaFromFilePath filePath => Returned filePath
  | FsExistsSync _ => true
  | FsUnlinkSync _ => Returned tt
  | CleanTempDirectory _ => tt
  | MessageReply _ => Returned tt
  | ClientSendText _ _ => Returned tt
  | ClientSendMedia _ _ _ _ _ => Returned tt
  | FetchVideosFromGroup _ => Returned videos
  | DownloadVideo video dir => Returned (dir +:+ "/" +:+ pretty (id video) +:+ ".mp4")
  | UpdateUserRequest _ _ => Returned tt
  | Sleep _ => tt
  end.

End Handler.

(** ** The locking discipline of a request

    What a request may do to its entry of [activeRequests], by the phase it is
    in.  [SawFree] and [JustReleased] are known to hold only until the next
    awaited call, since other requests run there. *)

Module Protocol.
Import Handler.

Inductive Phase :=
| Outside        (* has not set its entry *)
| SawFree        (* has not set its entry, and has just seen that there is none *)
| Holding        (* has set its entry and not deleted it *)
| JustReleased   (* has deleted its entry since the last awaited call *)
| Gone.          (* has deleted its entry, before the last awaited call *)

Definition afterAwait (p : Phase) : Phase :=
  match p with
  | SawFree => Outside
  | JustReleased => Gone
  | _ => p
  end.

(** The phases a call leads to, with the values it can return there.  [has]
    reads the entry; [set] is allowed only on an entry seen free; [delete] only
    by the holder, or where it is known to remove nothing. *)
Definition eventRule (chatId : string) {X} (e : Event X) (p : Phase)
    : (X → Phase → Prop) → Prop :=
  match e in Event X return (X → Phase → Prop) → Prop with
  | ActiveHas c => λ K,
      c = chatId ∧
      match p with
      | Outside => K true Outside ∧ K false SawFree
      | SawFree => K false SawFree
      | Holding => K true Holding
      | JustReleased => K false JustReleased
      | Gone => K true Gone ∧ K false Gone
      end
  | ActiveSet c _ => λ K, c = chatId ∧ p = SawFree ∧ K tt Holding
  | ActiveDelete c => λ K,
      c = chatId ∧
      match p with
      | Holding => K true JustReleased
      | JustReleased => K false JustReleased
      | SawFree => K false SawFree
      | Outside | Gone => False
      end
  | e' => λ K, ∀ x, K x (if suspends e' then afterAwait p else p)
  end.

(** [follows chatId t Q p]: from phase [p], the request [t] keeps to the
    discipline whatever it is answered, and ends with a result and in a phase
    that satisfy [Q]. *)
Fixpoint follows {R} (chatId : string) (t : Task R) (Q : R → Phase → Prop) (p : Phase)
    : Prop :=
  match t with
  | Ret r => Q r p
  | Vis e k => eventRule chatId e p (λ x p', follows chatId (k x) Q p')
  end.

(** What a phase says about the log of the request and about the map. *)
Definition Knows (chatId : string) (p : Phase) (log : list LockEvent) (active : Active)
    : Prop :=
  match p with
  | Outside => acquisitions chatId log = 0%nat ∧ releases chatId log = 0%nat
  | SawFree =>
      active !! chatId = None ∧
      acquisitions chatId log = 0%nat ∧ releases chatId log = 0%nat
  | Holding =>
      is_Some (active !! chatId) ∧
      acquisitions chatId log = 1%nat ∧ releases chatId log = 0%nat
  | JustReleased =>
      active !! chatId = None ∧
      acquisitions chatId log = 1%nat ∧ releases chatId log = 1%nat
  | Gone => acquisitions chatId log = 1%nat ∧ releases chatId log = 1%nat
  end.

Definition isMapEvent {X} (e : Event X) : bool :=
  match e with
  | ActiveHas _ | ActiveSet _ _ | ActiveDelete _ => true
  | _ => false
  end.

(** A computation that makes no call on the map. *)
Fixpoint quiet {R} (t : Task R) : Prop :=
  match t with
  | Ret _ => True
  | Vis e k => isMapEvent e = false ∧ ∀ x, quiet (k x)
  end.

(** Where a request may end: anywhere but holding its entry. *)
Definition released {A} (_ : A) (p : Phase) : Prop := p ≠ Holding.

(** The [finally] block of [handleSeriesRequest]. *)
Definition finallyRelease (chatId : string) : Async unit :=
  call (ActiveDelete chatId);; ret tt.

(** A turn stops at an awaited call or at the end. *)
Definition suspended {R} (t : Task R) : Prop :=
  match t with
  | Ret _ => True
  | Vis e _ => suspends e = true
  end.

(** The invariant of the system of concurrent requests. *)
Record SystemInv (sys : System) : Prop := mkSystemInv {
  inv_requests : ∀ i r, requests sys !! i = Some r →
    ∃ p, afterAwait p = p ∧
         follows (chat r) (rest r) released p ∧
         Knows (chat r) p (history r) (activeRequests sys);
  inv_exclusive : ∀ i j ri rj,
    requests sys !! i = Some ri → requests sys !! j = Some rj →
    chat ri = chat rj → inFlight ri → inFlight rj → i = j
}.

End Protocol.

(** ** Scenarios

    The concrete states and executions on which the properties below are
    exercised. *)

Module CacheScenarios.
Import Cache.

Definition brokenDisk : FS :=
  mkFS true {[ "AB001" := {[ "1" := 4 ]} ]} ∅ FileGarbage.

(** The artifact is on disk and the index, reloaded from an unusable file, is
    empty. *)
Definition orphanState : State :=
  (mkCache "./temp/cache" (mkConfig defaultMaxCacheSize defaultMaxAge
                                    "./temp/cache/metadata.json") [],
   brokenDisk).

Definition indexedState : State :=
  (mkCache "./temp/cache" (mkConfig defaultMaxCacheSize defaultMaxAge
                                    "./temp/cache/metadata.json")
           [("AB001", mkSeries 10 20 1 [("1", mkVideo 4 10)])],
   mkFS true {[ "AB001" := {[ "1" := 4 ]} ]} ∅ FileMissing).

Definition emptyCache (maxSize : Z) (files : gmap string Z) : State :=
  (mkCache "./temp/cache" (mkConfig maxSize defaultMaxAge "./temp/cache/metadata.json") [],
   mkFS true ∅ files FileMissing).

(** The scenario of the specification: capacity 10 MiB, three series of one
    4 MiB video each, inserted in the order A, B, C. *)
Definition MiB : Z := 1024 * 1024.

Definition threeSources : gmap string Z :=
  {[ "./temp/a.mp4" := 4 * MiB; "./temp/b.mp4" := 4 * MiB; "./temp/c.mp4" := 4 * MiB ]}.

Definition afterThreeInserts : State :=
  let s0 := emptyCache (10 * MiB) threeSources in
  let s1 := (cacheVideo noFaults 1 "A" "1" "./temp/a.mp4" s0).2 in
  let s2 := (cacheVideo noFaults 2 "B" "1" "./temp/b.mp4" s1).2 in
  (cacheVideo noFaults 3 "C" "1" "./temp/c.mp4" s2).2.

(** Three series of 4 MiB whose last access falls in the same millisecond,
    created in the order B, A, C, in a cache of 10 MiB. *)
Definition tiedInserts : State :=
  let s0 := emptyCache (10 * MiB) threeSources in
  let s1 := (cacheVideo noFaults 5 "B" "1" "./temp/b.mp4" s0).2 in
  let s2 := (cacheVideo noFaults 5 "A" "1" "./temp/a.mp4" s1).2 in
  (cacheVideo noFaults 5 "C" "1" "./temp/c.mp4" s2).2.

(** The scenario of the specification: [maxAge] of one hour, a series created
    two hours ago, a cache far under capacity. *)
Definition hour : Z := 60 * 60 * 1000.

Definition twoHoursOld : State :=
  (mkCache "./temp/cache"
     (mkConfig defaultMaxCacheSize hour "./temp/cache/metadata.json")
     [("AB001", mkSeries 0 0 1 [("1", mkVideo 4 0)])],
   mkFS true {[ "AB001" := {[ "1" := 4 ]} ]} ∅ FileMissing).

(** A cache is created on a fresh directory; a video is downloaded and cached
    at time 10, then read at time 25. *)
Definition freshDisk : FS := mkFS false ∅ ∅ FileMissing.

Definition smallLife : State :=
  let s0 := (mkCache "./temp/cache"
               (mkConfig defaultMaxCacheSize defaultMaxAge "./temp/cache/metadata.json")
               [], mkFS true ∅ ∅ FileMissing) in
  let s1 := (s0.1, withOutside s0.2 {[ "./temp/7.mp4" := 4 ]}) in
  let s2 := applyOp noFaults 10 (CacheVideoOp "AB001" "7" "./temp/7.mp4") s1 in
  applyOp noFaults 25 (GetCachedVideoOp "AB001" "7") s2.

End CacheScenarios.

Module ConsolidatedScenarios.
Import Consolidated.

(** A series cached at time 0 and read at time 100, in a cache whose [maxAge]
    is 100: at time 150 the series is 150 old and [cleanup] keeps it. *)
Definition agedCache : CacheManager := mkCache "./temp/cache" (1024 * 1024 * 1024) 100.

Definition agedDisk : FS :=
  let fs0 := mkFS true ∅ {[ "./temp/1.mp4" := 4 ]} FileMissing in
  let fs1 := cacheVideo noFaults 0 0 agedCache "AB001" "1" "./temp/1.mp4" fs0 in
  (getCachedVideo noFaults 100 agedCache "AB001" "1" fs1).2.

(** A series cached at time 0 and not read since, in a cache whose [maxAge]
    is one hour. *)
Definition hourCache : CacheManager :=
  mkCache "./temp/cache" (1024 * 1024 * 1024) (60 * 60 * 1000).

Definition idleDisk : FS :=
  cacheVideo noFaults 0 0 hourCache "AB001" "1" "./temp/1.mp4"
             (mkFS true ∅ {[ "./temp/1.mp4" := 4 ]} FileMissing).

End ConsolidatedScenarios.

Module HandlerScenarios.
Import Handler.

(** The chat [u1] asks for [ab001], whose group holds no video: the request is
    started and resumed three times (the two replies and the list of videos). *)
Definition emptySeriesRun : System :=
  resumeRequest (answerWith []) 0
    (resumeRequest (answerWith []) 0
       (resumeRequest (answerWith []) 0
          (startRequest seriesMapping (answerWith []) "ab001" "u1" initial))).

(** The chat [u1] has a request in flight, suspended at its first reply. *)
Definition busySystem : System :=
  startRequest seriesMapping (answerWith []) "ab001" "u1" initial.

(** The scenario of the specification: [u1] asks for a series; before that
    request completes [u1] asks for another one and [u2] asks for one too. *)
Definition twoChats : System :=
  startRequest seriesMapping (answerWith []) "ab003" "u2"
    (startRequest seriesMapping (answerWith []) "ab002" "u1"
       (startRequest seriesMapping (answerWith []) "ab001" "u1" initial)).

End HandlerScenarios.

(** ** The total of a size over the properties of an object *)

Definition weight {V} (w : V → Z) (o : list (string * V)) : Z :=
  foldr (λ kv s, w kv.2 + s) 0 o.

(** ** Index and disk

    Two relations between the index that the cache manager of [src/utils]
    holds in memory and the disk it manages. *)

Module CacheNotions.
Import Cache.

(** Every video of the index is on disk, with the size the index records. *)
Definition Backed (st : State) : Prop :=
  ∀ seriesCode e videoId v,
    jsGet seriesCode (metadata st.1) = Some e →
    jsGet videoId (videos e) = Some v →
    ∃ d, seriesDirs st.2 !! seriesCode = Some d ∧ d !! videoId = Some (size v).

(** The cache root exists and the metadata file reads back as the index in
    memory. *)
Definition Synced (st : State) : Prop :=
  rootExists st.2 = true ∧ loadMetadata st.2 = metadata st.1.

(** A copy that throws does so before it has opened its target, which is
    then as it was. *)
Definition cleanCopies (F : Faults) : Prop :=
  ∀ filePath, copyFails F filePath = true → copyLeaves F filePath = Untouched.

(** Two videos of a series are cached; the second is downloaded again. *)
Definition twoCached : State :=
  (mkCache "./temp/cache" (mkConfig defaultMaxCacheSize defaultMaxAge
                                    "./temp/cache/metadata.json")
           [("AB001", mkSeries 10 20 2 [("1", mkVideo 4 10); ("2", mkVideo 4 20)])],
   mkFS true {[ "AB001" := {[ "1" := 4; "2" := 4 ]} ]} {[ "./temp/2.mp4" := 4 ]}
        FileMissing).

(** The disk is full: a copy throws after it has opened its target, which it
    removes, and the metadata file cannot be written. *)
Definition diskFull : Faults :=
  mkFaults (λ _, false) (λ _, true) (λ _, Removed) (λ _, false)
           (λ _, false) (λ _ _, true) false false true.

(** No directory can be created and nothing can be written; a copy throws
    before it has opened its target. *)
Definition readOnly : Faults :=
  mkFaults (λ _, true) (λ _, true) (λ _, Untouched) (λ _, false)
           (λ _, false) (λ _ _, true) true false true.

(** The removal of a directory throws when it has removed the artifact 1. *)
Definition halfRemoved : Faults :=
  mkFaults (λ _, false) (λ _, false) (λ _, Untouched) (λ _, false)
           (λ _, true) (λ _ videoId, negb (bool_decide (videoId = "1"))) false false false.

(** The size recorded for a video, 0 when it is not in the index. *)
Definition recordedSize (m : CacheMetadata) (seriesCode videoId : string) : Z :=
  default 0 (size <$> (jsGet seriesCode m ≫= λ e, jsGet videoId (videos e))).

End CacheNotions.

Module ConsolidatedNotions.
Import Consolidated.

(** [Object.values(metadata).reduce((sum, series) => sum + series.size, 0)] *)
Definition recordedTotal (metadata : CacheMetadata) : Z :=
  foldl (λ sum series, sum + size series.2) 0 metadata.

(** [metadata[seriesCode]?.size || 0] *)
Definition sizeIn (metadata : CacheMetadata) (seriesCode : string) : Z :=
  default 0 (size <$> jsGet seriesCode metadata).

(** No file has a negative size. *)
Definition sizesOnDisk (fs : FS) : Prop :=
  map_Forall (λ _ d, map_Forall (λ _ z, 0 ≤ z) (d : gmap string Z)) (seriesDirs fs) ∧
  map_Forall (λ _ z, 0 ≤ z) (outside fs).

(** The index lists every series once, with a size that is not negative. *)
Definition wellFormed (metadata : CacheMetadata) : Prop :=
  NoDup (jsKeys metadata) ∧ Forall (λ kv, 0 ≤ size kv.2) metadata.

End ConsolidatedNotions.

Module ConsolidatedMoreScenarios.
Import Consolidated.

(** A cache of 10 MiB that holds the series A and B, of one video of 4 MiB
    each; a third file of 4 MiB waits outside. *)
Definition smallCache : CacheManager :=
  mkCache "./temp/cache" (10 * 1024 * 1024) (7 * 24 * 60 * 60 * 1000).

Definition twoSeriesDisk : FS :=
  let sz := 4 * 1024 * 1024 in
  let fs0 := mkFS true ∅ {[ "./temp/a.mp4" := sz; "./temp/b.mp4" := sz;
                            "./temp/c.mp4" := sz ]} FileMissing in
  let fs1 := cacheVideo noFaults 1 1 smallCache "A" "1" "./temp/a.mp4" fs0 in
  cacheVideo noFaults 2 2 smallCache "B" "1" "./temp/b.mp4" fs1.

End ConsolidatedMoreScenarios.

(** ** The Telegram service ([src/telegram/TelegramClient.ts])

    What [fetchVideosFromGroup] makes of the messages that the Telegram
    client returns for the group.  The lookup of the group and the listing of
    its messages are the collaborator's; their result is an argument. *)

Module Telegram.
Import Handler.

Record Message := mkMessage {
  msgId : Z;
  msgDate : Z;
  msgText : option string;       (* [message.message] *)
  isApiMessage : bool;           (* [message instanceof Api.Message] *)
  hasMedia : bool;               (* [message.media] is set *)
  msgVideo : option Z;           (* [message.video], a document *)
  mediaVideo : bool              (* [message.media.video] is truthy *)
}.

Record VideoInfo := mkVideoInfo {
  id : Z;
  date : Z;
  caption : string;
  video : Z;
  messageObj : Message
}.

(** [message.message || ""] *)
Definition orEmpty (o : option string) : string := default "" o.

(** The test and the element pushed by the loop. *)
Definition videoInfoOf (message : Message) : option VideoInfo :=
  if isApiMessage message && hasMedia message then
    match msgVideo message with
    | Some doc =>
        Some (mkVideoInfo (msgId message) (msgDate message) (orEmpty (msgText message))
                          doc message)
    | None => None
    end
  else None.

Definition collectVideos (messages : list Message) : list VideoInfo :=
  omap videoInfoOf messages.

(** [connected]: [this.client] is set.  [answer]: what [getEntity] followed
    by [getMessages] gives, the list of messages or the error thrown.  The
    [catch] logs and throws the error again. *)
Definition fetchVideosFromGroup (connected : bool) (answer : Outcome (list Message))
    : Outcome (list VideoInfo) :=
  if connected then
    match answer with
    | Returned messages => Returned (sortBy id (collectVideos messages))
    | Thrown err => Thrown err
    end
  else Thrown "Telegram client not connected".

(** *** The consolidated service module *)

Record VideoRef := mkVideoRef { refId : Z; refCaption : option string }.

(** [msg.message || null] *)
Definition orNull (o : option string) : option string :=
  match o with
  | Some s => if decide (s = "") then None else Some s
  | None => None
  end.

(** [msg.media?.video] *)
Definition hasMediaVideo (msg : Message) : bool := hasMedia msg && mediaVideo msg.

Definition fetchVideosConsolidated (answer : Outcome (list Message))
    : Outcome (list VideoRef) :=
  match answer with
  | Returned messages =>
      Returned ((λ msg, mkVideoRef (msgId msg) (orNull (msgText msg)))
                  <$> reverse (List.filter hasMediaVideo messages))
  | Thrown err => Thrown err
  end.

(** Telegram lists the messages of a group from the newest to the oldest. *)
Definition newestFirst (messages : list Message) : Prop :=
  StronglySorted (λ a b, msgId b < msgId a) messages.

End Telegram.

(** ** What a run of the handler does

    [play] runs a computation to the end as [run] does, and returns its
    result with the calls it made, in order. *)

Module Observation.
Import Handler.

(** A call, whatever the type of its result. *)
Inductive Call :=
| MkCall {X : Type} (e : Event X).

Fixpoint play {R} (ans : Answers) (n : nat) (t : Task R) (active : Active)
    : R * list Call :=
  match t with
  | Ret r => (r, [])
  | Vis e k =>
      let '(r, calls) :=
        match mapEvent e active with
        | Some (x, active', _) => play ans n (k x) active'
        | None => play ans (S n) (k (ans n _ e)) active
        end in
      (r, MkCall e :: calls)
  end.

(** The answers that a call may get. *)
Definition Allowed : Type := ∀ X, Event X → X → Prop.

(** [ensures good obs t seen Q]: whatever answers [t] gets among those that
    [good] allows, it ends with a result [r] and, [seen] being what was
    observed before and [obs] what is observed of each call, with
    observations [s] such that [Q r s]. *)
Fixpoint ensures {R O} (good : Allowed) (obs : Call → list O) (t : Task R)
    (seen : list O) (Q : R → list O → Prop) : Prop :=
  match t with
  | Ret r => Q r seen
  | Vis e k => ∀ x, good _ e x → ensures good obs (k x) (seen ++ obs (MkCall e)) Q
  end.

Definition anyAnswer : Allowed := λ _ _ _, True.

Definition isReturned {A} (o : Outcome A) : Prop := ∃ a, o = Returned a.

(** No call throws. *)
Definition succeeds : Allowed := λ X e,
  match e in Event X return X → Prop with
  | MediaFromFilePath _ => isReturned
  | FsUnlinkSync _ => isReturned
  | MessageReply _ => isReturned
  | ClientSendText _ _ => isReturned
  | ClientSendMedia _ _ _ _ _ => isReturned
  | FetchVideosFromGroup _ => isReturned
  | DownloadVideo _ _ => isReturned
  | UpdateUserRequest _ _ => isReturned
  | _ => λ _, True
  end.

(** [message.reply] does not throw. *)
Definition repliesDelivered : Allowed := λ X e,
  match e in Event X return X → Prop with
  | MessageReply _ => λ o, o = Returned tt
  | _ => λ _, True
  end.





(** What a request does, as far as its chat's entry is concerned: it sets the
    entry, deletes it, or calls a collaborator that works for the chat (the
    cache, the Telegram service, the database, the sending of texts and
    videos to the chat, the file system, the timer).  The calls that read
    the map and the replies to the message are left out. *)
Inductive Token :=
| Acquired (chatId : string)
| Worked
| Released (chatId : string).

Definition lockObs (c : Call) : list Token :=
  match c with
  | MkCall e =>
      match e with
      | ActiveSet chatId _ => [Acquired chatId]
      | ActiveDelete chatId => [Released chatId]
      | ActiveHas _ => []
      | MessageReply _ => []
      | _ => [Worked]
      end
  end.

(** The request has set its entry and worked since. *)
Definition holding (chatId : string) (s : list Token) : Prop :=
  ∃ works, s = Acquired chatId :: works ∧ Forall (λ t, t = Worked) works.

(** The request has set its entry, worked, and deleted the entry, once or
    twice. *)
Definition served (chatId : string) (s : list Token) : Prop :=
  ∃ works dels,
    s = Acquired chatId :: works ++ dels ∧
    Forall (λ t, t = Worked) works ∧
    (dels = [Released chatId] ∨ dels = [Released chatId; Released chatId]).

(** Telegram cannot be reached; everything else works. *)
Definition telegramDown : Answers := λ n X e,
  match e in Event X return X with
  | FetchVideosFromGroup _ => Thrown "connection lost"
  | DownloadVideo _ _ => Thrown "connection lost"
  | e' => answerWith [] n _ e'
  end.

Definition twoVideos : list VideoInfo :=
  [mkVideoInfo 11 "Episode 1"; mkVideoInfo 12 "Episode 2"].






End Observation.

(** ** The entries of [activeRequests] *)

Module PoolNotions.
Import Handler.

(** Every entry of the map belongs to a request in flight. *)
Definition Owned (sys : System) : Prop :=
  ∀ chatId, is_Some (activeRequests sys !! chatId) →
    ∃ i r, requests sys !! i = Some r ∧ chat r = chatId ∧ inFlight r.

End PoolNotions.

(** ** The temporary directory ([cleanTempDirectory])

    The directory of the downloads, [./temp], also holds the directory of the
    cache.  An entry is a name with what [stat.isFile()] answers for it. *)

Module TempDir.

Definition Entry : Type := string * bool.

Record Faults := mkFaults {
  readdirFails : bool;
  statFails : string → bool;
  unlinkFails : string → bool
}.

Definition noFaults : Faults := mkFaults false (λ _, false) (λ _, false).

(** The loop over the listing: what is left of the listed entries.  A call
    that throws ends the loop, the [catch] logs. *)
Fixpoint cleanLoop (F : Faults) (files : list Entry) : list Entry :=
  match files with
  | [] => []
  | (file, isFile) :: rest =>
      if statFails F file then files
      else if isFile then
        if unlinkFails F file then files else cleanLoop F rest
      else (file, isFile) :: cleanLoop F rest
  end.

(** [None]: the directory does not exist. *)
Definition cleanTempDirectory (F : Faults) (dir : option (list Entry))
    : option (list Entry) :=
  match dir with
  | None => None
  | Some files => if readdirFails F then Some files else Some (cleanLoop F files)
  end.

End TempDir.

Module TelegramScenarios.
Import Telegram.

(** A group as Telegram lists it: the second episode, a comment, the first
    episode. *)
Definition smallGroup : list Message :=
  [ mkMessage 7 1700000300 (Some "Episode 2") true true (Some 702) true;
    mkMessage 6 1700000200 (Some "Enjoy!") true false None false;
    mkMessage 5 1700000100 None true true (Some 501) true ].

End TelegramScenarios.

(** ** The handler with its cache manager

    [deliver] runs a computation of the handler as [play] does, the calls on
    the cache manager being those of [Cache] on the manager's state and
    disk.  The other collaborators are an oracle: the answers of the
    Telegram service, of the WhatsApp client and of the database, the size
    of the file that a download writes (if it writes one), what
    [cleanTempDirectory] leaves of the files outside the cache, the clock,
    and the calls on the disk that throw. *)

Module Delivery.
Import Handler Observation.

Record Oracle := mkOracle {
  answers : Answers;
  written : nat → option Z;
  sweep : nat → gmap string Z → gmap string Z;
  clock : nat → Z;
  faults : Cache.Faults
}.

(** The number of calls answered so far, the map, the cache. *)
Record Running := mkRunning {
  callsMade : nat;
  active : Active;
  cache : Cache.State
}.

Definition next (c : Running) (st : Cache.State) : Running :=
  mkRunning (S (callsMade c)) (active c) st.

Definition withFiles (st : Cache.State) (files : gmap string Z) : Cache.State :=
  (st.1, Cache.withOutside st.2 files).

Definition respond (o : Oracle) {X} (e : Event X) (c : Running) : X * Running :=
  let n := callsMade c in
  let st := cache c in
  match e in Event X return X * Running with
  | ActiveHas chatId =>
      (bool_decide (is_Some (active c !! chatId)), c)
  | ActiveSet chatId code =>
      (tt, mkRunning n (<[chatId := code]> (active c)) st)
  | ActiveDelete chatId =>
      (bool_decide (is_Some (active c !! chatId)),
       mkRunning n (delete chatId (active c)) st)
  | IsSeriesCached code videoIds =>
      (Cache.isSeriesCached st code videoIds, next c st)
  | GetCachedVideo code videoId =>
      ((Cache.getCachedVideo (faults o) (clock o n) code videoId st).1,
       next c (Cache.getCachedVideo (faults o) (clock o n) code videoId st).2)
  | CacheVideo code videoId filePath =>
      ((Cache.cacheVideo (faults o) (clock o n) code videoId filePath st).1,
       next c (Cache.cacheVideo (faults o) (clock o n) code videoId filePath st).2)
  | DownloadVideo video dir =>
      match answers o n _ (DownloadVideo video dir) with
      | Returned filePath =>
          (Returned filePath,
           next c (match written o n with
                   | Some sz => withFiles st (<[filePath := sz]> (Cache.outside st.2))
                   | None => st
                   end))
      | Thrown err => (Thrown err, next c st)
      end
  | FsExistsSync path =>
      (bool_decide (is_Some (Cache.outside st.2 !! path)), next c st)
  | FsUnlinkSync path =>
      match answers o n _ (FsUnlinkSync path) with
      | Returned u => (Returned u, next c (withFiles st (delete path (Cache.outside st.2))))
      | Thrown err => (Thrown err, next c st)
      end
  | CleanTempDirectory dirPath =>
      (tt, next c (withFiles st (sweep o n (Cache.outside st.2))))
  | MediaFromFilePath filePath =>
      (answers o n _ (MediaFromFilePath filePath), next c st)
  | MessageReply text => (answers o n _ (MessageReply text), next c st)
  | ClientSendText chatId text => (answers o n _ (ClientSendText chatId text), next c st)
  | ClientSendMedia chatId media videoNumber total caption =>
      (answers o n _ (ClientSendMedia chatId media videoNumber total caption), next c st)
  | FetchVideosFromGroup groupUsername =>
      (answers o n _ (FetchVideosFromGroup groupUsername), next c st)
  | UpdateUserRequest chatId code =>
      (answers o n _ (UpdateUserRequest chatId code), next c st)
  | Sleep ms => (answers o n _ (Sleep ms), next c st)
  end.

Fixpoint deliver (o : Oracle) {R} (t : Task R) (c : Running) : R * list Call * Running :=
  match t with
  | Ret r => (r, [], c)
  | Vis e k =>
      let '(r, calls, c') := deliver o (k (respond o e c).1) (respond o e c).2 in
      (r, MkCall e :: calls, c')
  end.

(** [wp o t Q seen c]: the run of [t] from [c], after the calls [seen], ends
    with a result, calls and a state that satisfy [Q]. *)
Fixpoint wp (o : Oracle) {R} (t : Task R) (Q : R → list Call → Running → Prop)
    (seen : list Call) (c : Running) : Prop :=
  match t with
  | Ret r => Q r seen c
  | Vis e k => wp o (k (respond o e c).1) Q (seen ++ [MkCall e]) (respond o e c).2
  end.

(** The videos of the list are in the cache, under the series. *)
Definition allCached (code : string) (videos : list VideoInfo) (c : Running) : Prop :=
  ∀ video, video ∈ videos → Cache.isCached (cache c) code (videoIdOf video) = true.

(** A download, or an insert into the cache. *)
Definition fetches (call : Call) : bool :=
  match call with
  | MkCall e =>
      match e with
      | DownloadVideo _ _ => true
      | CacheVideo _ _ _ => true
      | _ => false
      end
  end.

(** Nothing throws, every download writes its file. *)
Definition reliable (o : Oracle) : Prop :=
  (∀ n X (e : Event X), succeeds X e (answers o n X e)) ∧
  (∀ n, is_Some (written o n)) ∧
  faults o = Cache.noFaults.

(** Telegram lists [videos] for every group; a download writes a file of
    4 bytes under [./temp]. *)
Definition steady (videos : list VideoInfo) : Oracle :=
  mkOracle (answerWith videos) (λ _, Some 4) (λ _ files, files) (λ n, Z.of_nat n)
           Cache.noFaults.

Definition idle : Running :=
  mkRunning 0 ∅ (CacheScenarios.emptyCache (10 * CacheScenarios.MiB) ∅).

(** The state after a first request for AB001 by the chat u1. *)
Definition warm : Running :=
  (deliver (steady twoVideos) (handleSeriesRequest seriesMapping "ab001" "u1") idle).2.

(** What is kept of the calls: the downloads and the inserts. *)
Definition fetchObs (call : Call) : list Call := if fetches call then [call] else [].

(** The answers of a cache that holds the videos [cached] of the series
    [code], and of a Telegram service that lists videos among these. *)
Definition hits (code : string) (cached : list VideoInfo) : Allowed := λ X e,
  match e in Event X return X → Prop with
  | GetCachedVideo code' videoId => λ x,
      code' = code → (∃ video, video ∈ cached ∧ videoId = videoIdOf video) → is_Some x
  | FetchVideosFromGroup _ => λ x, ∀ videos, x = Returned videos → videos ⊆ cached
  | _ => λ _, True
  end.

(** An invariant of the run. *)
Definition stable (o : Oracle) (I : Running → Prop) : Prop :=
  ∀ X (e : Event X) c, I c → I (respond o e c).2.

End Delivery.
(** ** Facts about lists *)

Lemma filter_all {A} (P : A → Prop) `{∀ x, Decision (P x)} (l : list A) :
  (∀ x, x ∈ l → P x) → filter P l = l.
Proof.
  induction l as [|x l IH]; intros HP; [done|].
  rewrite filter_cons_True by (apply HP, list_elem_of_here).
  f_equal. apply IH. intros y Hy. by apply HP, list_elem_of_further.
Qed.

Lemma filter_none {A} (P : A → Prop) `{∀ x, Decision (P x)} (l : list A) :
  (∀ x, x ∈ l → ¬ P x) → filter P l = [].
Proof.
  induction l as [|x l IH]; intros HP; [done|].
  rewrite filter_cons_False by (apply HP, list_elem_of_here).
  apply IH. intros y Hy. by apply HP, list_elem_of_further.
Qed.

Lemma filter_fmap {A B} (f : A → B) (P : B → Prop) `{∀ y, Decision (P y)} (l : list A) :
  filter P (f <$> l) = f <$> filter (λ x, P (f x)) l.
Proof.
  induction l as [|x l IH]; [done|].
  cbn [fmap list_fmap]. rewrite !filter_cons.
  destruct (decide (P (f x))); cbn [fmap list_fmap]; by rewrite <- IH.
Qed.

(** ** Facts about JavaScript objects *)

Section JSObjectFacts.
Context {V : Type}.
Implicit Types (o : list (string * V)) (k : string) (v : V).

Lemma jsGet_Some_elem k v o : jsGet k o = Some v → (k, v) ∈ o.
Proof.
  induction o as [|[k' v'] o IH]; simpl; [done|].
  case_decide; intros Hg.
  - simplify_eq. apply list_elem_of_here.
  - apply list_elem_of_further. auto.
Qed.

Lemma jsGet_None k o : jsGet k o = None ↔ k ∉ jsKeys o.
Proof.
  unfold jsKeys. induction o as [|[k' v'] o IH]; simpl.
  - split; [intros _; apply not_elem_of_nil | done].
  - case_decide; subst.
    + split; [done | intros Hn; exfalso; apply Hn; apply list_elem_of_here].
    + rewrite IH, not_elem_of_cons. tauto.
Qed.

Lemma jsGet_elem k v o : NoDup (jsKeys o) → (k, v) ∈ o → jsGet k o = Some v.
Proof.
  unfold jsKeys. induction o as [|[k' v'] o IH]; simpl.
  - intros _ H. by apply elem_of_nil in H.
  - rewrite NoDup_cons. intros [Hk Hnd] Hin.
    apply elem_of_cons in Hin as [Heq|Hin].
    + simplify_eq. by rewrite decide_True.
    + case_decide; [|by apply IH]. subst.
      exfalso. apply Hk. apply list_elem_of_fmap. by exists (k', v).
Qed.

Lemma jsGet_jsSet_eq k v o : jsGet k (jsSet k v o) = Some v.
Proof.
  induction o as [|[k' v'] o IH]; simpl.
  - by rewrite decide_True.
  - case_decide; simpl; [by rewrite decide_True | by rewrite decide_False].
Qed.

Lemma jsGet_jsSet_ne k k' v o : k ≠ k' → jsGet k' (jsSet k v o) = jsGet k' o.
Proof.
  intros Hne. induction o as [|[k0 v0] o IH]; simpl.
  - by rewrite decide_False.
  - case_decide; simpl; subst.
    + by rewrite !decide_False.
    + case_decide; [done | apply IH].
Qed.

Lemma jsGet_jsDelete_eq k o : jsGet k (jsDelete k o) = None.
Proof.
  induction o as [|[k' v'] o IH]; simpl; [done|].
  case_decide; simpl; [done | by rewrite decide_False].
Qed.

Lemma jsGet_jsDelete_ne k k' o : k ≠ k' → jsGet k' (jsDelete k o) = jsGet k' o.
Proof.
  intros Hne. induction o as [|[k0 v0] o IH]; simpl; [done|].
  case_decide; simpl; subst.
  - by rewrite decide_False.
  - case_decide; [done | apply IH].
Qed.

Lemma jsDelete_elem k kv o : kv ∈ jsDelete k o ↔ kv ∈ o ∧ kv.1 ≠ k.
Proof.
  induction o as [|[k' v'] o IH]; simpl.
  - split; [intros H; by apply elem_of_nil in H | intros [H _]; by apply elem_of_nil in H].
  - case_decide; subst.
    + rewrite IH, elem_of_cons. split; [intros [Hin Hne]; by split; [right|]|].
      intros [[->|Hin] Hne]; [done | by split].
    + rewrite !elem_of_cons, IH. split.
      * intros [->|[Hin Hne]]; [split; [by left|simpl; congruence] | split; [by right|done]].
      * intros [[->|Hin] Hne]; [by left | by right].
Qed.

Lemma jsDelete_absent k o : k ∉ jsKeys o → jsDelete k o = o.
Proof.
  unfold jsKeys. induction o as [|[k' v'] o IH]; simpl; [done|].
  rewrite not_elem_of_cons. intros [Hne Hnin].
  rewrite decide_False by done. f_equal. by apply IH.
Qed.

Lemma jsKeys_jsDelete k o : jsKeys (jsDelete k o) = filter (λ k', k' ≠ k) (jsKeys o).
Proof.
  unfold jsKeys. induction o as [|[k' v'] o IH]; [done|].
  cbn [jsDelete fmap list_fmap fst]. rewrite filter_cons.
  destruct (decide (k = k')) as [->|Hne].
  - rewrite decide_False by (by intros ?). apply IH.
  - rewrite decide_True by congruence. cbn [fmap list_fmap fst]. f_equal. apply IH.
Qed.

Lemma jsDelete_NoDup k o : NoDup (jsKeys o) → NoDup (jsKeys (jsDelete k o)).
Proof. intros H. rewrite jsKeys_jsDelete. by apply NoDup_filter. Qed.

Lemma jsKeys_jsSet_in k v o : k ∈ jsKeys o → jsKeys (jsSet k v o) = jsKeys o.
Proof.
  unfold jsKeys. induction o as [|[k' v'] o IH]; simpl.
  - intros H. by apply elem_of_nil in H.
  - intros Hin. case_decide; subst; simpl; [done|].
    apply elem_of_cons in Hin as [?|Hin]; [done|]. f_equal. by apply IH.
Qed.

Lemma jsKeys_jsSet_notin k v o : k ∉ jsKeys o → jsKeys (jsSet k v o) = jsKeys o ++ [k].
Proof.
  unfold jsKeys. induction o as [|[k' v'] o IH]; simpl; [done|].
  rewrite not_elem_of_cons. intros [Hne Hnin].
  rewrite decide_False by done. simpl. f_equal. by apply IH.
Qed.

Lemma jsSet_NoDup k v o : NoDup (jsKeys o) → NoDup (jsKeys (jsSet k v o)).
Proof.
  intros Hnd. destruct (decide (k ∈ jsKeys o)) as [Hin|Hnin].
  - by rewrite jsKeys_jsSet_in.
  - rewrite jsKeys_jsSet_notin by done.
    apply NoDup_app. split_and!; [done| |apply NoDup_singleton].
    intros x Hx Hx'. apply list_elem_of_singleton in Hx'. by subst.
Qed.

End JSObjectFacts.

(** ** Facts about the stable sort *)

Section StableSortFacts.
Context {A : Type} (key : A → Z).
Implicit Types (x : A) (l : list A).

Lemma insertBy_Permutation x l : insertBy key x l ≡ₚ x :: l.
Proof.
  induction l as [|y l IH]; simpl; [done|].
  case_bool_decide; [done|]. rewrite IH. apply Permutation_swap.
Qed.

Lemma sortBy_Permutation l : sortBy key l ≡ₚ l.
Proof.
  induction l as [|x l IH]; simpl; [done|].
  rewrite insertBy_Permutation. by rewrite IH.
Qed.

Lemma insertBy_elem x y l : y ∈ insertBy key x l ↔ y = x ∨ y ∈ l.
Proof. rewrite insertBy_Permutation. apply elem_of_cons. Qed.

Lemma insertBy_sorted x l :
  StronglySorted (λ a b, key a ≤ key b) l →
  StronglySorted (λ a b, key a ≤ key b) (insertBy key x l).
Proof.
  induction 1 as [|y l Hl IH Hy]; simpl.
  - repeat constructor.
  - case_bool_decide as Hxy.
    + constructor; [by constructor|].
      constructor; [done|]. eapply Forall_impl; [exact Hy|]. simpl. intros z Hz. lia.
    + constructor; [done|].
      apply Forall_forall. intros z Hz. apply insertBy_elem in Hz as [->|Hz]; [lia|].
      by eapply Forall_forall in Hy.
Qed.

(** The result ascends in [key]. *)
Lemma sortBy_sorted l : StronglySorted (λ a b, key a ≤ key b) (sortBy key l).
Proof.
  induction l as [|x l IH]; simpl; [constructor|]. by apply insertBy_sorted.
Qed.

Lemma insertBy_filter x l (z : Z) :
  filter (λ a, key a = z) (insertBy key x l) = filter (λ a, key a = z) (x :: l).
Proof.
  induction l as [|y l IH]; simpl; [done|].
  case_bool_decide as Hxy; [done|].
  rewrite filter_cons, IH, !filter_cons.
  repeat case_decide; try done; lia.
Qed.

(** Elements of equal key keep the order they had. *)
Lemma sortBy_stable l (z : Z) :
  filter (λ a, key a = z) (sortBy key l) = filter (λ a, key a = z) l.
Proof.
  induction l as [|x l IH]; simpl; [done|].
  rewrite insertBy_filter, !filter_cons, IH. done.
Qed.

Lemma sortBy_length l : length (sortBy key l) = length l.
Proof. by rewrite sortBy_Permutation. Qed.

End StableSortFacts.

(** ** The delivery coordinator keeps to the locking discipline *)

Module HandlerProofs.
Import Handler Protocol HandlerScenarios.

Section Discipline.
Context (chatId : string).

Lemma follows_mono {R} (t : Task R) (Q Q' : R → Phase → Prop) p :
  (∀ r p', Q r p' → Q' r p') → follows chatId t Q p → follows chatId t Q' p.
Proof.
  intros HQ. revert p. induction t as [r|X e k IH]; intros p; simpl; [apply HQ|].
  destruct e; simpl; try (intros Hk x; apply IH, Hk).
  - intros [-> Hp]. split; [done|]. destruct p; naive_solver.
  - intros (-> & -> & Hk). naive_solver.
  - intros [-> Hp]. split; [done|]. destruct p; naive_solver.
Qed.

Lemma eventRule_other {X} (e : Event X) p (K : X → Phase → Prop) :
  isMapEvent e = false →
  eventRule chatId e p K ↔ ∀ x, K x (if suspends e then afterAwait p else p).
Proof. destruct e; simpl; intros He; done. Qed.

Lemma follows_bind {A B} (t : Async A) (f : A → Async B) Q p :
  follows chatId t
    (λ o p', match o with
             | Returned a => follows chatId (f a) Q p'
             | Thrown err => Q (Thrown err) p'
             end) p →
  follows chatId (bind t f) Q p.
Proof.
  revert p. induction t as [[a|err]|X e k IH]; intros p; simpl; [done..|].
  destruct e; simpl; try (intros Hk x; apply IH, Hk).
  - intros [-> Hp]. split; [done|]. destruct p; naive_solver.
  - intros (-> & -> & Hk). naive_solver.
  - intros [-> Hp]. split; [done|]. destruct p; naive_solver.
Qed.

Lemma follows_tryCatch {A} (t : Async A) (h : Error → Async A) Q p :
  follows chatId t
    (λ o p', match o with
             | Returned a => Q (Returned a) p'
             | Thrown err => follows chatId (h err) Q p'
             end) p →
  follows chatId (tryCatch t h) Q p.
Proof.
  revert p. induction t as [[a|err]|X e k IH]; intros p; simpl; [done..|].
  destruct e; simpl; try (intros Hk x; apply IH, Hk).
  - intros [-> Hp]. split; [done|]. destruct p; naive_solver.
  - intros (-> & -> & Hk). naive_solver.
  - intros [-> Hp]. split; [done|]. destruct p; naive_solver.
Qed.

Lemma follows_tryFinally {A} (t : Async A) (fin : Async unit) Q p :
  follows chatId t
    (λ o p', follows chatId fin
               (λ o' p'', match o' with
                          | Returned _ => Q o p''
                          | Thrown err => Q (Thrown err) p''
                          end) p') p →
  follows chatId (tryFinally t fin) Q p.
Proof.
  revert p. induction t as [o|X e k IH]; intros p; simpl.
  - intros Hfin. apply follows_bind. eapply follows_mono; [|exact Hfin].
    intros [[]|err] p'; done.
  - destruct e; simpl; try (intros Hk x; apply IH, Hk).
    + intros [-> Hp]. split; [done|]. destruct p; naive_solver.
    + intros (-> & -> & Hk). naive_solver.
    + intros [-> Hp]. split; [done|]. destruct p; naive_solver.
Qed.

Lemma follows_call {X} (e : Event X) Q p :
  isMapEvent e = false →
  (∀ x, Q (Returned x) (if suspends e then afterAwait p else p)) →
  follows chatId (call e) Q p.
Proof. intros He HQ. simpl. apply eventRule_other; done. Qed.

Lemma follows_attempt {X} (e : Event (Outcome X)) Q p :
  isMapEvent e = false →
  (∀ o, Q o (if suspends e then afterAwait p else p)) →
  follows chatId (attempt e) Q p.
Proof. intros He HQ. simpl. apply eventRule_other; done. Qed.

(** A computation that does not touch the map leaves a holder holding. *)
Lemma quiet_follows {R} (t : Task R) p :
  afterAwait p = p → quiet t → follows chatId t (λ _ p', p' = p) p.
Proof.
  intros Hp. induction t as [r|X e k IH]; simpl; [done|].
  intros [He Hk]. apply eventRule_other; [done|].
  intros x. rewrite Hp. destruct (suspends e); apply IH, Hk.
Qed.

End Discipline.

Lemma quiet_bind {A B} (t : Async A) (f : A → Async B) :
  quiet t → (∀ a, quiet (f a)) → quiet (bind t f).
Proof.
  intros Ht Hf. induction t as [[a|err]|X e k IH]; simpl; [apply Hf|done|].
  destruct Ht as [He Hk]. split; [done|]. intros x. apply IH, Hk.
Qed.

Lemma quiet_tryCatch {A} (t : Async A) (h : Error → Async A) :
  quiet t → (∀ err, quiet (h err)) → quiet (tryCatch t h).
Proof.
  intros Ht Hh. induction t as [[a|err]|X e k IH]; simpl; [done|apply Hh|].
  destruct Ht as [He Hk]. split; [done|]. intros x. apply IH, Hk.
Qed.

Lemma quiet_call {X} (e : Event X) : isMapEvent e = false → quiet (call e).
Proof. intros He. simpl. done. Qed.

Lemma quiet_attempt {X} (e : Event (Outcome X)) : isMapEvent e = false → quiet (attempt e).
Proof. intros He. simpl. done. Qed.

Lemma quiet_ret {A} (a : A) : quiet (ret a).
Proof. done. Qed.

Ltac quiet_step :=
  first
    [ apply quiet_ret
    | apply quiet_call; reflexivity
    | apply quiet_attempt; reflexivity
    | apply quiet_bind; [|intros ?]
    | apply quiet_tryCatch; [|intros ?] ].

Lemma quiet_sendOne total i video chatId seriesCode :
  quiet (sendOne total i video chatId seriesCode).
Proof.
  unfold sendOne, mbind, async_bind.
  repeat quiet_step.
  - destruct a; repeat quiet_step.
  - destruct a; repeat quiet_step.
    match goal with |- quiet (if ?b then _ else _) => destruct b end; repeat quiet_step.
  - case_bool_decide; repeat quiet_step.
Qed.

Lemma quiet_sendLoop total i videos chatId seriesCode :
  quiet (sendLoop total i videos chatId seriesCode).
Proof.
  revert i. induction videos as [|video videos IH]; intros i; [done|].
  cbn [sendLoop]. unfold mbind, async_bind.
  apply quiet_bind; [|intros _; apply IH].
  apply quiet_tryCatch; [apply quiet_sendOne|].
  intros err. apply quiet_attempt. reflexivity.
Qed.

(** [sendVideosInOrder] makes no call on [activeRequests]. *)
Lemma quiet_sendVideosInOrder videos chatId seriesCode :
  quiet (sendVideosInOrder videos chatId seriesCode).
Proof.
  unfold sendVideosInOrder, mbind, async_bind.
  apply quiet_bind; [apply quiet_sendLoop|]. intros _. apply quiet_call. reflexivity.
Qed.

Ltac follows_step :=
  lazymatch goal with
  | |- follows _ (bind _ _) _ _ => apply follows_bind
  | |- follows _ (tryCatch _ _) _ _ => apply follows_tryCatch
  | |- follows _ (attempt _) _ _ =>
      apply follows_attempt; [reflexivity | intros [?|?]; cbn [suspends afterAwait]]
  | |- follows _ (call _) _ _ =>
      apply follows_call; [reflexivity | intros ?; cbn [suspends afterAwait]]
  end.

Section Request.
Context (mapping : gmap string string).

(** From a free entry, the [try] block with its [catch] ends holding the
    entry, or having just deleted it (the series without videos). *)
Lemma processRequest_follows code chatId :
  follows chatId
    (tryCatch (processRequest mapping code chatId)
              (λ _, attempt (MessageReply ErrorOccurred)))
    (λ _ p, p = Holding ∨ p = JustReleased) SawFree.
Proof.
  unfold processRequest, mbind, async_bind.
  apply follows_tryCatch, follows_bind.
  cbn [call follows eventRule]. split_and!; [done..|].
  destruct (getTelegramGroup mapping code) as [groupUsername|]; cbn [throw follows].
  2: { follows_step; by left. }
  follows_step; follows_step; [|follows_step; by left].
  follows_step; follows_step; [|follows_step; by left].
  case_bool_decide.
  - follows_step; follows_step; [|follows_step; by left].
    follows_step. cbn [call follows eventRule]. split; [done|].
    cbn. by right.
  - follows_step; follows_step.
    follows_step; follows_step; [|follows_step; by left].
    follows_step.
    eapply follows_mono; [|apply quiet_follows; [done|apply quiet_sendVideosInOrder]].
    intros [[]|err] p' ->; [|follows_step; by left].
    follows_step; follows_step; [|follows_step; by left].
    follows_step; [by left|follows_step; by left].
Qed.


(** The [try]/[catch]/[finally] statement, entered on a free entry, ends with
    the entry deleted in the same turn. *)
Lemma guarded_follows code chatId :
  follows chatId
    (tryFinally (tryCatch (processRequest mapping code chatId)
                          (λ _, attempt (MessageReply ErrorOccurred)))
                (finallyRelease chatId))
    (λ _ p, p = JustReleased) SawFree.
Proof.
  apply follows_tryFinally.
  eapply follows_mono; [|apply processRequest_follows].
  intros o p [-> | ->]; cbn; (split; [done|]); by destruct o.
Qed.

Lemma handleSeriesRequest_free seriesCode chatId :
  isValidSeries mapping (toUpperCase seriesCode) = true →
  follows chatId (handleSeriesRequest mapping seriesCode chatId)
    (λ _ p, p = JustReleased) SawFree.
Proof.
  intros Hvalid. unfold handleSeriesRequest, mbind, async_bind.
  cbn [call bind follows eventRule]. split; [done|].
  rewrite Hvalid. cbn [negb]. apply guarded_follows.
Qed.

Lemma handleSeriesRequest_follows seriesCode chatId :
  follows chatId (handleSeriesRequest mapping seriesCode chatId)
    (λ _ p, p = Outside ∨ p = JustReleased) Outside.
Proof.
  unfold handleSeriesRequest, mbind, async_bind.
  cbn [call bind follows eventRule]. split_and!; [done| |].
  - follows_step; by left.
  - destruct (isValidSeries mapping (toUpperCase seriesCode)); cbn [negb].
    + eapply follows_mono; [|apply guarded_follows]. intros _ p ->. by right.
    + follows_step; by left.
Qed.

End Request.

(** *** Counting the events of a log *)

Lemma acquisitions_app chatId log evs :
  acquisitions chatId (log ++ evs) = (acquisitions chatId log + acquisitions chatId evs)%nat.
Proof. unfold acquisitions. by rewrite List.filter_app, length_app. Qed.

Lemma releases_app chatId log evs :
  releases chatId (log ++ evs) = (releases chatId log + releases chatId evs)%nat.
Proof. unfold releases. by rewrite List.filter_app, length_app. Qed.

(** *** The discipline is sound for the execution *)

Lemma Knows_afterAwait chatId p log active :
  Knows chatId p log active → Knows chatId (afterAwait p) log active.
Proof. destruct p; simpl; tauto. Qed.

Lemma exec_other {R X} through ans n (e : Event X) (k : X → Task R) log active :
  isMapEvent e = false →
  exec through ans n (Vis e k) log active =
    if suspends e && negb through then (Vis e k, log, active)
    else exec through ans (S n) (k (ans n _ e)) log active.
Proof. destruct e; simpl; intros He; done. Qed.

Lemma count_acquire chatId code :
  acquisitions chatId [Acquire chatId code] = 1%nat ∧
  releases chatId [Acquire chatId code] = 0%nat.
Proof. unfold acquisitions, releases. simpl. by rewrite bool_decide_true. Qed.

Lemma count_release chatId (existed : bool) :
  acquisitions chatId [Release chatId existed] = 0%nat ∧
  releases chatId [Release chatId existed] = (if existed then 1 else 0)%nat.
Proof.
  unfold acquisitions, releases. simpl. rewrite bool_decide_true by done.
  by destruct existed.
Qed.

Lemma exec_sound {R} chatId (Q : R → Phase → Prop) through ans (t : Task R) :
  ∀ n p log active t' log' active',
    follows chatId t Q p →
    Knows chatId p log active →
    exec through ans n t log active = (t', log', active') →
    ∃ p', follows chatId t' Q p' ∧
          Knows chatId p' log' active' ∧
          (∀ c, c ≠ chatId → active' !! c = active !! c) ∧
          (p = Outside ∨ p = Gone → is_Some (active !! chatId) →
           active' = active ∧ log' = log ∧ p' = p).
Proof.
  induction t as [r|X e k IH]; intros n p log active t' log' active' Hf Hk Hex.
  - simpl in Hex. simplify_eq. exists p. split_and!; auto.
  - destruct (isMapEvent e) eqn:He.
    + destruct e; try discriminate He; simpl in Hex, Hf.
      * (* has *)
        destruct Hf as [-> Hf]. rewrite app_nil_r in Hex.
        destruct (decide (is_Some (active !! chatId))) as [Hsome|Hnone].
        -- rewrite bool_decide_true in Hex by done.
           destruct p; simpl in Hk;
             try (destruct Hk as [Hn _]; rewrite Hn in Hsome; by destruct Hsome).
           ++ destruct Hf as [Hf _].
              destruct (IH _ _ Outside _ _ _ _ _ Hf Hk Hex) as (p' & ? & ? & ? & Hsame).
              exists p'. split_and!; [done..|]. intros _ ?. by apply Hsame; [left|].
           ++ destruct (IH _ _ Holding _ _ _ _ _ Hf Hk Hex) as (p' & ? & ? & ? & Hsame).
              exists p'. split_and!; [done..|]. by intros [?|?].
           ++ destruct Hf as [Hf _].
              destruct (IH _ _ Gone _ _ _ _ _ Hf Hk Hex) as (p' & ? & ? & ? & Hsame).
              exists p'. split_and!; [done..|]. intros _ ?. by apply Hsame; [right|].
        -- rewrite bool_decide_false in Hex by done.
           assert (active !! chatId = None) as Hn by by apply eq_None_not_Some.
           destruct p; simpl in Hk; try (by destruct Hk as [Hs _]).
           ++ destruct Hf as [_ Hf].
              destruct (IH _ _ SawFree _ _ _ _ _ Hf (conj Hn Hk) Hex)
                as (p' & ? & ? & ? & Hsame).
              exists p'. split_and!; done.
           ++ destruct (IH _ _ SawFree _ _ _ _ _ Hf Hk Hex) as (p' & ? & ? & ? & Hsame).
              exists p'. split_and!; [done..|]. by intros [?|?].
           ++ destruct (IH _ _ JustReleased _ _ _ _ _ Hf Hk Hex)
                as (p' & ? & ? & ? & Hsame).
              exists p'. split_and!; [done..|]. by intros [?|?].
           ++ destruct Hf as [_ Hf].
              destruct (IH _ _ Gone _ _ _ _ _ Hf Hk Hex) as (p' & ? & ? & ? & Hsame).
              exists p'. split_and!; done.
      * (* set *)
        destruct Hf as (-> & -> & Hf). simpl in Hk. destruct Hk as (Hn & Ha & Hr).
        destruct (count_acquire chatId code) as [Ha1 Hr1].
        assert (Knows chatId Holding (log ++ [Acquire chatId code])
                  (<[chatId := code]> active)) as Hk'.
        { simpl. rewrite lookup_insert_eq, acquisitions_app, releases_app.
          split_and!; [by eexists|lia..]. }
        destruct (IH _ _ _ _ _ _ _ _ Hf Hk' Hex) as (p' & ? & ? & Hframe & _).
        exists p'. split_and!; [done..| |by intros [?|?]].
        intros c Hc. rewrite Hframe by done. by apply lookup_insert_ne.
      * (* delete *)
        destruct Hf as [-> Hf].
        destruct (count_release chatId false) as [Ha0 Hr0].
        destruct (count_release chatId true) as [Ha1 Hr1].
        assert (∀ c, c ≠ chatId → delete chatId active !! c = active !! c) as Hdel
          by (intros c Hc; by apply lookup_delete_ne).
        destruct p; simpl in Hk; try done.
        -- destruct Hk as (Hn & Ha & Hr).
           rewrite bool_decide_false in Hex by (rewrite Hn; by intros [? ?]).
           assert (Knows chatId SawFree (log ++ [Release chatId false])
                     (delete chatId active)) as Hk'.
           { simpl. rewrite lookup_delete_eq, acquisitions_app, releases_app.
             split_and!; [done|lia..]. }
           destruct (IH _ _ _ _ _ _ _ _ Hf Hk' Hex) as (p' & ? & ? & Hframe & _).
           exists p'. split_and!; [done..| |by intros [?|?]].
           intros c Hc. rewrite Hframe by done. by apply Hdel.
        -- destruct Hk as (Hs & Ha & Hr).
           rewrite bool_decide_true in Hex by done.
           assert (Knows chatId JustReleased (log ++ [Release chatId true])
                     (delete chatId active)) as Hk'.
           { simpl. rewrite lookup_delete_eq, acquisitions_app, releases_app.
             split_and!; [done|lia..]. }
           destruct (IH _ _ _ _ _ _ _ _ Hf Hk' Hex) as (p' & ? & ? & Hframe & _).
           exists p'. split_and!; [done..| |by intros [?|?]].
           intros c Hc. rewrite Hframe by done. by apply Hdel.
        -- destruct Hk as (Hn & Ha & Hr).
           rewrite bool_decide_false in Hex by (rewrite Hn; by intros [? ?]).
           assert (Knows chatId JustReleased (log ++ [Release chatId false])
                     (delete chatId active)) as Hk'.
           { simpl. rewrite lookup_delete_eq, acquisitions_app, releases_app.
             split_and!; [done|lia..]. }
           destruct (IH _ _ _ _ _ _ _ _ Hf Hk' Hex) as (p' & ? & ? & Hframe & _).
           exists p'. split_and!; [done..| |by intros [?|?]].
           intros c Hc. rewrite Hframe by done. by apply Hdel.
    + rewrite exec_other in Hex by done.
      simpl in Hf. pose proof (proj1 (eventRule_other chatId e p _ He) Hf) as Hf'.
      destruct (suspends e) eqn:Hs; simpl in Hex.
      * destruct through; simpl in Hex.
        -- specialize (Hf' (ans n _ e)).
           destruct (IH _ _ _ _ _ _ _ _ Hf' (Knows_afterAwait _ _ _ _ Hk) Hex)
             as (p' & ? & ? & ? & Hsame).
           exists p'. split_and!; [done..|].
           intros Hp Hsome.
           destruct Hsame as (? & ? & ?); [by destruct Hp as [-> | ->]; [left|right]|done|].
           split_and!; [done..|]. by destruct Hp as [-> | ->].
        -- simplify_eq. exists p. split_and!; auto.
      * specialize (Hf' (ans n _ e)).
        destruct (IH _ _ _ _ _ _ _ _ Hf' Hk Hex) as (p' & ? & ? & ? & Hsame).
        exists p'. split_and!; done.
Qed.

(** A run to the end ends. *)
Lemma run_returns {R} ans (t : Task R) :
  ∀ n log active, ∃ r log' active', run ans n t log active = (Ret r, log', active').
Proof.
  unfold run. induction t as [r|X e k IH]; intros n log active; simpl; [by eauto|].
  destruct (mapEvent e active) as [[[x active'] evs]|]; [apply IH|].
  rewrite andb_false_r. apply IH.
Qed.


Lemma advance_suspended {R} ans (t : Task R) :
  ∀ n log active t' log' active',
    advance ans n t log active = (t', log', active') → suspended t'.
Proof.
  unfold advance. induction t as [r|X e k IH]; intros n log active t' log' active'; simpl.
  - intros. by simplify_eq.
  - destruct (mapEvent e active) as [[[x a'] evs]|]; [apply IH|].
    rewrite andb_true_r. destruct (suspends e) eqn:Hs; [|apply IH].
    intros. by simplify_eq.
Qed.

Lemma suspends_not_map {X} (e : Event X) : suspends e = true → isMapEvent e = false.
Proof. by destruct e. Qed.

Lemma afterAwait_idemp p : afterAwait (afterAwait p) = afterAwait p.
Proof. by destruct p. Qed.

Lemma follows_suspended {R} chatId (t : Task R) (Q : R → Phase → Prop) p :
  suspended t → (∀ r p', Q r p' → Q r (afterAwait p')) →
  follows chatId t Q p → follows chatId t Q (afterAwait p).
Proof.
  destruct t as [r|X e k]; simpl; intros Hs HQ Hf; [by apply HQ|].
  pose proof (suspends_not_map e Hs) as He.
  apply eventRule_other; [done|]. intros x.
  pose proof (proj1 (eventRule_other chatId e p _ He) Hf x) as Hx.
  rewrite Hs in Hx |- *. by rewrite afterAwait_idemp.
Qed.

Lemma follows_resume {R X} chatId (e : Event X) (k : X → Task R) Q p x :
  suspends e = true → afterAwait p = p →
  follows chatId (Vis e k) Q p → follows chatId (k x) Q p.
Proof.
  intros Hs Hp Hf. simpl in Hf.
  pose proof (proj1 (eventRule_other chatId e p _ (suspends_not_map e Hs)) Hf x) as Hx.
  by rewrite Hs, Hp in Hx.
Qed.

Lemma released_afterAwait {A} (r : A) p : released r p → released r (afterAwait p).
Proof. unfold released. by destruct p. Qed.

Lemma inFlight_Holding chatId p log active :
  Knows chatId p log active →
  (releases chatId log < acquisitions chatId log)%nat ↔ p = Holding.
Proof. destruct p; simpl; intros Hk; split; intros H; try done; lia. Qed.

(** One turn of a request that keeps to the discipline. *)
Lemma turn_sound chatId ans n (t : Async unit) p log active t' log' active' :
  follows chatId t released p →
  Knows chatId p log active →
  advance ans n t log active = (t', log', active') →
  ∃ p', afterAwait p' = p' ∧
        follows chatId t' released p' ∧
        Knows chatId p' log' active' ∧
        (∀ c, c ≠ chatId → active' !! c = active !! c) ∧
        (p = Outside ∨ p = Gone → is_Some (active !! chatId) →
         active' = active ∧ p' ≠ Holding).
Proof.
  intros Hf Hk Hex.
  destruct (exec_sound chatId released false ans t _ _ _ _ _ _ _ Hf Hk Hex)
    as (p' & Hf' & Hk' & Hframe & Hsame).
  exists (afterAwait p'). split_and!.
  - apply afterAwait_idemp.
  - apply follows_suspended; [by eapply advance_suspended| |done].
    intros r p0. apply released_afterAwait.
  - by apply Knows_afterAwait.
  - done.
  - intros Hp Hsome. destruct (Hsame Hp Hsome) as (-> & -> & ->).
    split; [done|]. by destruct Hp as [-> | ->].
Qed.

Lemma stable_phase p : afterAwait p = p → p = Outside ∨ p = Holding ∨ p = Gone.
Proof. destruct p; simpl; intros; auto; discriminate. Qed.

(** Another request's knowledge survives the turn. *)
Lemma Knows_other c0 p0 log0 chatId p active active' :
  afterAwait p0 = p0 →
  Knows c0 p0 log0 active →
  (∀ c, c ≠ chatId → active' !! c = active !! c) →
  (p = Outside ∨ p = Gone → is_Some (active !! chatId) → active' = active) →
  (c0 = chatId → p0 = Holding → p = Outside ∨ p = Gone) →
  Knows c0 p0 log0 active'.
Proof.
  intros Hst Hk Hframe Hsame Hex.
  destruct (stable_phase _ Hst) as [-> | [-> | ->]]; simpl in *; [done| |done].
  destruct Hk as (Hs & ? & ?). split_and!; [|done..].
  destruct (decide (c0 = chatId)) as [->|Hne].
  - rewrite Hsame; auto.
  - by rewrite Hframe.
Qed.

Section Concurrent.
Context (mapping : gmap string string).

Lemma initial_inv : SystemInv initial.
Proof. split; simpl; intros *; by rewrite lookup_nil. Qed.

Lemma step_inv sys sys' : SystemInv sys → step mapping sys sys' → SystemInv sys'.
Proof.
  intros [Hreq Hexcl] Hstep.
  destruct Hstep as [sys seriesCode chatId ans t' log' active' Hadv
                    |sys i r X e k x ans t' log' active' Hi Hrest Hs Hadv].
  - (* a new request *)
    destruct (turn_sound chatId ans 0%nat (handleSeriesRequest mapping seriesCode chatId)
                Outside [] (activeRequests sys) t' log' active')
      as (p' & Hst' & Hf' & Hk' & Hframe & Hsame);
      [eapply follows_mono; [|apply handleSeriesRequest_follows];
       intros ? p0 [-> | ->]; done
      |done|done|].
    assert (∀ j rj, requests sys !! j = Some rj →
              ∃ pj, afterAwait pj = pj ∧ follows (chat rj) (rest rj) released pj ∧
                    Knows (chat rj) pj (history rj) active') as Hothers.
    { intros j rj Hj. destruct (Hreq j rj Hj) as (pj & Hstj & Hfj & Hkj).
      exists pj. split_and!; [done..|].
      eapply (Knows_other _ _ _ chatId Outside); [done..| |by left].
      intros _ Hsome. by apply Hsame; [left|]. }
    split; simpl.
    + intros j rj Hj. apply lookup_app_Some in Hj as [Hj|[_ Hj]]; [by eapply Hothers|].
      apply list_lookup_singleton_Some in Hj as [_ <-]. simpl. by exists p'.
    + assert (∀ j rj, requests sys !! j = Some rj → chat rj = chatId →
                inFlight rj → ¬ inFlight (mkRequest chatId log' t')) as Hnew.
      { intros j rj Hj Hc Hin Hin'. unfold inFlight in Hin, Hin'. simpl in Hin'.
        destruct (Hreq j rj Hj) as (pj & _ & _ & Hkj).
        apply (inFlight_Holding _ _ _ _ Hkj) in Hin as ->.
        apply (inFlight_Holding _ _ _ _ Hk') in Hin' as ->.
        simpl in Hkj. destruct Hkj as [Hsome _]. rewrite Hc in Hsome.
        by destruct Hsame as [_ ?]; [left|done|]. }
      intros j1 j2 r1 r2 H1 H2 Hc Hin1 Hin2.
      apply lookup_app_Some in H1 as [H1|[Hl1 H1]];
        apply lookup_app_Some in H2 as [H2|[Hl2 H2]].
      * by eapply Hexcl.
      * apply list_lookup_singleton_Some in H2 as [_ <-]. simpl in Hc.
        by destruct (Hnew j1 r1 H1 Hc Hin1).
      * apply list_lookup_singleton_Some in H1 as [_ <-]. simpl in Hc.
        by destruct (Hnew j2 r2 H2 (eq_sym Hc) Hin2).
      * apply list_lookup_singleton_Some in H1 as [? _].
        apply list_lookup_singleton_Some in H2 as [? _]. lia.
  - (* a suspended request goes on *)
    destruct (Hreq i r Hi) as (p & Hst & Hf & Hk). rewrite Hrest in Hf.
    pose proof (follows_resume _ e k _ p x Hs Hst Hf) as Hfx.
    destruct (turn_sound (chat r) ans 0%nat _ p _ _ t' log' active' Hfx Hk Hadv)
      as (p' & Hst' & Hf' & Hk' & Hframe & Hsame).
    assert (∀ j rj, j ≠ i → requests sys !! j = Some rj → chat rj = chat r →
              inFlight rj → (p = Outside ∨ p = Gone) ∧ is_Some (activeRequests sys !! chat r))
      as Hheld.
    { intros j rj Hji Hj Hc Hin.
      destruct (Hreq j rj Hj) as (pj & _ & _ & Hkj).
      pose proof Hin as Hin'. unfold inFlight in Hin'.
      apply (inFlight_Holding _ _ _ _ Hkj) in Hin' as ->.
      simpl in Hkj. destruct Hkj as [Hsome _]. rewrite Hc in Hsome. split; [|done].
      destruct (stable_phase _ Hst) as [-> | [-> | ->]]; [by left| |by right].
      exfalso. apply Hji. eapply (Hexcl j i rj r); [done..|].
      unfold inFlight. by apply (inFlight_Holding _ _ _ _ Hk). }
    split; simpl.
    + intros j rj Hj. apply list_lookup_insert_Some in Hj as [(-> & <- & _)|[Hji Hj]].
      * simpl. by exists p'.
      * destruct (Hreq j rj Hj) as (pj & Hstj & Hfj & Hkj).
        exists pj. split_and!; [done..|].
        eapply (Knows_other _ _ _ (chat r) p); [done..| |].
        -- intros Hp Hsome. by apply Hsame.
        -- intros Hc ->. eapply Hheld; [|done..|]; [by intros ->|].
           unfold inFlight. by apply (inFlight_Holding _ _ _ _ Hkj).
    + assert (∀ j rj, j ≠ i → requests sys !! j = Some rj → chat rj = chat r →
                inFlight rj → ¬ inFlight (mkRequest (chat r) log' t')) as Hnew.
      { intros j rj Hji Hj Hc Hin Hin'.
        destruct (Hheld j rj Hji Hj Hc Hin) as [Hp Hsome].
        unfold inFlight in Hin'. simpl in Hin'.
        apply (inFlight_Holding _ _ _ _ Hk') in Hin' as ->.
        by destruct (Hsame Hp Hsome) as [_ ?]. }
      intros j1 j2 r1 r2 H1 H2 Hc Hin1 Hin2.
      apply list_lookup_insert_Some in H1 as [(-> & <- & _)|[Hj1 H1]];
        apply list_lookup_insert_Some in H2 as [(Hij & <- & _)|[Hj2 H2]]; simpl in *.
      * done.
      * by destruct (Hnew j2 r2 (not_eq_sym Hj2) H2 (eq_sym Hc) Hin2).
      * by destruct (Hnew j1 r1 (not_eq_sym Hj1) H1 Hc Hin1).
      * by eapply Hexcl.
Qed.

Lemma reachable_inv sys : reachable mapping sys → SystemInv sys.
Proof.
  unfold reachable. intros Hr.
  apply (rtc_ind_r (R := step mapping) (λ s, SystemInv s) initial);
    [apply initial_inv| |done].
  intros sys1 sys2 _ Hstep IH. by eapply step_inv.
Qed.

End Concurrent.

(** *** The turns as functions are turns *)

Lemma startRequest_step mapping ans seriesCode chatId sys :
  step mapping sys (startRequest mapping ans seriesCode chatId sys).
Proof.
  unfold startRequest.
  destruct (advance ans 0%nat (handleSeriesRequest mapping seriesCode chatId) []
              (activeRequests sys)) as [[t' log'] active'] eqn:Hadv.
  by eapply step_request.
Qed.

Lemma resumeRequest_steps mapping ans i sys :
  rtc (step mapping) sys (resumeRequest ans i sys).
Proof.
  unfold resumeRequest.
  destruct (requests sys !! i) as [r|] eqn:Hi; [|done].
  destruct (rest r) as [o|X e k] eqn:Hrest; [done|].
  destruct (suspends e) eqn:Hs; [|done].
  destruct (advance _ _ _ _ _) as [[t' log'] active'] eqn:Hadv.
  apply rtc_once. by eapply step_resume.
Qed.

(** *** The properties of the coordinator *)

(** A request that finds the chat busy: one turn leaves the map as it is and
    the request with nothing to do but the reply. *)
Lemma advance_busy mapping ans seriesCode chatId active :
  is_Some (active !! chatId) →
  advance ans 0%nat (handleSeriesRequest mapping seriesCode chatId) [] active
  = (attempt (MessageReply PleaseWait), [], active).
Proof.
  intros Hbusy. unfold advance, handleSeriesRequest, mbind, async_bind. simpl.
  by rewrite bool_decide_true.
Qed.

(** A request that finds the chat free and the series known sets the entry. *)
Lemma run_marks_busy mapping ans seriesCode chatId active o log active' :
  active !! chatId = None →
  isValidSeries mapping (toUpperCase seriesCode) = true →
  run ans 0%nat (handleSeriesRequest mapping seriesCode chatId) [] active
  = (Ret o, log, active') →
  acquisitions chatId log = 1%nat ∧ releases chatId log = 1%nat ∧ active' = active.
Proof.
  intros Hfree Hvalid Hrun.
  destruct (exec_sound chatId (λ _ p, p = JustReleased) true ans _ 0%nat SawFree
              [] active _ _ _ (handleSeriesRequest_free mapping _ _ Hvalid)
              (conj Hfree (conj eq_refl eq_refl)) Hrun)
    as (p' & Hf & Hk & Hframe & _).
  simpl in Hf. subst p'. destruct Hk as (Hn & Ha & Hr). split_and!; [done..|].
  apply map_eq. intros c. destruct (decide (c = chatId)) as [->|Hne].
  - by rewrite Hn, Hfree.
  - by apply Hframe.
Qed.

(** C1.  However the collaborators answer, [handleSeriesRequest] returns (or
    throws), having touched no entry of [activeRequests] but the one of its
    chat; and if it has set that entry it has deleted it exactly once, the
    entry being absent at the end.  With requests running concurrently, a
    request that has ended has set its entry at most once and deleted it as
    often. *)
Theorem busy_lock_released_exactly_once (mapping : gmap string string) :
  (∀ ans seriesCode chatId active,
     ∃ o log active',
       run ans 0%nat (handleSeriesRequest mapping seriesCode chatId) [] active
       = (Ret o, log, active') ∧
       (∀ c, c ≠ chatId → active' !! c = active !! c) ∧
       ((acquisitions chatId log = 0%nat ∧ releases chatId log = 0%nat) ∨
        (acquisitions chatId log = 1%nat ∧ releases chatId log = 1%nat ∧
         active' !! chatId = None))) ∧
  (∀ sys, reachable mapping sys →
     Forall (λ r, ∀ o, rest r = Ret o →
                  releases (chat r) (history r) = acquisitions (chat r) (history r) ∧
                  (acquisitions (chat r) (history r) ≤ 1)%nat)
            (requests sys)).
Proof.
  split.
  - intros ans seriesCode chatId active.
    destruct (run_returns ans (handleSeriesRequest mapping seriesCode chatId)
                0%nat [] active) as (o & log & active' & Hrun).
    exists o, log, active'. split; [done|].
    destruct (exec_sound chatId (λ _ p, p = Outside ∨ p = JustReleased) true ans _
                0%nat Outside [] active _ _ _
                (handleSeriesRequest_follows mapping _ _) (conj eq_refl eq_refl) Hrun)
      as (p' & Hf & Hk & Hframe & _).
    split; [done|]. simpl in Hf. destruct Hf as [-> | ->]; simpl in Hk.
    + by left.
    + right. tauto.
  - intros sys Hr. apply reachable_inv in Hr as [Hreq _].
    apply Forall_lookup. intros i r Hi o Ho.
    destruct (Hreq i r Hi) as (p & _ & Hf & Hk). rewrite Ho in Hf. simpl in Hf.
    unfold released in Hf. destruct p; simpl in Hk; try done; lia.
Qed.

(** C2.  A request for a chat that has an entry in [activeRequests] is
    answered with the busy reply in its first turn: the map is left as it is,
    no entry is set or deleted, and nothing remains of the request but that
    reply; the other requests are untouched.  In every state that concurrent
    requests can reach, at most one request per chat is in flight. *)
Theorem busy_request_rejected (mapping : gmap string string) :
  (∀ ans seriesCode chatId sys,
     is_Some (activeRequests sys !! chatId) →
     startRequest mapping ans seriesCode chatId sys
     = mkSystem (activeRequests sys)
                (requests sys ++
                 [mkRequest chatId [] (attempt (MessageReply PleaseWait))])) ∧
  (∀ sys, reachable mapping sys →
     ∀ i j ri rj,
       requests sys !! i = Some ri → requests sys !! j = Some rj →
       chat ri = chat rj → inFlight ri → inFlight rj → i = j).
Proof.
  split.
  - intros ans seriesCode chatId sys Hbusy. unfold startRequest.
    by rewrite advance_busy.
  - intros sys Hr. apply reachable_inv in Hr as [_ Hexcl]. exact Hexcl.
Qed.

(** *** Concrete executions *)


(** On that path [delete] is called twice in the last turn, once before the
    [return] and once in the [finally]; the second call finds no entry. *)
Example emptySeriesRun_history :
  (λ r, (chat r, history r)) <$> requests emptySeriesRun
  = [("u1", [Acquire "u1" "AB001"; Release "u1" true; Release "u1" false])]
  ∧ activeRequests emptySeriesRun = ∅.
Proof. split; [by vm_compute|]. apply map_eq. intros c. by vm_compute. Qed.

Lemma emptySeriesRun_reachable : reachable seriesMapping emptySeriesRun.
Proof.
  unfold reachable, emptySeriesRun.
  eapply rtc_trans; [|apply resumeRequest_steps].
  eapply rtc_trans; [|apply resumeRequest_steps].
  eapply rtc_trans; [|apply resumeRequest_steps].
  apply rtc_once, startRequest_step.
Qed.

Lemma busy_lock_released_exactly_once_witness :
  reachable seriesMapping emptySeriesRun ∧
  Forall (λ r, ∀ o, rest r = Ret o →
               releases (chat r) (history r) = acquisitions (chat r) (history r) ∧
               (acquisitions (chat r) (history r) ≤ 1)%nat)
         (requests emptySeriesRun).
Proof.
  split; [apply emptySeriesRun_reachable|].
  apply (proj2 (busy_lock_released_exactly_once seriesMapping)).
  apply emptySeriesRun_reachable.
Defined.


Lemma busySystem_reachable : reachable seriesMapping busySystem.
Proof. apply rtc_once, startRequest_step. Qed.

Lemma busy_request_rejected_witness :
  (is_Some (activeRequests busySystem !! "u1") ∧
   startRequest seriesMapping (answerWith []) "ab002" "u1" busySystem
   = mkSystem (activeRequests busySystem)
              (requests busySystem ++
               [mkRequest "u1" [] (attempt (MessageReply PleaseWait))])) ∧
  (reachable seriesMapping busySystem ∧
   ∀ i j ri rj,
     requests busySystem !! i = Some ri → requests busySystem !! j = Some rj →
     chat ri = chat rj → inFlight ri → inFlight rj → i = j).
Proof.
  assert (is_Some (activeRequests busySystem !! "u1")) as Hbusy
    by (exists "AB001"; by vm_compute).
  split; split.
  - exact Hbusy.
  - apply (proj1 (busy_request_rejected seriesMapping)), Hbusy.
  - apply busySystem_reachable.
  - apply (proj2 (busy_request_rejected seriesMapping)), busySystem_reachable.
Defined.

(** In the scenario of the two chats, the first request of [u1] and the
    request of [u2] are in flight, the second request of [u1] has touched
    nothing and has only the busy reply left. *)
Example twoChats_state :
  (λ r, (chat r, history r)) <$> requests twoChats
  = [("u1", [Acquire "u1" "AB001"]); ("u1", []); ("u2", [Acquire "u2" "AB003"])] ∧
  activeRequests twoChats !! "u1" = Some "AB001" ∧
  activeRequests twoChats !! "u2" = Some "AB003" ∧
  rest <$> (requests twoChats !! 1%nat) = Some (attempt (MessageReply PleaseWait)).
Proof. by vm_compute. Qed.

End HandlerProofs.

(** ** Properties of the cache manager *)

Module CacheProofs.
Import Cache CacheScenarios.

Lemma saveMetadata_cache F st : (saveMetadata F st).1 = st.1.
Proof. destruct st as [cm fs]. unfold saveMetadata. by destruct (_ || _). Qed.

Lemma saveMetadata_dirs F st :
  seriesDirs (saveMetadata F st).2 = seriesDirs st.2 ∧
  rootExists (saveMetadata F st).2 = rootExists st.2 ∧
  outside (saveMetadata F st).2 = outside st.2.
Proof. destruct st as [cm fs]. unfold saveMetadata. by destruct (_ || _). Qed.

Lemma saveMetadata_file F st :
  metaFile (saveMetadata F st).2 =
    if writeFails F || negb (rootExists st.2) then metaFile st.2
    else FileJSON (metadata st.1).
Proof. destruct st as [cm fs]. unfold saveMetadata. by destruct (_ || _). Qed.

(** *** Lookup of a series with no video asked for *)

Lemma isSeriesCached_spec st seriesCode videoIds :
  isSeriesCached st seriesCode videoIds = true ↔
  ∀ id, id ∈ videoIds → isCached st seriesCode id = true.
Proof.
  unfold isSeriesCached. rewrite forallb_forall. setoid_rewrite list_elem_of_In. done.
Qed.

Lemma isCached_no_directory st seriesCode videoId :
  seriesDirs st.2 !! seriesCode = None → isCached st seriesCode videoId = false.
Proof. unfold isCached, existsVideo. by intros ->. Qed.

(** C10.  [isSeriesCached] answers [true] exactly when every identifier of the
    list is cached under the series; on the empty list it therefore answers
    [true] for every series code, also for a series that has no directory on
    disk (and whatever the index holds), none of whose videos is cached. *)
Theorem isSeriesCached_empty (st : State) (seriesCode : string) :
  (∀ videoIds,
     isSeriesCached st seriesCode videoIds = true ↔
     ∀ id, id ∈ videoIds → isCached st seriesCode id = true) ∧
  isSeriesCached st seriesCode [] = true ∧
  (seriesDirs st.2 !! seriesCode = None →
   (∀ id, isCached st seriesCode id = false) ∧ isSeriesCached st seriesCode [] = true).
Proof.
  split; [apply isSeriesCached_spec|].
  assert (isSeriesCached st seriesCode [] = true) as Hempty.
  { apply isSeriesCached_spec. intros id Hid. by apply elem_of_nil in Hid. }
  split; [exact Hempty|].
  intros Hdir. split; [|exact Hempty].
  intros id. by apply isCached_no_directory.
Qed.

Lemma isSeriesCached_empty_witness :
  seriesDirs (emptyCache 100 ∅).2 !! "AB001" = None ∧
  (∀ id, isCached (emptyCache 100 ∅) "AB001" id = false) ∧
  isSeriesCached (emptyCache 100 ∅) "AB001" [] = true.
Proof.
  assert (seriesDirs (emptyCache 100 ∅).2 !! "AB001" = None) as Hdir by reflexivity.
  split; [exact Hdir|].
  exact (proj2 (proj2 (isSeriesCached_empty (emptyCache 100 ∅) "AB001")) Hdir).
Defined.

(** The scenario of the specification: with the videos 1 and 2 of a series
    cached, the series is not reported cached for the list 1, 2, 3; it is
    once 3 is cached too. *)
Example isSeriesCached_scenario :
  let s0 := emptyCache 100 {[ "./temp/v.mp4" := 4 ]} in
  let s1 := (cacheVideo noFaults 1 "X" "1" "./temp/v.mp4" s0).2 in
  let s2 := (cacheVideo noFaults 2 "X" "2" "./temp/v.mp4" s1).2 in
  let s3 := (cacheVideo noFaults 3 "X" "3" "./temp/v.mp4" s2).2 in
  isSeriesCached s2 "X" ["1"; "2"; "3"] = false ∧
  isSeriesCached s3 "X" ["1"; "2"; "3"] = true.
Proof. by vm_compute. Qed.

(** *** Loading the index *)

(** C8.  When the metadata file is missing, unreadable or not JSON,
    [loadMetadata] returns the empty index, and the constructor builds the
    very manager it builds over an empty index file: it fails only when the
    cache directory cannot be created, and every operation then starts from
    the empty index. *)
Theorem loadMetadata_fail_open (F : Faults) (dir : string)
    (optSize optAge : option Z) (optFile : option string) (fs : FS) :
  unusable (metaFile fs) →
  loadMetadata fs = [] ∧
  (constructor F dir optSize optAge optFile fs
   = (λ fs', (mkCache dir
                (mkConfig (orDefault optSize defaultMaxCacheSize)
                          (orDefault optAge defaultMaxAge)
                          (match optFile with
                           | Some f => if decide (f = "") then pathJoin dir "metadata.json" else f
                           | None => pathJoin dir "metadata.json"
                           end))
                [], fs')) <$> ensureCacheDir F fs) ∧
  (mkdirRootFails F = false →
   ∃ st, constructor F dir optSize optAge optFile fs = Some st ∧ metadata st.1 = []).
Proof.
  intros Hbad.
  assert (loadMetadata fs = []) as Hload
    by (unfold loadMetadata; by destruct Hbad as [-> | [-> | ->]]).
  split; [done|]. unfold constructor. rewrite Hload. split.
  - by destruct (ensureCacheDir F fs).
  - intros Hmk. unfold ensureCacheDir. rewrite Hmk.
    destruct (rootExists fs); simpl; eauto.
Qed.


Lemma loadMetadata_fail_open_witness :
  unusable (metaFile brokenDisk) ∧
  loadMetadata brokenDisk = [] ∧
  ∃ st, constructor noFaults "./temp/cache" None None None brokenDisk = Some st ∧
        metadata st.1 = [].
Proof.
  assert (unusable (metaFile brokenDisk)) as Hbad by (right; right; reflexivity).
  destruct (loadMetadata_fail_open noFaults "./temp/cache" None None None brokenDisk Hbad)
    as (Hload & _ & Hctor).
  split; [exact Hbad|]. split; [exact Hload|]. apply Hctor. reflexivity.
Defined.

(** *** Reading an item *)

Lemma getCachedVideo_present F now seriesCode videoId st e :
  existsVideo st.2 seriesCode videoId = true →
  jsGet seriesCode (metadata st.1) = Some e →
  getCachedVideo F now seriesCode videoId st
  = (Some (getVideoPath st.1 seriesCode videoId),
     saveMetadata F (withMetadata st.1 (jsSet seriesCode (touch now e) (metadata st.1)),
                     st.2)).
Proof.
  destruct st as [cm fs]. simpl. intros Hex Hget.
  unfold getCachedVideo, updateAccessTime. simpl. by rewrite Hex, Hget.
Qed.

(** C7, as the code has it.  When the artifact is on disk and its series has
    an index entry, [getCachedVideo] returns the path, sets the entry's
    [lastAccessAt] to the current time (not before the previous value when
    the clock has not gone back), adds one to its [accessCount], leaves the
    other entries alone and writes the index to the metadata file, the file
    keeping its content if the write throws.  When the artifact is on disk
    and its series has no index entry, the path is returned and nothing
    changes.  When the artifact is not on disk, [null] is returned and
    nothing changes. *)
Theorem getCachedVideo_spec (F : Faults) (now : Z) (seriesCode videoId : string)
    (st : State) :
  let res := getCachedVideo F now seriesCode videoId st in
  (existsVideo st.2 seriesCode videoId = true →
   res.1 = Some (getVideoPath st.1 seriesCode videoId) ∧
   match jsGet seriesCode (metadata st.1) with
   | Some e =>
       ∃ e', jsGet seriesCode (metadata res.2.1) = Some e' ∧
             lastAccessAt e' = now ∧
             (lastAccessAt e ≤ now → lastAccessAt e ≤ lastAccessAt e') ∧
             accessCount e' = accessCount e + 1 ∧ accessCount e < accessCount e' ∧
             createdAt e' = createdAt e ∧ videos e' = videos e ∧
             (∀ c, c ≠ seriesCode →
                   jsGet c (metadata res.2.1) = jsGet c (metadata st.1)) ∧
             metaFile res.2.2 =
               (if writeFails F || negb (rootExists st.2) then metaFile st.2
                else FileJSON (metadata res.2.1))
   | None => res.2 = st
   end) ∧
  (existsVideo st.2 seriesCode videoId = false → res = (None, st)).
Proof.
  simpl. split.
  - intros Hex. destruct (jsGet seriesCode (metadata st.1)) as [e|] eqn:Hget.
    + rewrite (getCachedVideo_present _ _ _ _ _ e) by done. cbn [fst snd].
      rewrite saveMetadata_cache, saveMetadata_file. cbn [fst snd metadata withMetadata].
      split; [done|].
      exists (touch now e). rewrite jsGet_jsSet_eq. simpl.
      split_and!; try done; try lia.
      intros c Hc. by apply jsGet_jsSet_ne.
    + destruct st as [cm fs]. simpl in *.
      unfold getCachedVideo, updateAccessTime. simpl. by rewrite Hex, Hget.
  - intros Hex. unfold getCachedVideo. by rewrite Hex.
Qed.


(** The artifact is on disk, the index (reloaded from an unusable file) has no
    entry for its series: the path is returned, no access is counted and
    nothing is written. *)
Lemma getCachedVideo_counterexample :
  existsVideo orphanState.2 "AB001" "1" = true ∧
  getCachedVideo noFaults 1000 "AB001" "1" orphanState
  = (Some "./temp/cache/AB001/1.mp4", orphanState).
Proof. split; by vm_compute. Qed.


Lemma getCachedVideo_spec_witness :
  existsVideo indexedState.2 "AB001" "1" = true ∧
  (getCachedVideo noFaults 30 "AB001" "1" indexedState).1
  = Some (getVideoPath indexedState.1 "AB001" "1").
Proof.
  assert (existsVideo indexedState.2 "AB001" "1" = true) as Hex by by vm_compute.
  split; [exact Hex|].
  exact (proj1 (proj1 (getCachedVideo_spec noFaults 30 "AB001" "1" indexedState) Hex)).
Defined.

(** *** Inserting an item *)


Lemma ensureSeriesDir_outside F seriesCode fs fs1 :
  ensureSeriesDir F seriesCode fs = Some fs1 →
  outside fs1 = outside fs ∧ metaFile fs1 = metaFile fs.
Proof.
  unfold ensureSeriesDir. destruct (existsSeriesDir fs seriesCode); [by intros [= <-]|].
  destruct (mkdirFails F seriesCode); [done|]. by intros [= <-].
Qed.

Lemma copyFileSync_Some F filePath seriesCode videoId fs sz fs' :
  copyFileSync F filePath seriesCode videoId fs = Some (sz, fs') →
  outside fs !! filePath = Some sz ∧ copyFails F filePath = false ∧
  existsVideo fs' seriesCode videoId = true ∧
  rootExists fs' = rootExists fs ∧ metaFile fs' = metaFile fs.
Proof.
  unfold copyFileSync, existsVideo.
  destruct (outside fs !! filePath) as [sz'|]; [|done].
  destruct (seriesDirs fs !! seriesCode) as [d|]; [|done].
  destruct (copyFails F filePath); [done|]. intros [= <- <-]. simpl.
  rewrite lookup_insert_eq. split_and!; [done..| |done|done].
  apply bool_decide_eq_true. rewrite lookup_insert_eq. by eexists.
Qed.

Lemma afterFailedCopy_rest F filePath seriesCode videoId fs :
  rootExists (afterFailedCopy F filePath seriesCode videoId fs) = rootExists fs ∧
  outside (afterFailedCopy F filePath seriesCode videoId fs) = outside fs ∧
  metaFile (afterFailedCopy F filePath seriesCode videoId fs) = metaFile fs.
Proof.
  unfold afterFailedCopy. destruct (outside fs !! filePath); [|done].
  destruct (seriesDirs fs !! seriesCode); [|done]. by destruct (copyLeaves F filePath).
Qed.

(** C6.  When the artifact cannot be copied, [cacheVideo] reports it to its
    caller (it returns [null]); whenever it returns [null], the index in
    memory and the metadata file are as before the call; and the index is
    changed only by a call that has copied the artifact into place and
    returns its path. *)
Theorem cacheVideo_failure_keeps_index (F : Faults) (now : Z)
    (seriesCode videoId filePath : string) (st : State) :
  let res := cacheVideo F now seriesCode videoId filePath st in
  (copyCannotSucceed F filePath seriesCode st.2 → res.1 = None) ∧
  (res.1 = None → res.2.1 = st.1 ∧ metaFile res.2.2 = metaFile st.2) ∧
  (res.2.1 ≠ st.1 →
   res.1 = Some (getVideoPath st.1 seriesCode videoId) ∧
   existsVideo res.2.2 seriesCode videoId = true).
Proof.
  destruct st as [cm fs]. cbn [fst snd]. unfold cacheVideo.
  destruct (ensureSeriesDir F seriesCode fs) as [fs1|] eqn:Hdir.
  - destruct (ensureSeriesDir_outside _ _ _ _ Hdir) as [Hout Hmeta].
    destruct (copyFileSync F filePath seriesCode videoId fs1) as [[sz fs2]|] eqn:Hcopy.
    + apply copyFileSync_Some in Hcopy as (Hsrc & Hcf & Hex & Hroot & Hmeta2).
      assert (¬ copyCannotSucceed F filePath seriesCode fs) as Hcan.
      { intros [[Hno Hmk] | [Hmiss | Hthrow]].
        - unfold ensureSeriesDir in Hdir. by rewrite Hno, Hmk in Hdir.
        - rewrite Hout in Hsrc. by rewrite Hmiss in Hsrc.
        - by rewrite Hthrow in Hcf. }
      destruct (statFails F filePath); cbn [fst snd];
        (split; [intros Hc; by destruct (Hcan Hc)|]); split;
        first
          [ done
          | intros _; split; [done|]; by rewrite Hmeta2, Hmeta
          | intros Hne; by destruct Hne
          | intros _; split; [done|];
            unfold existsVideo in *;
            by destruct (saveMetadata_dirs F
                 (withMetadata cm
                    (jsSet seriesCode
                       (recordVideo now sz videoId (jsGet seriesCode (metadata cm)))
                       (metadata cm)), fs2)) as [-> _] ].
    + cbn [fst snd]. split_and!; [done| |done]. intros _. split; [done|].
      destruct (afterFailedCopy_rest F filePath seriesCode videoId fs1) as (_ & _ & ->).
      exact Hmeta.
  - cbn [fst snd]. split_and!; done.
Qed.


Lemma cacheVideo_failure_keeps_index_witness :
  copyCannotSucceed noFaults "./temp/7.mp4" "AB001" (emptyCache 100 ∅).2 ∧
  (cacheVideo noFaults 1 "AB001" "7" "./temp/7.mp4" (emptyCache 100 ∅)).1 = None.
Proof.
  assert (copyCannotSucceed noFaults "./temp/7.mp4" "AB001" (emptyCache 100 ∅).2) as Hc
    by (right; left; reflexivity).
  split; [exact Hc|].
  exact (proj1 (cacheVideo_failure_keeps_index noFaults 1 "AB001" "7" "./temp/7.mp4"
                  (emptyCache 100 ∅)) Hc).
Defined.

(** [cacheVideo] removes no series from the index: it does not call
    [cleanup]. *)
Lemma cacheVideo_keeps_series F now seriesCode videoId filePath st code :
  is_Some (jsGet code (metadata st.1)) →
  is_Some (jsGet code (metadata (cacheVideo F now seriesCode videoId filePath st).2.1)).
Proof.
  destruct st as [cm fs]. cbn [fst snd]. intros Hin. unfold cacheVideo.
  destruct (ensureSeriesDir F seriesCode fs) as [fs1|]; [|done].
  destruct (copyFileSync F filePath seriesCode videoId fs1) as [[sz fs2]|]; [|done].
  destruct (statFails F filePath); cbn [fst snd]; [exact Hin|].
  rewrite saveMetadata_cache. cbn [fst metadata withMetadata].
  destruct (decide (seriesCode = code)) as [->|Hne].
  - rewrite jsGet_jsSet_eq. by eexists.
  - by rewrite jsGet_jsSet_ne.
Qed.


(** C5, on the cache manager of [src/utils]: after the third insert the index
    holds 12 MiB against a capacity of 10 MiB and all three series are still
    there; the eviction that [cleanup] would perform (it removes A) has not
    taken place. *)
Theorem cacheVideo_no_eviction_scenario :
  jsKeys (metadata afterThreeInserts.1) = ["A"; "B"; "C"] ∧
  totalSize (metadata afterThreeInserts.1) = 12 * MiB ∧
  maxCacheSize (config afterThreeInserts.1) = 10 * MiB ∧
  jsKeys (metadata (cleanup noFaults 4 afterThreeInserts).1) = ["B"; "C"].
Proof. by vm_compute. Qed.

(** *** Removal *)

Lemma removeSeries_config F code st : config (removeSeries F code st).1 = config st.1.
Proof.
  destruct st as [cm fs]. unfold removeSeries.
  destruct (_ && _); [done|]. by rewrite saveMetadata_cache.
Qed.

Lemma removeSeries_metadata F code st :
  metadata (removeSeries F code st).1 =
    if existsSeriesDir st.2 code && rmFails F code then metadata st.1
    else jsDelete code (metadata st.1).
Proof.
  destruct st as [cm fs]. unfold removeSeries. cbn [fst snd].
  destruct (_ && _); [done|]. by rewrite saveMetadata_cache.
Qed.

Lemma removeSeries_get_other F code c st :
  code ≠ c →
  jsGet c (metadata (removeSeries F code st).1) = jsGet c (metadata st.1).
Proof.
  intros Hne. rewrite removeSeries_metadata.
  destruct (_ && _); [done|]. by apply jsGet_jsDelete_ne.
Qed.

Lemma removeSeries_get_None F code c st :
  jsGet c (metadata st.1) = None →
  jsGet c (metadata (removeSeries F code st).1) = None.
Proof.
  intros Hn. rewrite removeSeries_metadata. destruct (_ && _); [done|].
  destruct (decide (code = c)) as [->|Hne]; [apply jsGet_jsDelete_eq|].
  by rewrite jsGet_jsDelete_ne.
Qed.

Lemma removeSeries_removed F code st :
  rmFails F code = false → jsGet code (metadata (removeSeries F code st).1) = None.
Proof.
  intros Hrm. rewrite removeSeries_metadata, Hrm, andb_false_r.
  apply jsGet_jsDelete_eq.
Qed.

(** *** The age pass *)

Section AgePass.
Context (F : Faults) (now : Z).

Lemma cleanOld_config keys st :
  config (foldl (cleanOldStep F now) st keys).1 = config st.1.
Proof.
  revert st. induction keys as [|k keys IH]; intros st; simpl; [done|].
  rewrite IH. unfold cleanOldStep.
  destruct (jsGet k (metadata st.1)); [|done].
  case_bool_decide; [apply removeSeries_config|done].
Qed.

Lemma cleanOldStep_get_None k c st :
  jsGet c (metadata st.1) = None → jsGet c (metadata (cleanOldStep F now st k).1) = None.
Proof.
  intros Hn. unfold cleanOldStep. destruct (jsGet k (metadata st.1)); [|done].
  case_bool_decide; [by apply removeSeries_get_None|done].
Qed.

Lemma cleanOld_get_None keys c st :
  jsGet c (metadata st.1) = None →
  jsGet c (metadata (foldl (cleanOldStep F now) st keys).1) = None.
Proof.
  revert st. induction keys as [|k keys IH]; intros st Hn; simpl; [done|].
  by apply IH, cleanOldStep_get_None.
Qed.

Lemma cleanOldStep_get_other k c st :
  k ≠ c → jsGet c (metadata (cleanOldStep F now st k).1) = jsGet c (metadata st.1).
Proof.
  intros Hne. unfold cleanOldStep. destruct (jsGet k (metadata st.1)); [|done].
  case_bool_decide; [by apply removeSeries_get_other|done].
Qed.

Lemma cleanOldStep_config k st : config (cleanOldStep F now st k).1 = config st.1.
Proof. apply (cleanOld_config [k]). Qed.

Lemma cleanOld_removes keys c e st :
  c ∈ keys →
  jsGet c (metadata st.1) = Some e →
  now - createdAt e > maxAge (config st.1) →
  rmFails F c = false →
  jsGet c (metadata (foldl (cleanOldStep F now) st keys).1) = None.
Proof.
  revert st. induction keys as [|k keys IH]; intros st Hin Hget Hold Hrm; simpl.
  - by apply elem_of_nil in Hin.
  - destruct (decide (k = c)) as [->|Hne].
    + apply cleanOld_get_None. unfold cleanOldStep. rewrite Hget.
      rewrite bool_decide_true by done. by apply removeSeries_removed.
    + apply elem_of_cons in Hin as [?|Hin]; [congruence|].
      apply IH; [done| | |done].
      * by rewrite cleanOldStep_get_other.
      * by rewrite cleanOldStep_config.
Qed.

Lemma cleanOld_keeps keys c e st :
  jsGet c (metadata st.1) = Some e →
  now - createdAt e ≤ maxAge (config st.1) →
  jsGet c (metadata (foldl (cleanOldStep F now) st keys).1) = Some e.
Proof.
  revert st. induction keys as [|k keys IH]; intros st Hget Hyoung; simpl; [done|].
  apply IH; [|by rewrite cleanOldStep_config].
  destruct (decide (k = c)) as [->|Hne]; [|by rewrite cleanOldStep_get_other].
  unfold cleanOldStep. rewrite Hget. by rewrite bool_decide_false by lia.
Qed.

End AgePass.

Lemma jsGet_Some_key {V} (k : string) (v : V) (o : list (string * V)) :
  jsGet k o = Some v → k ∈ jsKeys o.
Proof.
  intros Hget. destruct (decide (k ∈ jsKeys o)) as [|Hnin]; [done|].
  apply jsGet_None in Hnin. congruence.
Qed.

(** *** The size pass *)


Lemma evictLoop_get_None F l cur c st :
  jsGet c (metadata st.1) = None →
  jsGet c (metadata (evictLoop F l cur st).1) = None.
Proof.
  revert cur st. induction l as [|x l IH]; intros cur st Hn; simpl; [done|].
  destruct (withinBuffer _ _); [done|]. by apply IH, removeSeries_get_None.
Qed.

Lemma cleanBySize_get_None F c st :
  jsGet c (metadata st.1) = None → jsGet c (metadata (cleanBySize F st).1) = None.
Proof.
  intros Hn. unfold cleanBySize. case_bool_decide; [done|].
  by apply evictLoop_get_None.
Qed.

(** The loop asks for the removal of the first [n] series of the list, [n]
    being the first position at which the size it tracks is within the
    buffer. *)
Lemma evictLoop_prefix F l cur st :
  ∃ n, (n ≤ length l)%nat ∧
       evictLoop F l cur st = foldl (λ s x, removeSeries F x.1.1 s) st (take n l) ∧
       (∀ j, (j < n)%nat →
             ¬ 5 * (cur - sumSizes (take j l)) ≤ 4 * maxCacheSize (config st.1)) ∧
       (n = length l ∨
        5 * (cur - sumSizes (take n l)) ≤ 4 * maxCacheSize (config st.1)).
Proof.
  revert cur st. induction l as [|x l IH]; intros cur st; simpl.
  - exists 0%nat. split_and!; [done|done| |by left]. intros j Hj. lia.
  - unfold withinBuffer. case_bool_decide as Hin.
    + exists 0%nat. simpl. split_and!; [lia|done| |right; lia]. intros j Hj. lia.
    + destruct (IH (cur - x.2) (removeSeries F x.1.1 st))
        as (n & Hn & Heq & Habove & Hstop).
      rewrite removeSeries_config in Habove, Hstop.
      exists (S n). simpl. split_and!; [lia|done| |].
      * intros [|j] Hj; simpl; [lia|].
        specialize (Habove j ltac:(lia)). lia.
      * destruct Hstop as [->|Hstop]; [by left|right; lia].
Qed.

Lemma jsDelete_filter {V} (c : string) (o : list (string * V)) :
  jsDelete c o = filter (λ kv, kv.1 ≠ c) o.
Proof.
  induction o as [|[k v] o IH]; simpl; [done|].
  rewrite filter_cons. simpl. destruct (decide (c = k)) as [->|Hne].
  - by rewrite decide_False by (by intros ?).
  - rewrite decide_True by congruence. by rewrite IH.
Qed.

Lemma foldl_jsDelete {V} (codes : list string) (o : list (string * V)) :
  foldl (λ m c, jsDelete c m) o codes = filter (λ kv, kv.1 ∉ codes) o.
Proof.
  revert o. induction codes as [|c codes IH]; intros o; simpl.
  - symmetry. apply filter_all. intros kv _. apply not_elem_of_nil.
  - rewrite IH, jsDelete_filter, list_filter_filter.
    apply list_filter_iff. intros kv. rewrite not_elem_of_cons. tauto.
Qed.

Lemma foldl_removeSeries_metadata F (l : list SeriesInfo) st :
  (∀ code, rmFails F code = false) →
  metadata (foldl (λ s x, removeSeries F x.1.1 s) st l).1
  = filter (λ kv, kv.1 ∉ l.*1.*1) (metadata st.1).
Proof.
  intros Hrm. rewrite <- foldl_jsDelete.
  revert st. induction l as [|x l IH]; intros st; simpl; [done|].
  rewrite IH. by rewrite removeSeries_metadata, Hrm, andb_false_r.
Qed.

Lemma foldl_sum {B} (f : B → Z) (l : list B) (a : Z) :
  foldl (λ sum s, sum + f s) a l = a + foldr (λ s sum, f s + sum) 0 l.
Proof.
  revert a. induction l as [|x l IH]; intros a; simpl; [lia|]. rewrite IH. lia.
Qed.

Lemma totalSize_sumSizes m : totalSize m = sumSizes (seriesInfo <$> m).
Proof.
  unfold totalSize, sumSizes. rewrite foldl_sum, Z.add_0_l.
  induction m as [|kv m IH]; [done|].
  cbn [foldr fmap list_fmap]. f_equal. exact IH.
Qed.

#[local] Instance sumSizes_Permutation : Proper ((≡ₚ) ==> (=)) sumSizes.
Proof.
  intros l1 l2 Hp. unfold sumSizes.
  induction Hp; simpl; [done|congruence|lia|congruence].
Qed.

Lemma sumSizes_app l1 l2 : sumSizes (l1 ++ l2) = sumSizes l1 + sumSizes l2.
Proof.
  unfold sumSizes. induction l1 as [|x l1 IH]; [done|].
  cbn [app foldr]. rewrite IH. lia.
Qed.

(** What is left after the removal of a prefix of the order. *)
Lemma remaining_total m (order : list SeriesInfo) n :
  NoDup (jsKeys m) →
  order ≡ₚ seriesInfo <$> m →
  totalSize (filter (λ kv, kv.1 ∉ (take n order).*1.*1) m)
  = totalSize m - sumSizes (take n order).
Proof.
  intros Hnd Hperm.
  assert (NoDup (order.*1.*1)) as Hnd'.
  { rewrite Hperm. rewrite <- !list_fmap_compose.
    unfold jsKeys in Hnd. erewrite list_fmap_ext; [exact Hnd|]. by intros ? []. }
  rewrite !totalSize_sumSizes.
  assert (seriesInfo <$> filter (λ kv, kv.1 ∉ (take n order).*1.*1) m
          = filter (λ x : SeriesInfo, x.1.1 ∉ (take n order).*1.*1) (seriesInfo <$> m))
    as -> by (by rewrite filter_fmap).
  rewrite <- Hperm.
  assert (sumSizes order = sumSizes (take n order) + sumSizes (drop n order)) as Hsum
    by (by rewrite <- sumSizes_app, take_drop).
  rewrite <- (take_drop n order), !fmap_app in Hnd'.
  apply NoDup_app in Hnd' as (_ & Hdisj & _).
  assert (filter (λ x : SeriesInfo, x.1.1 ∉ (take n order).*1.*1)
                 (take n order ++ drop n order) = drop n order) as Hfilter.
  { rewrite filter_app, filter_none, filter_all; [done| |].
    - intros x Hx Hg. apply (Hdisj _ Hg).
      apply list_elem_of_fmap. exists x.1. split; [done|].
      apply list_elem_of_fmap. by exists x.
    - intros x Hx Hn. apply Hn.
      apply list_elem_of_fmap. exists x.1. split; [done|].
      apply list_elem_of_fmap. by exists x. }
  rewrite take_drop in Hfilter. rewrite Hfilter. lia.
Qed.

(** C4, as the code has it.  The size pass lists the series in ascending order
    of [lastAccessAt], series of equal [lastAccessAt] in the order of the
    index (no comparison of series codes takes place).  If the total size is
    within [maxCacheSize] the pass changes nothing.  Otherwise it asks for the
    removal of the first [n] series of that list and no other, where [n] is
    the first position at which the size it tracks, the total minus the sizes
    of the series already dealt with, is at most 80% of [maxCacheSize] (or the
    length of the list).  When no removal throws, the index is left with the
    other series and the tracked size is their total. *)
Theorem cleanBySize_spec (F : Faults) (st : State) :
  let m := metadata st.1 in
  let limit := maxCacheSize (config st.1) in
  let order := sortByAccess (seriesInfo <$> m) in
  (order ≡ₚ seriesInfo <$> m ∧
   StronglySorted (λ a b : SeriesInfo, a.1.2 ≤ b.1.2) order ∧
   ∀ t, filter (λ a : SeriesInfo, a.1.2 = t) order
        = filter (λ a : SeriesInfo, a.1.2 = t) (seriesInfo <$> m)) ∧
  (totalSize m ≤ limit → cleanBySize F st = st) ∧
  (limit < totalSize m →
   ∃ n, (n ≤ length order)%nat ∧
        cleanBySize F st = foldl (λ s x, removeSeries F x.1.1 s) st (take n order) ∧
        (∀ j, (j < n)%nat →
              ¬ 5 * (totalSize m - sumSizes (take j order)) ≤ 4 * limit) ∧
        (n = length order ∨
         5 * (totalSize m - sumSizes (take n order)) ≤ 4 * limit) ∧
        ((∀ code, rmFails F code = false) → NoDup (jsKeys m) →
         metadata (cleanBySize F st).1
         = filter (λ kv, kv.1 ∉ (take n order).*1.*1) m ∧
         totalSize (metadata (cleanBySize F st).1)
         = totalSize m - sumSizes (take n order))).
Proof.
  intros m limit order. split; [|split].
  - split; [|split].
    + apply sortBy_Permutation.
    + apply (sortBy_sorted (λ x : SeriesInfo, x.1.2)).
    + intros t. apply (sortBy_stable (λ x : SeriesInfo, x.1.2)).
  - intros Hle. unfold cleanBySize. simpl. by rewrite bool_decide_true.
  - intros Hgt. unfold cleanBySize. simpl. rewrite bool_decide_false by (fold m limit; lia).
    destruct (evictLoop_prefix F order (totalSize m) st) as (n & Hn & Heq & Habove & Hstop).
    exists n. fold m order. do 4 (split; [done|]).
    intros Hrm Hnd. rewrite Heq.
    rewrite foldl_removeSeries_metadata by done. split; [done|].
    apply remaining_total; [done|apply sortBy_Permutation].
Qed.

Lemma cleanBySize_spec_witness :
  maxCacheSize (config afterThreeInserts.1) < totalSize (metadata afterThreeInserts.1) ∧
  ∃ n, (n ≤ length (sortByAccess (seriesInfo <$> metadata afterThreeInserts.1)))%nat ∧
       cleanBySize noFaults afterThreeInserts
       = foldl (λ s x, removeSeries noFaults x.1.1 s) afterThreeInserts
               (take n (sortByAccess (seriesInfo <$> metadata afterThreeInserts.1))).
Proof.
  assert (maxCacheSize (config afterThreeInserts.1)
          < totalSize (metadata afterThreeInserts.1)) as Hgt by by vm_compute.
  split; [exact Hgt|].
  destruct (proj2 (proj2 (cleanBySize_spec noFaults afterThreeInserts)) Hgt)
    as (n & Hn & Heq & _).
  exists n. split; [exact Hn|exact Heq].
Defined.


(** The size pass removes B and keeps A and C, which have the same
    [lastAccessAt]: the series removed is neither the least nor the greatest
    series code, it is the first of the index. *)
Lemma cleanBySize_counterexample :
  (λ kv, (kv.1, lastAccessAt kv.2)) <$> metadata tiedInserts.1
  = [("B", 5); ("A", 5); ("C", 5)] ∧
  jsKeys (metadata (cleanBySize noFaults tiedInserts).1) = ["A"; "C"] ∧
  String.ltb "A" "B" = true ∧ String.ltb "B" "C" = true.
Proof. by vm_compute. Qed.

(** A removal that throws leaves the series in the index, and the loop goes on
    as if it had been removed. *)
Example cleanBySize_removal_throws :
  let F := mkFaults (λ _, false) (λ _, false) (λ _, Untouched) (λ _, false)
                    (λ c, bool_decide (c = "A")) (λ _ _, true) false false false in
  jsKeys (metadata (cleanBySize F afterThreeInserts).1) = ["A"; "B"; "C"].
Proof. by vm_compute. Qed.

(** The age pass followed by the size pass. *)
Lemma cleanup_removes_stale F now st code e :
  jsGet code (metadata st.1) = Some e →
  now - createdAt e > maxAge (config st.1) →
  rmFails F code = false →
  jsGet code (metadata (cleanup F now st).1) = None.
Proof.
  intros Hget Hold Hrm. unfold cleanup, cleanOldEntries.
  apply cleanBySize_get_None.
  eapply cleanOld_removes; [|done..]. by eapply jsGet_Some_key.
Qed.

Lemma cleanOldEntries_keeps_young F now st code e :
  jsGet code (metadata st.1) = Some e →
  now - createdAt e ≤ maxAge (config st.1) →
  jsGet code (metadata (cleanOldEntries F now st).1) = Some e.
Proof. intros Hget Hyoung. unfold cleanOldEntries. by apply cleanOld_keeps. Qed.

End CacheProofs.

(** ** Properties of the cache manager of the consolidated module *)

Module ConsolidatedProofs.
Import Consolidated ConsolidatedScenarios.


Lemma removeSeries_root F c fs : rootExists (removeSeries F c fs) = rootExists fs.
Proof.
  unfold removeSeries. destruct (_ && _); [done|].
  unfold saveMetadata. simpl. by destruct (_ || _).
Qed.

Lemma removeSeries_load F c fs :
  writeFails F = false → rootExists fs = true →
  loadMetadata (removeSeries F c fs) =
    if blocked F fs c then loadMetadata fs else jsDelete c (loadMetadata fs).
Proof.
  intros Hw Hroot. unfold removeSeries, blocked.
  destruct (_ && _); [done|].
  unfold saveMetadata. simpl. by rewrite Hw, Hroot.
Qed.

Section Writable.
Context (F : Faults) (Hwrite : writeFails F = false).

Lemma removeSeries_load_None c code fs :
  rootExists fs = true →
  jsGet code (loadMetadata fs) = None →
  jsGet code (loadMetadata (removeSeries F c fs)) = None.
Proof.
  intros Hroot Hn. rewrite removeSeries_load by done.
  destruct (blocked F fs c); [done|].
  destruct (decide (c = code)) as [->|Hne]; [apply jsGet_jsDelete_eq|].
  by rewrite jsGet_jsDelete_ne.
Qed.

Lemma removeSeries_load_other c code fs :
  rootExists fs = true → c ≠ code →
  jsGet code (loadMetadata (removeSeries F c fs)) = jsGet code (loadMetadata fs).
Proof.
  intros Hroot Hne. rewrite removeSeries_load by done.
  destruct (blocked F fs c); [done|]. by apply jsGet_jsDelete_ne.
Qed.

Lemma removeSeries_load_removed code fs :
  rootExists fs = true → rmFails F code = false →
  jsGet code (loadMetadata (removeSeries F code fs)) = None.
Proof.
  intros Hroot Hrm. rewrite removeSeries_load by done.
  unfold blocked. rewrite Hrm, andb_false_r. apply jsGet_jsDelete_eq.
Qed.

Lemma removeAll_root codes fs :
  rootExists (foldl (λ fs code, removeSeries F code fs) fs codes) = rootExists fs.
Proof.
  revert fs. induction codes as [|c codes IH]; intros fs; simpl; [done|].
  by rewrite IH, removeSeries_root.
Qed.

Lemma removeAll_get_None codes code fs :
  rootExists fs = true →
  jsGet code (loadMetadata fs) = None →
  jsGet code (loadMetadata (foldl (λ fs code, removeSeries F code fs) fs codes)) = None.
Proof.
  revert fs. induction codes as [|c codes IH]; intros fs Hroot Hn; simpl; [done|].
  apply IH; [by rewrite removeSeries_root|by apply removeSeries_load_None].
Qed.

Lemma removeAll_removed codes code fs :
  rootExists fs = true → rmFails F code = false → code ∈ codes →
  jsGet code (loadMetadata (foldl (λ fs code, removeSeries F code fs) fs codes)) = None.
Proof.
  revert fs. induction codes as [|c codes IH]; intros fs Hroot Hrm Hin; simpl.
  - by apply elem_of_nil in Hin.
  - destruct (decide (c = code)) as [->|Hne].
    + apply removeAll_get_None; [by rewrite removeSeries_root|].
      by apply removeSeries_load_removed.
    + apply elem_of_cons in Hin as [?|Hin]; [congruence|].
      apply IH; [by rewrite removeSeries_root|done..].
Qed.

Lemma enforceLoop_get_None cm metadata sorted total code fs :
  rootExists fs = true →
  jsGet code (loadMetadata fs) = None →
  jsGet code (loadMetadata (enforceLoop F cm metadata sorted total fs)) = None.
Proof.
  revert total fs. induction sorted as [|[c e] sorted IH]; intros total fs Hroot Hn;
    simpl; [done|].
  case_bool_decide; [done|].
  apply IH; [by rewrite removeSeries_root|by apply removeSeries_load_None].
Qed.

(** With a writable metadata file, [enforceCache] leaves no series whose last
    access is older than [maxAge], unless the removal of its directory
    throws. *)
Lemma enforceCache_removes_idle now cm fs code e :
  rootExists fs = true →
  rmFails F code = false →
  jsGet code (loadMetadata fs) = Some e →
  now - lastAccessed e > maxAge cm →
  jsGet code (loadMetadata (enforceCache F now cm fs)) = None.
Proof.
  intros Hroot Hrm Hget Hidle. unfold enforceCache.
  apply enforceLoop_get_None; [by rewrite removeAll_root|].
  apply removeAll_removed; [done..|].
  unfold seriesToRemove. apply list_elem_of_fmap. exists (code, e). split; [done|].
  apply list_elem_of_filter. split; [done|]. by apply jsGet_Some_elem.
Qed.

End Writable.

(** The removal of a series leaves the entries of the others, whatever
    throws. *)
Lemma removeSeries_keeps_other F c code fs :
  c ≠ code →
  jsGet code (loadMetadata (removeSeries F c fs)) = jsGet code (loadMetadata fs).
Proof.
  intros Hne. unfold removeSeries. destruct (_ && _); [done|].
  unfold saveMetadata. cbn [rootExists]. destruct (_ || _); [done|].
  cbn. by apply jsGet_jsDelete_ne.
Qed.

Lemma removeAll_keeps_other F codes code fs :
  code ∉ codes →
  jsGet code (loadMetadata (foldl (λ fs code, removeSeries F code fs) fs codes))
  = jsGet code (loadMetadata fs).
Proof.
  revert fs. induction codes as [|c codes IH]; intros fs Hnin; simpl; [done|].
  apply not_elem_of_cons in Hnin as [Hne Hnin].
  rewrite IH by done. by apply removeSeries_keeps_other.
Qed.

(** The size pass does nothing when the total recorded at the start of the
    call is within the capacity. *)
Lemma enforceLoop_within F cm metadata sorted total fs :
  total ≤ maxCacheSize cm → enforceLoop F cm metadata sorted total fs = fs.
Proof.
  intros Hle. destruct sorted as [|[c e] sorted]; simpl; [done|].
  by rewrite bool_decide_true.
Qed.

(** [enforceCache] keeps a series that was accessed within [maxAge], when
    the recorded total is within the capacity. *)
Lemma enforceCache_keeps_recent F now cm fs code e :
  NoDup (jsKeys (loadMetadata fs)) →
  jsGet code (loadMetadata fs) = Some e →
  now - lastAccessed e ≤ maxAge cm →
  foldl (λ sum series, sum + size series.2) 0 (loadMetadata fs) ≤ maxCacheSize cm →
  jsGet code (loadMetadata (enforceCache F now cm fs)) = Some e.
Proof.
  intros Hnd Hget Hrecent Hle. unfold enforceCache. cbv zeta.
  rewrite enforceLoop_within by done.
  rewrite removeAll_keeps_other; [done|].
  unfold seriesToRemove. intros Hin.
  apply list_elem_of_fmap in Hin as ([c e'] & -> & Hin).
  apply list_elem_of_filter in Hin as [Hidle Hin]. cbn [fst snd] in *.
  rewrite (jsGet_elem _ _ _ Hnd Hin) in Hget. injection Hget as ->. lia.
Qed.


Lemma cleanup_counterexample :
  loadMetadata agedDisk = [("AB001", mkEntry ["1"] 100 4)] ∧
  150 - 0 > maxAge agedCache ∧
  loadMetadata (cleanup noFaults 150 agedCache agedDisk)
  = [("AB001", mkEntry ["1"] 100 4)].
Proof. by vm_compute. Qed.

(** The scenario of the specification on this variant: the third insert is
    followed by the eviction of A. *)
Example cacheVideo_evicts :
  let cm := mkCache "./temp/cache" (10 * 1024 * 1024) (7 * 24 * 60 * 60 * 1000) in
  let sz := 4 * 1024 * 1024 in
  let fs0 := mkFS true ∅ {[ "./temp/a.mp4" := sz; "./temp/b.mp4" := sz;
                            "./temp/c.mp4" := sz ]} FileMissing in
  let fs1 := cacheVideo noFaults 1 1 cm "A" "1" "./temp/a.mp4" fs0 in
  let fs2 := cacheVideo noFaults 2 2 cm "B" "1" "./temp/b.mp4" fs1 in
  let fs3 := cacheVideo noFaults 3 3 cm "C" "1" "./temp/c.mp4" fs2 in
  jsKeys (loadMetadata fs2) = ["A"; "B"] ∧ jsKeys (loadMetadata fs3) = ["B"; "C"].
Proof. by vm_compute. Qed.

(** A series read 20 ago, with a [maxAge] of 100, is evicted all the same by
    the size pass when the next insert exceeds the capacity. *)
Example enforceCache_evicts_recent :
  let cm := mkCache "./temp/cache" 6 100 in
  let fs0 := mkFS true ∅ {[ "./temp/a.mp4" := 4; "./temp/b.mp4" := 4 ]} FileMissing in
  let fs1 := cacheVideo noFaults 0 0 cm "A" "1" "./temp/a.mp4" fs0 in
  let fs2 := (getCachedVideo noFaults 100 cm "A" "1" fs1).2 in
  let fs3 := cacheVideo noFaults 120 120 cm "B" "1" "./temp/b.mp4" fs2 in
  (lastAccessed <$> jsGet "A" (loadMetadata fs2)) = Some 100 ∧
  jsKeys (loadMetadata fs3) = ["B"].
Proof. by vm_compute. Qed.

End ConsolidatedProofs.

(** ** Eviction by age, in the two cache managers *)

(** C3, as the code has it.  In the cache manager of [src/utils], after
    [cleanup] the index holds no series whose age since creation exceeds
    [maxAge], whatever the total size, unless the removal of its directory
    throws; and the age pass keeps every series whose age since creation is
    within [maxAge], whenever it was last accessed.  In the cache manager of
    the consolidated module, whose index records no creation time, the age
    is measured from the last access: with a writable metadata file, after
    [enforceCache] the index holds no series whose last access is older than
    [maxAge], unless the removal of its directory throws; and a series
    accessed within [maxAge], whenever it was created, is not removed for its
    age: it is still in the index when the total recorded at the start of
    the call is within the capacity (the size pass of the same call may
    evict it otherwise). *)
Theorem stale_series_evicted :
  (∀ F now st code e,
     jsGet code (Cache.metadata st.1) = Some e →
     (now - Cache.createdAt e > Cache.maxAge (Cache.config st.1) →
      Cache.rmFails F code = false →
      jsGet code (Cache.metadata (Cache.cleanup F now st).1) = None) ∧
     (now - Cache.createdAt e ≤ Cache.maxAge (Cache.config st.1) →
      jsGet code (Cache.metadata (Cache.cleanOldEntries F now st).1) = Some e)) ∧
  (∀ F now cm fs code e,
     Consolidated.writeFails F = false →
     Consolidated.rootExists fs = true →
     Consolidated.rmFails F code = false →
     jsGet code (Consolidated.loadMetadata fs) = Some e →
     now - Consolidated.lastAccessed e > Consolidated.maxAge cm →
     jsGet code (Consolidated.loadMetadata (Consolidated.enforceCache F now cm fs)) = None) ∧
  (∀ F now cm fs code e,
     NoDup (jsKeys (Consolidated.loadMetadata fs)) →
     jsGet code (Consolidated.loadMetadata fs) = Some e →
     now - Consolidated.lastAccessed e ≤ Consolidated.maxAge cm →
     foldl (λ sum series, sum + Consolidated.size series.2) 0 (Consolidated.loadMetadata fs)
       ≤ Consolidated.maxCacheSize cm →
     jsGet code (Consolidated.loadMetadata (Consolidated.enforceCache F now cm fs))
     = Some e).
Proof.
  split.
  - intros F now st code e Hget. split.
    + intros Hold Hrm. by eapply CacheProofs.cleanup_removes_stale.
    + intros Hyoung. by apply CacheProofs.cleanOldEntries_keeps_young.
  - split.
    + intros F now cm fs code e Hw Hroot Hrm Hget Hidle.
      by eapply ConsolidatedProofs.enforceCache_removes_idle.
    + intros F now cm fs code e Hnd Hget Hrecent Hle.
      by apply ConsolidatedProofs.enforceCache_keeps_recent.
Qed.


Lemma stale_series_evicted_witness :
  (jsGet "AB001" (Cache.metadata CacheScenarios.twoHoursOld.1)
   = Some (Cache.mkSeries 0 0 1 [("1", Cache.mkVideo 4 0)]) ∧
   2 * CacheScenarios.hour - 0 > Cache.maxAge (Cache.config CacheScenarios.twoHoursOld.1) ∧
   jsGet "AB001"
     (Cache.metadata
        (Cache.cleanup Cache.noFaults (2 * CacheScenarios.hour)
           CacheScenarios.twoHoursOld).1)
   = None) ∧
  (jsGet "AB001" (Consolidated.loadMetadata ConsolidatedScenarios.idleDisk)
   = Some (Consolidated.mkEntry ["1"] 0 4) ∧
   jsGet "AB001"
     (Consolidated.loadMetadata
        (Consolidated.enforceCache Consolidated.noFaults (2 * CacheScenarios.hour)
           ConsolidatedScenarios.hourCache ConsolidatedScenarios.idleDisk))
   = None) ∧
  (jsGet "AB001" (Consolidated.loadMetadata ConsolidatedScenarios.agedDisk)
   = Some (Consolidated.mkEntry ["1"] 100 4) ∧
   150 - 100 ≤ Consolidated.maxAge ConsolidatedScenarios.agedCache ∧
   jsGet "AB001"
     (Consolidated.loadMetadata
        (Consolidated.enforceCache Consolidated.noFaults 150
           ConsolidatedScenarios.agedCache ConsolidatedScenarios.agedDisk))
   = Some (Consolidated.mkEntry ["1"] 100 4)).
Proof.
  assert (jsGet "AB001" (Cache.metadata CacheScenarios.twoHoursOld.1)
          = Some (Cache.mkSeries 0 0 1 [("1", Cache.mkVideo 4 0)])) as Hget
    by reflexivity.
  assert (2 * CacheScenarios.hour - 0
          > Cache.maxAge (Cache.config CacheScenarios.twoHoursOld.1)) as Hold
    by (by vm_compute).
  assert (jsGet "AB001" (Consolidated.loadMetadata ConsolidatedScenarios.idleDisk)
          = Some (Consolidated.mkEntry ["1"] 0 4)) as Hget'
    by (by vm_compute).
  assert (jsGet "AB001" (Consolidated.loadMetadata ConsolidatedScenarios.agedDisk)
          = Some (Consolidated.mkEntry ["1"] 100 4)) as Hget''
    by (by vm_compute).
  split; [|split].
  - split; [exact Hget|]. split; [exact Hold|].
    exact (proj1 (proj1 stale_series_evicted Cache.noFaults (2 * CacheScenarios.hour)
                    CacheScenarios.twoHoursOld "AB001" _ Hget) Hold eq_refl).
  - split; [exact Hget'|].
    apply (proj1 (proj2 stale_series_evicted) Consolidated.noFaults
             (2 * CacheScenarios.hour)
             ConsolidatedScenarios.hourCache ConsolidatedScenarios.idleDisk "AB001"
             (Consolidated.mkEntry ["1"] 0 4));
      [reflexivity|by vm_compute|reflexivity|exact Hget'|by vm_compute].
  - split; [exact Hget''|]. split; [by vm_compute|].
    apply (proj2 (proj2 stale_series_evicted) Consolidated.noFaults 150
             ConsolidatedScenarios.agedCache ConsolidatedScenarios.agedDisk "AB001"
             (Consolidated.mkEntry ["1"] 100 4));
      [|exact Hget''|by vm_compute|by vm_compute].
    refine (bool_decide_unpack _ _). by vm_compute.
Defined.

(** ** Creation and last access *)

Module CacheInvariant.
Import Cache CacheScenarios CacheProofs.

Lemma jsSet_elem {V} (k : string) (v : V) kv (o : list (string * V)) :
  kv ∈ jsSet k v o → kv = (k, v) ∨ kv ∈ o.
Proof.
  induction o as [|[k' v'] o IH]; simpl.
  - intros H. apply list_elem_of_singleton in H. by left.
  - case_decide; subst; rewrite !elem_of_cons.
    + intros [->|Hin]; [by left|by right; right].
    + intros [->|Hin]; [by right; left|].
      destruct (IH Hin) as [->|?]; [by left|by right; right].
Qed.

Lemma jsDelete_subset {V} (k : string) kv (o : list (string * V)) :
  kv ∈ jsDelete k o → kv ∈ o.
Proof. intros H. by apply jsDelete_elem in H as [? _]. Qed.

Lemma WellTimed_mono clock now m : clock ≤ now → WellTimed clock m → WellTimed now m.
Proof. intros Hle Hm kv Hin. destruct (Hm kv Hin). lia. Qed.

Lemma WellTimed_nil clock : WellTimed clock [].
Proof. intros kv Hin. by apply elem_of_nil in Hin. Qed.

Lemma WellTimed_jsDelete clock k m : WellTimed clock m → WellTimed clock (jsDelete k m).
Proof. intros Hm kv Hin. by apply Hm, (jsDelete_subset k). Qed.

Lemma WellTimed_jsSet clock k e m :
  createdAt e ≤ lastAccessAt e → lastAccessAt e ≤ clock →
  WellTimed clock m → WellTimed clock (jsSet k e m).
Proof.
  intros H1 H2 Hm kv Hin. apply jsSet_elem in Hin as [->|Hin]; [done|by apply Hm].
Qed.

Lemma WellTimed_get clock m k e :
  WellTimed clock m → jsGet k m = Some e →
  createdAt e ≤ lastAccessAt e ∧ lastAccessAt e ≤ clock.
Proof. intros Hm Hget. by apply (Hm (k, e)), jsGet_Some_elem. Qed.


Section Invariant.
Context (disk : bool).

Lemma Inv_mono clock now st : clock ≤ now → Inv disk clock st → Inv disk now st.
Proof.
  intros Hle [Hm Hf]. split; [by eapply WellTimed_mono|].
  intros Hd m Hm'. eapply WellTimed_mono; [done|]. by apply Hf.
Qed.

Lemma Inv_save F clock cm fs :
  WellTimed clock (metadata cm) →
  (disk = true → ∀ m, metaFile fs = FileJSON m → WellTimed clock m) →
  Inv disk clock (saveMetadata F (cm, fs)).
Proof.
  intros Hm Hf. unfold Inv. rewrite saveMetadata_cache, saveMetadata_file.
  cbn [fst snd]. split; [done|].
  destruct (_ || _); [done|]. by intros _ m [= <-].
Qed.

Lemma Inv_removeSeries F clock code st :
  Inv disk clock st → Inv disk clock (removeSeries F code st).
Proof.
  destruct st as [cm fs]. intros [Hm Hf]. unfold removeSeries.
  destruct (_ && _); [done|]. apply Inv_save; [|done].
  by apply WellTimed_jsDelete.
Qed.

Lemma Inv_cleanOldEntries F clock now st :
  Inv disk clock st → Inv disk clock (cleanOldEntries F now st).
Proof.
  unfold cleanOldEntries. generalize (jsKeys (metadata st.1)). intros keys.
  revert st. induction keys as [|k keys IH]; intros st Hinv; simpl; [done|].
  apply IH. unfold cleanOldStep. destruct (jsGet k (metadata st.1)); [|done].
  case_bool_decide; [by apply Inv_removeSeries|done].
Qed.

Lemma Inv_evictLoop F clock l cur st :
  Inv disk clock st → Inv disk clock (evictLoop F l cur st).
Proof.
  revert cur st. induction l as [|x l IH]; intros cur st Hinv; simpl; [done|].
  destruct (withinBuffer _ _); [done|]. by apply IH, Inv_removeSeries.
Qed.

Lemma Inv_cleanup F clock now st : Inv disk clock st → Inv disk clock (cleanup F now st).
Proof.
  intros Hinv. unfold cleanup, cleanBySize. case_bool_decide.
  - by apply Inv_cleanOldEntries.
  - by apply Inv_evictLoop, Inv_cleanOldEntries.
Qed.

Lemma Inv_clearAll F clock st : Inv disk clock st → Inv disk clock (clearAll F st).
Proof.
  destruct st as [cm fs]. intros Hinv. unfold clearAll.
  destruct (_ && _); [done|].
  destruct (ensureCacheDir _ _) as [fs2|] eqn:Hens.
  - apply Inv_save; [apply WellTimed_nil|].
    unfold ensureCacheDir in Hens. simpl in Hens.
    destruct (mkdirRootFails F); [done|]. by injection Hens as <-.
  - split; [apply WellTimed_nil|done].
Qed.

Lemma Inv_getCachedVideo F clock now seriesCode videoId st :
  clock ≤ now → Inv disk clock st →
  Inv disk now (getCachedVideo F now seriesCode videoId st).2.
Proof.
  intros Hle Hinv. apply (Inv_mono _ _ _ Hle) in Hinv.
  destruct st as [cm fs]. destruct Hinv as [Hm Hf].
  unfold getCachedVideo, updateAccessTime. cbn [fst snd].
  destruct (existsVideo fs seriesCode videoId); [|done]. cbn [snd].
  destruct (jsGet seriesCode (metadata cm)) as [e|] eqn:Hget; [|done].
  apply Inv_save; [|done].
  destruct (WellTimed_get _ _ _ _ Hm Hget).
  apply WellTimed_jsSet; simpl; [lia|lia|done].
Qed.

Lemma Inv_cacheVideo F clock now seriesCode videoId filePath st :
  clock ≤ now → Inv disk clock st →
  Inv disk now (cacheVideo F now seriesCode videoId filePath st).2.
Proof.
  intros Hle Hinv. apply (Inv_mono _ _ _ Hle) in Hinv.
  destruct st as [cm fs]. destruct Hinv as [Hm Hf]. cbn [fst snd] in Hm, Hf.
  unfold cacheVideo.
  destruct (ensureSeriesDir F seriesCode fs) as [fs1|] eqn:Hdir; [|done].
  destruct (ensureSeriesDir_outside _ _ _ _ Hdir) as [_ Hmeta].
  destruct (copyFileSync F filePath seriesCode videoId fs1) as [[sz fs2]|] eqn:Hcopy.
  - apply copyFileSync_Some in Hcopy as (_ & _ & _ & _ & Hmeta2).
    destruct (statFails F filePath); cbn [snd].
    { split; [done|]. cbn [snd]. by rewrite Hmeta2, Hmeta. }
    apply Inv_save; [|by rewrite Hmeta2, Hmeta].
    cbn [metadata withMetadata]. unfold recordVideo.
    destruct (jsGet seriesCode (metadata cm)) as [e|] eqn:Hget; cbn [default].
    + destruct (WellTimed_get _ _ _ _ Hm Hget).
      apply WellTimed_jsSet; simpl; [lia|lia|done].
    + apply WellTimed_jsSet; simpl; [lia|lia|done].
  - cbn [snd]. split; [done|]. cbn [snd].
    destruct (afterFailedCopy_rest F filePath seriesCode videoId fs1) as (_ & _ & ->).
    by rewrite Hmeta.
Qed.

Lemma Inv_applyOp F clock now op st :
  clock ≤ now → Inv disk clock st → Inv disk now (applyOp F now op st).
Proof.
  intros Hle Hinv. destruct op; simpl.
  - by apply (Inv_cacheVideo _ clock).
  - by apply (Inv_getCachedVideo _ clock).
  - by apply Inv_removeSeries, (Inv_mono clock).
  - by apply Inv_cleanup, (Inv_mono clock).
  - by apply Inv_clearAll, (Inv_mono clock).
Qed.

End Invariant.

Lemma constructor_Some F dir optSize optAge optFile fs st :
  constructor F dir optSize optAge optFile fs = Some st →
  metadata st.1 = loadMetadata fs ∧ metaFile st.2 = metaFile fs.
Proof.
  unfold constructor, ensureCacheDir.
  destruct (rootExists fs); simpl; [by intros [= <-]|].
  destruct (mkdirRootFails F); simpl; [done|]. by intros [= <-].
Qed.

Lemma Inv_constructor F dir optSize optAge optFile clock fs st :
  (∀ m, metaFile fs = FileJSON m → WellTimed clock m) →
  constructor F dir optSize optAge optFile fs = Some st →
  Inv true clock st.
Proof.
  intros Hf Hc. apply constructor_Some in Hc as [Hm Hfile]. split.
  - rewrite Hm. unfold loadMetadata.
    destruct (metaFile fs) as [| | |m]; try apply WellTimed_nil. by apply Hf.
  - intros _. by rewrite Hfile.
Qed.

Lemma reached_Inv clock st : reached clock st → Inv true clock st.
Proof.
  induction 1 as [F dir oS oA oF fs st clock Hbad Hc
                 |F clock now op st _ IH Hle
                 |F dir oS oA oF clock st st' _ IH Hc
                 |clock st f _ IH Hbad
                 |clock st o _ IH].
  - eapply Inv_constructor; [|done].
    intros m Hm. rewrite Hm in Hbad. by destruct Hbad as [?|[?|?]].
  - by eapply Inv_applyOp.
  - eapply Inv_constructor; [|done]. by apply IH.
  - destruct IH as [Hm _]. split; [done|]. simpl.
    intros _ m Hm'. rewrite Hm' in Hbad. by destruct Hbad as [?|[?|?]].
  - done.
Qed.

(** C9.  In every state that a cache reaches, whose clock does not go back,
    every entry of the index has [lastAccessAt] not before [createdAt]; and
    each operation (insertion, read, removal of a series, eviction, clearing)
    keeps the entries of the index well timed: created before last accessed,
    last accessed before the time of the operation. *)
Theorem lastAccess_not_before_creation :
  (∀ clock st, reached clock st →
     ∀ code e, jsGet code (metadata st.1) = Some e → createdAt e ≤ lastAccessAt e) ∧
  (∀ F clock now op st,
     clock ≤ now → WellTimed clock (metadata st.1) →
     WellTimed now (metadata (applyOp F now op st).1)).
Proof.
  split.
  - intros clock st Hr code e Hget. apply reached_Inv in Hr as [Hm _].
    by destruct (WellTimed_get _ _ _ _ Hm Hget).
  - intros F clock now op st Hle Hm.
    assert (Inv false clock st) as Hinv by (split; [done|by intros [=]]).
    by destruct (Inv_applyOp false F clock now op st Hle Hinv).
Qed.


Lemma smallLife_reached : reached 25 smallLife.
Proof.
  unfold smallLife.
  apply (reached_op noFaults 10 25); [|lia].
  apply (reached_op noFaults 0 10); [|lia].
  apply (reached_outside 0 _ {[ "./temp/7.mp4" := 4 ]}).
  apply (reached_new noFaults "./temp/cache" None None None freshDisk _ 0);
    [by left|reflexivity].
Qed.

Lemma lastAccess_not_before_creation_witness :
  reached 25 smallLife ∧
  jsGet "AB001" (metadata smallLife.1) = Some (mkSeries 10 25 2 [("7", mkVideo 4 10)]) ∧
  createdAt (mkSeries 10 25 2 [("7", mkVideo 4 10)])
  ≤ lastAccessAt (mkSeries 10 25 2 [("7", mkVideo 4 10)]).
Proof.
  assert (jsGet "AB001" (metadata smallLife.1)
          = Some (mkSeries 10 25 2 [("7", mkVideo 4 10)])) as Hget by (by vm_compute).
  split; [apply smallLife_reached|]. split; [exact Hget|].
  exact (proj1 lastAccess_not_before_creation 25 smallLife smallLife_reached
           "AB001" _ Hget).
Defined.

End CacheInvariant.

(** ** Further properties of the cache manager of [src/utils] *)

Module CacheExtras.
Import Cache CacheScenarios CacheNotions CacheProofs.

(** *** The steps of an insert *)

Lemma ensureSeriesDir_Some F seriesCode fs fs1 :
  ensureSeriesDir F seriesCode fs = Some fs1 →
  (fs1 = fs ∧ existsSeriesDir fs seriesCode = true) ∨
  (existsSeriesDir fs seriesCode = false ∧
   fs1 = mkFS true (<[seriesCode := ∅]> (seriesDirs fs)) (outside fs) (metaFile fs)).
Proof.
  unfold ensureSeriesDir.
  destruct (existsSeriesDir fs seriesCode); [intros [= <-]; by left|].
  destruct (mkdirFails F seriesCode); [done|]. intros [= <-]. by right.
Qed.

Lemma copyFileSync_disk F filePath seriesCode videoId fs sz fs' :
  copyFileSync F filePath seriesCode videoId fs = Some (sz, fs') →
  ∃ d, seriesDirs fs !! seriesCode = Some d ∧
       outside fs !! filePath = Some sz ∧
       fs' = mkFS (rootExists fs) (<[seriesCode := <[videoId := sz]> d]> (seriesDirs fs))
                  (outside fs) (metaFile fs).
Proof.
  unfold copyFileSync.
  destruct (outside fs !! filePath) as [sz'|]; [|done].
  destruct (seriesDirs fs !! seriesCode) as [d|]; [|done].
  destruct (copyFails F filePath); [done|]. intros [= <- <-]. by exists d.
Qed.

(** An insert that returns a path went through every step. *)
Lemma cacheVideo_Some F now seriesCode videoId filePath cm fs p :
  (cacheVideo F now seriesCode videoId filePath (cm, fs)).1 = Some p →
  ∃ fs1 fileSize fs2,
    ensureSeriesDir F seriesCode fs = Some fs1 ∧
    copyFileSync F filePath seriesCode videoId fs1 = Some (fileSize, fs2) ∧
    p = getVideoPath cm seriesCode videoId ∧
    (cacheVideo F now seriesCode videoId filePath (cm, fs)).2 =
      saveMetadata F
        (withMetadata cm
           (jsSet seriesCode
              (recordVideo now fileSize videoId (jsGet seriesCode (metadata cm)))
              (metadata cm)), fs2).
Proof.
  unfold cacheVideo.
  destruct (ensureSeriesDir F seriesCode fs) as [fs1|] eqn:Hdir; [|done].
  destruct (copyFileSync F filePath seriesCode videoId fs1) as [[sz fs2]|] eqn:Hcopy;
    [|done].
  destruct (statFails F filePath); [done|]. cbn [fst snd]. intros [= <-].
  exists fs1, sz, fs2. split_and!; done.
Qed.

Lemma existsVideo_save F st seriesCode videoId :
  existsVideo (saveMetadata F st).2 seriesCode videoId = existsVideo st.2 seriesCode videoId.
Proof. unfold existsVideo. by rewrite (proj1 (saveMetadata_dirs F st)). Qed.

(** X1.  An insert that returns a path can be read back: the path is the one
    that [getVideoPath] builds, the video is on disk, every later lookup
    returns the same path, and the index records the video under its series
    with the size of the source file and the time of the insert. *)
Theorem cacheVideo_then_lookup F now seriesCode videoId filePath st p :
  (cacheVideo F now seriesCode videoId filePath st).1 = Some p →
  p = getVideoPath st.1 seriesCode videoId ∧
  isCached (cacheVideo F now seriesCode videoId filePath st).2 seriesCode videoId = true ∧
  (∀ F' now',
     (getCachedVideo F' now' seriesCode videoId
        (cacheVideo F now seriesCode videoId filePath st).2).1 = Some p) ∧
  ∃ fileSize e,
    outside st.2 !! filePath = Some fileSize ∧
    jsGet seriesCode (metadata (cacheVideo F now seriesCode videoId filePath st).2.1)
      = Some e ∧
    jsGet videoId (videos e) = Some (mkVideo fileSize now) ∧
    lastAccessAt e = now.
Proof.
  destruct st as [cm fs]. intros Hp.
  destruct (cacheVideo_Some _ _ _ _ _ _ _ _ Hp) as (fs1 & sz & fs2 & Hdir & Hcopy & -> & ->).
  pose proof (copyFileSync_Some _ _ _ _ _ _ _ Hcopy) as (Hsrc & _ & Hthere & _ & _).
  assert (existsVideo
            (saveMetadata F
               (withMetadata cm
                  (jsSet seriesCode
                     (recordVideo now sz videoId (jsGet seriesCode (metadata cm)))
                     (metadata cm)), fs2)).2 seriesCode videoId = true) as Hex
    by (by rewrite existsVideo_save).
  split; [done|]. split; [exact Hex|]. split.
  - intros F' now'. unfold getCachedVideo. rewrite Hex. cbn [fst].
    by rewrite saveMetadata_cache.
  - exists sz, (recordVideo now sz videoId (jsGet seriesCode (metadata cm))).
    split; [|split; [|split]].
    + cbn [snd]. destruct (ensureSeriesDir_outside _ _ _ _ Hdir) as [<- _]. exact Hsrc.
    + rewrite saveMetadata_cache. apply jsGet_jsSet_eq.
    + apply jsGet_jsSet_eq.
    + done.
Qed.

Lemma cacheVideo_then_lookup_witness :
  (cacheVideo noFaults 1 "A" "1" "./temp/a.mp4" (emptyCache (10 * MiB) threeSources)).1
    = Some "./temp/cache/A/1.mp4" ∧
  isCached (cacheVideo noFaults 1 "A" "1" "./temp/a.mp4"
              (emptyCache (10 * MiB) threeSources)).2 "A" "1" = true.
Proof.
  assert ((cacheVideo noFaults 1 "A" "1" "./temp/a.mp4"
             (emptyCache (10 * MiB) threeSources)).1 = Some "./temp/cache/A/1.mp4") as H
    by reflexivity.
  split; [exact H|].
  exact (proj1 (proj2 (cacheVideo_then_lookup noFaults 1 "A" "1" "./temp/a.mp4"
                         (emptyCache (10 * MiB) threeSources) _ H))).
Defined.

(** *** Inserts and lookups delete nothing *)

Lemma existsVideo_ensureSeriesDir F seriesCode fs fs1 code videoId :
  ensureSeriesDir F seriesCode fs = Some fs1 →
  existsVideo fs code videoId = true → existsVideo fs1 code videoId = true.
Proof.
  intros Hdir. destruct (ensureSeriesDir_Some _ _ _ _ Hdir) as [[-> _]|[Hnone ->]]; [done|].
  unfold existsVideo. cbn. intros Hex.
  destruct (decide (seriesCode = code)) as [->|Hne]; [|by rewrite lookup_insert_ne].
  unfold existsSeriesDir in Hnone.
  destruct (seriesDirs fs !! code); [|done]. by rewrite bool_decide_true in Hnone.
Qed.

Lemma existsVideo_copyFileSync F filePath seriesCode videoId fs sz fs2 code videoId' :
  copyFileSync F filePath seriesCode videoId fs = Some (sz, fs2) →
  existsVideo fs code videoId' = true → existsVideo fs2 code videoId' = true.
Proof.
  intros Hcopy. destruct (copyFileSync_disk _ _ _ _ _ _ _ Hcopy) as (d & Hd & _ & ->).
  unfold existsVideo. cbn.
  destruct (decide (seriesCode = code)) as [->|Hne]; [|by rewrite lookup_insert_ne].
  rewrite Hd, lookup_insert_eq. intros Hex. apply bool_decide_eq_true in Hex.
  apply bool_decide_eq_true.
  destruct (decide (videoId = videoId')) as [->|Hne]; [by rewrite lookup_insert_eq|].
  by rewrite lookup_insert_ne.
Qed.

(** The target of a copy that has thrown is the only file it may have
    removed. *)
Lemma existsVideo_afterFailedCopy F filePath seriesCode videoId fs code videoId' :
  (code, videoId') ≠ (seriesCode, videoId) ∨ copyLeaves F filePath ≠ Removed →
  existsVideo fs code videoId' = true →
  existsVideo (afterFailedCopy F filePath seriesCode videoId fs) code videoId' = true.
Proof.
  intros Hwhich Hex. unfold afterFailedCopy.
  destruct (outside fs !! filePath); [|done].
  destruct (seriesDirs fs !! seriesCode) as [d|] eqn:Hd; [|done].
  destruct (copyLeaves F filePath) as [| |written]; [done| |];
    unfold existsVideo, withSeriesDir in *; cbn [seriesDirs];
    (destruct (decide (seriesCode = code)) as [->|Hne]; [|by rewrite lookup_insert_ne]);
    rewrite Hd in Hex; rewrite lookup_insert_eq;
    apply bool_decide_eq_true in Hex; apply bool_decide_eq_true.
  - destruct Hwhich as [Hother|Hleft]; [|done].
    rewrite lookup_delete_ne; [done|]. by intros ->.
  - destruct (decide (videoId = videoId')) as [->|Hne]; [by rewrite lookup_insert_eq|].
    by rewrite lookup_insert_ne.
Qed.

(** The disk after a copy that could not take place. *)
Lemma copyFileSync_None F filePath seriesCode videoId fs :
  copyFileSync F filePath seriesCode videoId fs = None →
  copyFails F filePath = false → afterFailedCopy F filePath seriesCode videoId fs = fs.
Proof.
  unfold copyFileSync, afterFailedCopy. intros Hnone Hcf.
  destruct (outside fs !! filePath); [|done].
  destruct (seriesDirs fs !! seriesCode); [|done]. by rewrite Hcf in Hnone.
Qed.

Lemma cacheVideo_keeps_files F now seriesCode videoId filePath st code videoId' :
  (code, videoId') ≠ (seriesCode, videoId) ∨
    copyFails F filePath = false ∨ copyLeaves F filePath ≠ Removed →
  isCached st code videoId' = true →
  isCached (cacheVideo F now seriesCode videoId filePath st).2 code videoId' = true.
Proof.
  destruct st as [cm fs]. unfold isCached. cbn [snd]. intros Hwhich Hex. unfold cacheVideo.
  destruct (ensureSeriesDir F seriesCode fs) as [fs1|] eqn:Hdir; [|done].
  pose proof (existsVideo_ensureSeriesDir _ _ _ _ _ _ Hdir Hex) as Hex1.
  destruct (copyFileSync F filePath seriesCode videoId fs1) as [[sz fs2]|] eqn:Hcopy.
  - pose proof (existsVideo_copyFileSync _ _ _ _ _ _ _ _ _ Hcopy Hex1) as Hex2.
    destruct (statFails F filePath); [done|]. cbv zeta. cbn [snd].
    by rewrite existsVideo_save.
  - cbn [snd]. destruct Hwhich as [Hother|[Hcf|Hleft]].
    + apply existsVideo_afterFailedCopy; [by left|done].
    + by rewrite (copyFileSync_None _ _ _ _ _ Hcopy Hcf).
    + apply existsVideo_afterFailedCopy; [by right|done].
Qed.

Lemma getCachedVideo_keeps_files F now seriesCode videoId st code videoId' :
  isCached st code videoId' = true →
  isCached (getCachedVideo F now seriesCode videoId st).2 code videoId' = true.
Proof.
  destruct st as [cm fs]. unfold isCached. cbn [snd]. intros Hex.
  unfold getCachedVideo. cbn [snd]. destruct (existsVideo fs seriesCode videoId); [|done].
  cbn [snd]. unfold updateAccessTime.
  destruct (jsGet seriesCode (metadata cm)); [|done]. by rewrite existsVideo_save.
Qed.

(** A video cached again from a source that is there, by a copy that throws
    and removes its target: the video is gone and the index is as before. *)
Lemma cacheVideo_loses_target F now seriesCode videoId filePath st :
  isCached st seriesCode videoId = true →
  is_Some (outside st.2 !! filePath) →
  copyFails F filePath = true → copyLeaves F filePath = Removed →
  isCached (cacheVideo F now seriesCode videoId filePath st).2 seriesCode videoId = false ∧
  metadata (cacheVideo F now seriesCode videoId filePath st).2.1 = metadata st.1.
Proof.
  destruct st as [cm fs]. unfold isCached, existsVideo. cbn [fst snd].
  intros Hex [sz Hsrc] Hcf Hleft.
  destruct (seriesDirs fs !! seriesCode) as [d|] eqn:Hd; [|done].
  unfold cacheVideo, ensureSeriesDir, existsSeriesDir, copyFileSync, afterFailedCopy.
  rewrite Hd, bool_decide_true by (by eexists). rewrite Hsrc, Hd, Hcf, Hleft.
  cbn [fst snd withSeriesDir seriesDirs]. rewrite lookup_insert_eq.
  split; [|done]. apply bool_decide_eq_false. rewrite lookup_delete_eq. by intros [? ?].
Qed.

(** X18.  A lookup deletes nothing, and an insert deletes nothing but, at
    worst, the video it writes.  A video that is on disk is still there
    after [getCachedVideo]; it is still there after [cacheVideo], whichever
    call throws, when it is another video than the one inserted, or when the
    copy does not throw, or throws without having removed its target.  A
    video cached again by a copy that throws and removes its target is gone,
    and the index lists it as before. *)
Theorem inserts_and_lookups_keep_files F now seriesCode videoId filePath st code
    videoId' :
  isCached st code videoId' = true →
  isCached (getCachedVideo F now seriesCode videoId st).2 code videoId' = true ∧
  ((code, videoId') ≠ (seriesCode, videoId) ∨
     copyFails F filePath = false ∨ copyLeaves F filePath ≠ Removed →
   isCached (cacheVideo F now seriesCode videoId filePath st).2 code videoId' = true) ∧
  ((code, videoId') = (seriesCode, videoId) →
   is_Some (outside st.2 !! filePath) →
   copyFails F filePath = true → copyLeaves F filePath = Removed →
   isCached (cacheVideo F now seriesCode videoId filePath st).2 code videoId' = false ∧
   metadata (cacheVideo F now seriesCode videoId filePath st).2.1 = metadata st.1).
Proof.
  intros Hex. split_and!.
  - by apply getCachedVideo_keeps_files.
  - intros Hwhich. by apply cacheVideo_keeps_files.
  - intros [= -> ->]. by apply cacheVideo_loses_target.
Qed.

(** An insert whose source file is there, on a disk where nothing throws,
    leaves the video in the cache. *)
Lemma cacheVideo_caches now seriesCode videoId filePath st sz :
  outside st.2 !! filePath = Some sz →
  isCached (cacheVideo noFaults now seriesCode videoId filePath st).2 seriesCode videoId
  = true.
Proof.
  destruct st as [cm fs]. cbn [snd]. intros Hsrc.
  destruct (ensureSeriesDir noFaults seriesCode fs) as [fs1|] eqn:Hdir;
    [|unfold ensureSeriesDir in Hdir; cbn in Hdir;
      by destruct (existsSeriesDir fs seriesCode)].
  destruct (ensureSeriesDir_outside _ _ _ _ Hdir) as [Hout _].
  assert (is_Some (seriesDirs fs1 !! seriesCode)) as [d Hd].
  { destruct (ensureSeriesDir_Some _ _ _ _ Hdir) as [[-> Hex]|[_ ->]].
    - unfold existsSeriesDir in Hex. by case_bool_decide.
    - cbn. rewrite lookup_insert_eq. by eexists. }
  unfold isCached, cacheVideo. rewrite Hdir. unfold copyFileSync.
  rewrite Hout, Hsrc, Hd. cbn [noFaults copyFails statFails]. cbv zeta. cbn [snd].
  rewrite existsVideo_save. unfold existsVideo. cbn [seriesDirs snd].
  rewrite lookup_insert_eq. apply bool_decide_eq_true. by rewrite lookup_insert_eq.
Qed.

Lemma inserts_and_lookups_keep_files_witness :
  isCached twoCached "AB001" "1" = true ∧
  isCached (cacheVideo diskFull 30 "AB001" "2" "./temp/2.mp4" twoCached).2 "AB001" "1"
    = true ∧
  isCached twoCached "AB001" "2" = true ∧
  isCached (cacheVideo diskFull 30 "AB001" "2" "./temp/2.mp4" twoCached).2 "AB001" "2"
    = false ∧
  is_Some (jsGet "AB001" (metadata (cacheVideo diskFull 30 "AB001" "2" "./temp/2.mp4"
                                      twoCached).2.1)
           ≫= λ e, jsGet "2" (videos e)).
Proof.
  split; [reflexivity|]. split.
  - refine (proj1 (proj2 (inserts_and_lookups_keep_files diskFull 30 "AB001" "2"
                            "./temp/2.mp4" twoCached "AB001" "1" eq_refl)) _).
    left. by intros [=].
  - split; [reflexivity|]. split; [reflexivity|]. by eexists.
Defined.

(** *** Removal *)

Lemma jsDelete_idemp {V} (k : string) (o : list (string * V)) :
  jsDelete k (jsDelete k o) = jsDelete k o.
Proof.
  apply jsDelete_absent. apply jsGet_None, jsGet_jsDelete_eq.
Qed.

(** The artifacts after a removal that has thrown. *)
Lemma existsVideo_afterFailedRm F seriesCode fs code videoId :
  existsVideo (afterFailedRm F seriesCode fs) code videoId
  = existsVideo fs code videoId &&
    (if decide (code = seriesCode) then rmLeaves F seriesCode videoId else true).
Proof.
  unfold existsVideo, afterFailedRm. cbn [seriesDirs].
  destruct (decide (code = seriesCode)) as [->|Hne].
  - rewrite lookup_alter_eq. destruct (seriesDirs fs !! seriesCode) as [d|]; [|done].
    cbn. destruct (d !! videoId) as [sz|] eqn:Hv.
    + destruct (rmLeaves F seriesCode videoId) eqn:Hleft.
      * rewrite !bool_decide_true; [done|by eexists|].
        exists sz. by apply map_lookup_filter_Some.
      * rewrite andb_false_r. apply bool_decide_eq_false. intros [sz' Hsz'].
        apply map_lookup_filter_Some in Hsz' as [_ Hkeep]. cbn in Hkeep. congruence.
    + rewrite andb_false_l. apply bool_decide_eq_false. intros [sz' Hsz'].
      apply map_lookup_filter_Some in Hsz' as [Hin _]. congruence.
  - rewrite lookup_alter_ne by done. by rewrite andb_true_r.
Qed.

(** X2.  What [removeSeries] does.  It leaves the entries and the files of
    every other series as they were.  When the removal of the directory does
    not throw, the series has no entry and no file left, and removing it
    again changes nothing.  When it throws, the entry stays in the index and
    the metadata file is not written, while artifacts of the series may be
    gone: the index then lists files that are no longer there. *)
Theorem removeSeries_effect F seriesCode st :
  (∀ code, code ≠ seriesCode →
     jsGet code (metadata (removeSeries F seriesCode st).1) = jsGet code (metadata st.1) ∧
     ∀ videoId, isCached (removeSeries F seriesCode st) code videoId
                = isCached st code videoId) ∧
  (existsSeriesDir st.2 seriesCode && rmFails F seriesCode = false →
   jsGet seriesCode (metadata (removeSeries F seriesCode st).1) = None ∧
   (∀ videoId, isCached (removeSeries F seriesCode st) seriesCode videoId = false) ∧
   ∀ F', writeFails F' = writeFails F →
     removeSeries F' seriesCode (removeSeries F seriesCode st)
     = removeSeries F seriesCode st) ∧
  (existsSeriesDir st.2 seriesCode && rmFails F seriesCode = true →
   (removeSeries F seriesCode st).1 = st.1 ∧
   metaFile (removeSeries F seriesCode st).2 = metaFile st.2 ∧
   ∀ videoId, isCached (removeSeries F seriesCode st) seriesCode videoId
              = isCached st seriesCode videoId && rmLeaves F seriesCode videoId).
Proof.
  destruct st as [cm fs]. cbn [fst snd].
  destruct (existsSeriesDir fs seriesCode && rmFails F seriesCode) eqn:Hblocked.
  - assert (removeSeries F seriesCode (cm, fs) = (cm, afterFailedRm F seriesCode fs))
      as Heq by (unfold removeSeries; by rewrite Hblocked).
    rewrite Heq. unfold isCached. cbn [fst snd]. split_and!; [|done|].
    + intros code Hne. split; [done|]. intros videoId.
      rewrite existsVideo_afterFailedRm. rewrite decide_False by done.
      by rewrite andb_true_r.
    + intros _. split_and!; [done..|]. intros videoId.
      rewrite existsVideo_afterFailedRm. by rewrite decide_True.
  - assert (removeSeries F seriesCode (cm, fs) =
              saveMetadata F
                (withMetadata cm (jsDelete seriesCode (metadata cm)),
                 mkFS (rootExists fs) (delete seriesCode (seriesDirs fs))
                      (outside fs) (metaFile fs))) as Heq
      by (unfold removeSeries; by rewrite Hblocked).
    split_and!; [| |done].
    + intros code Hne. rewrite Heq, saveMetadata_cache. split.
      * by apply jsGet_jsDelete_ne.
      * intros videoId. unfold isCached. rewrite existsVideo_save.
        unfold existsVideo. cbn. by rewrite lookup_delete_ne.
    + intros _. split_and!.
      * rewrite Heq, saveMetadata_cache. apply jsGet_jsDelete_eq.
      * intros videoId. rewrite Heq. unfold isCached. rewrite existsVideo_save.
        unfold existsVideo. cbn. by rewrite lookup_delete_eq.
      * intros F' HF'. rewrite Heq. unfold saveMetadata, removeSeries, existsSeriesDir.
        cbn. rewrite HF'.
        destruct (writeFails F || negb (rootExists fs)) eqn:Hw; cbn;
          rewrite lookup_delete_eq;
          rewrite bool_decide_false by (by intros [? ?]); cbn;
          rewrite Hw, jsDelete_idemp, delete_delete_eq; done.
Qed.

(** A removal that throws half-way: the artifact 1 is gone, the artifact 2
    is there, and the index lists both as before. *)
Example removeSeries_half_done :
  isCached (removeSeries halfRemoved "AB001" twoCached) "AB001" "1" = false ∧
  isCached (removeSeries halfRemoved "AB001" twoCached) "AB001" "2" = true ∧
  metadata (removeSeries halfRemoved "AB001" twoCached).1 = metadata twoCached.1.
Proof. by vm_compute. Qed.

(** *** The recorded total *)

Section Weights.
Context {V : Type} (w : V → Z).

Lemma weight_foldl (o : list (string * V)) :
  foldl (λ sum kv, sum + w kv.2) 0 o = weight w o.
Proof. unfold weight. by rewrite (foldl_sum (λ kv, w kv.2)), Z.add_0_l. Qed.

Lemma weight_jsSet k v o :
  weight w (jsSet k v o) = weight w o - default 0 (w <$> jsGet k o) + w v.
Proof.
  induction o as [|[k' v'] o IH]; cbn; [lia|].
  case_decide; cbn; [lia|]. unfold weight in IH. rewrite IH. lia.
Qed.

End Weights.

Lemma totalSize_weight m : totalSize m = weight seriesSize m.
Proof. apply weight_foldl. Qed.

Lemma seriesSize_weight e : seriesSize e = weight size (videos e).
Proof. apply (weight_foldl size). Qed.

(** X3.  An insert that returns a path changes the recorded total by the
    size of the file, less the size recorded before for the same video: a
    video cached again is counted once. *)
Theorem cacheVideo_totalSize F now seriesCode videoId filePath st p :
  (cacheVideo F now seriesCode videoId filePath st).1 = Some p →
  ∃ fileSize,
    outside st.2 !! filePath = Some fileSize ∧
    totalSize (metadata (cacheVideo F now seriesCode videoId filePath st).2.1)
    = totalSize (metadata st.1) - recordedSize (metadata st.1) seriesCode videoId
      + fileSize.
Proof.
  destruct st as [cm fs]. intros Hp.
  destruct (cacheVideo_Some _ _ _ _ _ _ _ _ Hp) as (fs1 & sz & fs2 & Hdir & Hcopy & _ & ->).
  pose proof (copyFileSync_Some _ _ _ _ _ _ _ Hcopy) as (Hsrc & _).
  exists sz. split.
  - cbn [snd]. destruct (ensureSeriesDir_outside _ _ _ _ Hdir) as [<- _]. exact Hsrc.
  - rewrite saveMetadata_cache. cbn [fst metadata withMetadata].
    rewrite !totalSize_weight, weight_jsSet. unfold recordedSize.
    rewrite seriesSize_weight. unfold recordVideo. cbn [videos].
    rewrite weight_jsSet. cbn [size].
    destruct (jsGet seriesCode (metadata cm)) as [e|]; cbn.
    + rewrite seriesSize_weight. lia.
    + lia.
Qed.

Lemma cacheVideo_totalSize_witness :
  (cacheVideo noFaults 30 "AB001" "1" "./temp/new.mp4"
     (indexedState.1, withOutside indexedState.2 {[ "./temp/new.mp4" := 6 ]})).1
    = Some "./temp/cache/AB001/1.mp4" ∧
  ∃ fileSize : Z,
    ({[ "./temp/new.mp4" := 6 ]} : gmap string Z) !! "./temp/new.mp4" = Some fileSize ∧
    totalSize (metadata
      (cacheVideo noFaults 30 "AB001" "1" "./temp/new.mp4"
         (indexedState.1, withOutside indexedState.2 {[ "./temp/new.mp4" := 6 ]})).2.1)
    = 4 - 4 + fileSize.
Proof.
  assert ((cacheVideo noFaults 30 "AB001" "1" "./temp/new.mp4"
             (indexedState.1, withOutside indexedState.2 {[ "./temp/new.mp4" := 6 ]})).1
          = Some "./temp/cache/AB001/1.mp4") as H by reflexivity.
  split; [exact H|].
  exact (cacheVideo_totalSize noFaults 30 "AB001" "1" "./temp/new.mp4"
           (indexedState.1, withOutside indexedState.2 {[ "./temp/new.mp4" := 6 ]}) _ H).
Defined.

End CacheExtras.

(** ** The index and the disk *)

Module CacheDisk.
Import Cache CacheScenarios CacheNotions CacheProofs CacheExtras.

(** *** The index is backed by the disk *)

Lemma Backed_save F st : Backed st → Backed (saveMetadata F st).
Proof.
  unfold Backed. by rewrite saveMetadata_cache, (proj1 (saveMetadata_dirs F st)).
Qed.

Lemma Backed_removeSeries F code st :
  (∀ code, rmFails F code = false) →
  Backed st → Backed (removeSeries F code st).
Proof.
  destruct st as [cm fs]. intros Hrm. unfold removeSeries.
  rewrite Hrm, andb_false_r. intros HB.
  apply Backed_save. intros s e v vm Hs Hv. cbn in Hs |- *.
  destruct (decide (code = s)) as [->|Hne]; [by rewrite jsGet_jsDelete_eq in Hs|].
  rewrite jsGet_jsDelete_ne in Hs by done. rewrite lookup_delete_ne by done.
  by apply (HB s e v vm).
Qed.

Lemma Backed_cleanOld F now keys st :
  (∀ code, rmFails F code = false) →
  Backed st → Backed (foldl (cleanOldStep F now) st keys).
Proof.
  intros Hrm. revert st. induction keys as [|k keys IH]; intros st HB; simpl; [done|].
  apply IH. unfold cleanOldStep. destruct (jsGet k (metadata st.1)); [|done].
  case_bool_decide; [by apply Backed_removeSeries|done].
Qed.

Lemma Backed_evictLoop F l cur st :
  (∀ code, rmFails F code = false) →
  Backed st → Backed (evictLoop F l cur st).
Proof.
  intros Hrm. revert cur st. induction l as [|x l IH]; intros cur st HB; simpl; [done|].
  destruct (withinBuffer _ _); [done|]. by apply IH, Backed_removeSeries.
Qed.

Lemma Backed_cleanup F now st :
  (∀ code, rmFails F code = false) →
  Backed st → Backed (cleanup F now st).
Proof.
  intros Hrm HB. unfold cleanup, cleanBySize. case_bool_decide.
  - by apply Backed_cleanOld.
  - by apply Backed_evictLoop, Backed_cleanOld.
Qed.

Lemma Backed_empty cm fs : Backed (withMetadata cm [], fs).
Proof. by intros s e v vm Hs. Qed.

Lemma Backed_clearAll F st :
  rmRootFails F = false → Backed st → Backed (clearAll F st).
Proof.
  destruct st as [cm fs]. intros Hrm. unfold clearAll. rewrite Hrm, andb_false_r.
  intros _.
  destruct (ensureCacheDir F _); [apply Backed_save|]; apply Backed_empty.
Qed.

Lemma Backed_getCachedVideo F now seriesCode videoId st :
  Backed st → Backed (getCachedVideo F now seriesCode videoId st).2.
Proof.
  unfold getCachedVideo. destruct (existsVideo _ _ _); [|done]. cbn [snd].
  destruct st as [cm fs]. unfold updateAccessTime.
  destruct (jsGet seriesCode (metadata cm)) as [e|] eqn:Hget; [|done].
  intros HB. apply Backed_save. intros s e' v vm Hs Hv. cbn in Hs |- *.
  destruct (decide (seriesCode = s)) as [<-|Hne].
  - rewrite jsGet_jsSet_eq in Hs. injection Hs as <-. by apply (HB seriesCode e v vm).
  - rewrite jsGet_jsSet_ne in Hs by done. by apply (HB s e' v vm).
Qed.

Lemma Backed_ensureSeriesDir F seriesCode cm fs fs1 :
  ensureSeriesDir F seriesCode fs = Some fs1 → Backed (cm, fs) → Backed (cm, fs1).
Proof.
  intros Hdir HB.
  destruct (ensureSeriesDir_Some _ _ _ _ Hdir) as [[-> _]|[Hnone ->]]; [done|].
  intros s e v vm Hs Hv. destruct (HB s e v vm Hs Hv) as (d & Hd & Hv').
  exists d. split; [|done]. cbn in Hd |- *.
  rewrite lookup_insert_ne; [done|]. intros <-.
  unfold existsSeriesDir in Hnone. rewrite Hd in Hnone.
  by rewrite bool_decide_true in Hnone.
Qed.

Lemma afterFailedCopy_clean F filePath seriesCode videoId fs :
  cleanCopies F →
  copyFileSync F filePath seriesCode videoId fs = None →
  afterFailedCopy F filePath seriesCode videoId fs = fs.
Proof.
  intros Hclean Hnone. destruct (copyFails F filePath) eqn:Hcf;
    [|by apply copyFileSync_None].
  unfold afterFailedCopy. rewrite (Hclean _ Hcf).
  destruct (outside fs !! filePath); [|done]. by destruct (seriesDirs fs !! seriesCode).
Qed.

Lemma Backed_cacheVideo F now seriesCode videoId filePath st :
  statFails F filePath = false →
  cleanCopies F →
  Backed st → Backed (cacheVideo F now seriesCode videoId filePath st).2.
Proof.
  destruct st as [cm fs]. intros Hstat Hclean HB. unfold cacheVideo.
  destruct (ensureSeriesDir F seriesCode fs) as [fs1|] eqn:Hdir; [|done].
  pose proof (Backed_ensureSeriesDir _ _ _ _ _ Hdir HB) as HB1.
  destruct (copyFileSync F filePath seriesCode videoId fs1) as [[sz fs2]|] eqn:Hcopy;
    [|cbn [snd]; by rewrite afterFailedCopy_clean].
  rewrite Hstat. cbn [snd]. apply Backed_save.
  destruct (copyFileSync_disk _ _ _ _ _ _ _ Hcopy) as (d0 & Hd0 & _ & ->).
  intros s e v vm Hs Hv. cbn in Hs |- *.
  destruct (decide (seriesCode = s)) as [<-|Hne].
  - rewrite jsGet_jsSet_eq in Hs. injection Hs as <-.
    rewrite lookup_insert_eq. eexists. split; [done|].
    unfold recordVideo in Hv. cbn [videos] in Hv.
    destruct (decide (videoId = v)) as [<-|Hnev].
    + rewrite jsGet_jsSet_eq in Hv. injection Hv as <-. cbn. by rewrite lookup_insert_eq.
    + rewrite jsGet_jsSet_ne in Hv by done. rewrite lookup_insert_ne by done.
      destruct (jsGet seriesCode (metadata cm)) as [e|] eqn:Hget; [|done].
      destruct (HB1 seriesCode e v vm Hget Hv) as (d & Hd & Hv'). cbn in Hd.
      by simplify_eq.
  - rewrite jsGet_jsSet_ne in Hs by done. rewrite lookup_insert_ne by done.
    by apply (HB1 s e v vm).
Qed.

(** X4.  No drift between index and disk while copies and removals are
    clean.  If every video of the index is on disk with the size the index
    records, this is so again after any operation, whichever [mkdirSync] or
    [writeFileSync] throws and whichever copy throws before it has opened its
    target, provided that no [statSync] and no removal throws.  (A [statSync]
    that throws leaves a file copied and the index not updated; a copy or a
    removal that throws half-way leaves the index listing files that are
    gone.) *)
Theorem index_backed_by_disk F now op st :
  (∀ filePath, statFails F filePath = false) →
  cleanCopies F →
  (∀ code, rmFails F code = false) →
  rmRootFails F = false →
  Backed st → Backed (applyOp F now op st).
Proof.
  intros Hstat Hclean Hrm Hroot HB. destruct op; simpl.
  - by apply Backed_cacheVideo.
  - by apply Backed_getCachedVideo.
  - by apply Backed_removeSeries.
  - by apply Backed_cleanup.
  - by apply Backed_clearAll.
Qed.

Lemma indexedState_Backed : Backed indexedState.
Proof.
  intros s e v vm Hs Hv. unfold indexedState in *. cbn in Hs.
  case_decide; [|done]. simplify_eq. cbn in Hv. case_decide; [|done]. simplify_eq.
  eexists. split; [by vm_compute|]. by vm_compute.
Qed.

Lemma twoCached_Backed : Backed twoCached.
Proof.
  intros s e v vm Hs Hv. unfold twoCached in *. cbn in Hs.
  case_decide; [|done]. simplify_eq. cbn in Hv.
  repeat (case_decide; [simplify_eq; eexists; split; by vm_compute|]). done.
Qed.

Lemma index_backed_by_disk_witness :
  (∀ filePath, statFails readOnly filePath = false) ∧
  cleanCopies readOnly ∧
  (∀ code, rmFails readOnly code = false) ∧
  rmRootFails readOnly = false ∧
  Backed twoCached ∧
  Backed (applyOp readOnly 30 (CacheVideoOp "AB001" "2" "./temp/2.mp4") twoCached).
Proof.
  assert (cleanCopies readOnly) as Hclean by (by intros filePath _).
  split; [done|]. split; [exact Hclean|]. split; [done|]. split; [done|].
  split; [exact twoCached_Backed|].
  exact (index_backed_by_disk readOnly 30 (CacheVideoOp "AB001" "2" "./temp/2.mp4")
           twoCached (λ _, eq_refl) Hclean (λ _, eq_refl) eq_refl twoCached_Backed).
Defined.

(** *** The metadata file follows the index *)


Lemma Synced_root F st : rootExists (saveMetadata F st).2 = rootExists st.2.
Proof. apply saveMetadata_dirs. Qed.

Section Writable.
Context (F : Faults) (Hwrite : writeFails F = false) (Hmkdir : mkdirRootFails F = false).









End Writable.

(** A manager is built in step with its disk. *)
Lemma Synced_constructor F dir optSize optAge optFile fs st :
  constructor F dir optSize optAge optFile fs = Some st → Synced st.
Proof.
  unfold constructor, ensureCacheDir.
  destruct (rootExists fs) eqn:Hroot; cbn.
  - intros [= <-]. by split.
  - destruct (mkdirRootFails F); [done|]. cbn. intros [= <-]. by split.
Qed.



(** *** Eviction removes whole entries *)

Lemma jsDelete_sublist {V} (k : string) (o : list (string * V)) :
  jsDelete k o `sublist_of` o.
Proof. rewrite jsDelete_filter. apply sublist_filter. Qed.

Lemma removeSeries_sublist F code st :
  metadata (removeSeries F code st).1 `sublist_of` metadata st.1.
Proof.
  rewrite removeSeries_metadata. destruct (_ && _); [done|]. apply jsDelete_sublist.
Qed.

Lemma cleanOld_sublist F now keys st :
  metadata (foldl (cleanOldStep F now) st keys).1 `sublist_of` metadata st.1.
Proof.
  revert st. induction keys as [|k keys IH]; intros st; simpl; [done|].
  etrans; [apply IH|]. unfold cleanOldStep.
  destruct (jsGet k (metadata st.1)); [|done].
  case_bool_decide; [apply removeSeries_sublist|done].
Qed.

Lemma evictLoop_sublist F l cur st :
  metadata (evictLoop F l cur st).1 `sublist_of` metadata st.1.
Proof.
  revert cur st. induction l as [|x l IH]; intros cur st; simpl; [done|].
  destruct (withinBuffer _ _); [done|]. etrans; [apply IH|]. apply removeSeries_sublist.
Qed.

Lemma cleanBySize_sublist F st :
  metadata (cleanBySize F st).1 `sublist_of` metadata st.1.
Proof. unfold cleanBySize. case_bool_decide; [done|]. apply evictLoop_sublist. Qed.

(** X6.  [cleanup] removes whole entries and does nothing else to the index:
    what is left is the index of before with some entries taken out, the
    others unchanged and in the same order, whichever removals throw. *)
Theorem cleanup_sublist F now st :
  metadata (cleanup F now st).1 `sublist_of` metadata st.1.
Proof.
  unfold cleanup. etrans; [apply cleanBySize_sublist|]. apply cleanOld_sublist.
Qed.

(** *** The capacity after a cleanup *)

Lemma sublist_keys {V} (o1 o2 : list (string * V)) :
  o1 `sublist_of` o2 → NoDup (jsKeys o2) → NoDup (jsKeys o1).
Proof.
  intros Hsub Hnd. eapply sublist_NoDup; [exact Hnd|]. unfold jsKeys. by apply fmap_sublist.
Qed.

Lemma cleanBySize_capacity F st :
  (∀ code, rmFails F code = false) →
  NoDup (jsKeys (metadata st.1)) →
  0 ≤ maxCacheSize (config st.1) →
  totalSize (metadata (cleanBySize F st).1) ≤ maxCacheSize (config st.1).
Proof.
  intros Hrm Hnd Hmax. unfold cleanBySize. cbn [getCacheStats stats_totalSize].
  case_bool_decide as Hle; [done|].
  destruct (evictLoop_prefix F (sortByAccess (seriesInfo <$> metadata st.1))
              (totalSize (metadata st.1)) st) as (n & Hn & -> & _ & Hstop).
  rewrite foldl_removeSeries_metadata by done.
  rewrite remaining_total; [|done|apply sortBy_Permutation].
  destruct Hstop as [->|Hstop]; [|lia].
  rewrite firstn_all, totalSize_sumSizes. unfold sortByAccess.
  rewrite (sumSizes_Permutation _ _ (sortBy_Permutation _ _)). lia.
Qed.

(** X7.  The capacity bound.  When no removal throws, the index lists every
    series once and [maxCacheSize] is not negative, the recorded total after
    [cleanup] is within [maxCacheSize]. *)
Theorem cleanup_within_capacity F now st :
  (∀ code, rmFails F code = false) →
  NoDup (jsKeys (metadata st.1)) →
  0 ≤ maxCacheSize (config st.1) →
  totalSize (metadata (cleanup F now st).1) ≤ maxCacheSize (config st.1).
Proof.
  intros Hrm Hnd Hmax. unfold cleanup.
  pose proof (cleanOld_config F now (jsKeys (metadata st.1)) st) as Hcfg.
  fold (cleanOldEntries F now st) in Hcfg. rewrite <- Hcfg.
  apply cleanBySize_capacity; [done| |by rewrite Hcfg].
  eapply sublist_keys; [apply cleanOld_sublist|done].
Qed.

Lemma cleanup_within_capacity_witness :
  (∀ code, rmFails noFaults code = false) ∧
  NoDup (jsKeys (metadata afterThreeInserts.1)) ∧
  0 ≤ maxCacheSize (config afterThreeInserts.1) ∧
  maxCacheSize (config afterThreeInserts.1) < totalSize (metadata afterThreeInserts.1) ∧
  totalSize (metadata (cleanup noFaults 4 afterThreeInserts).1)
    ≤ maxCacheSize (config afterThreeInserts.1).
Proof.
  assert (NoDup (jsKeys (metadata afterThreeInserts.1))) as Hnd
    by (vm_compute; repeat constructor; set_solver).
  assert (0 ≤ maxCacheSize (config afterThreeInserts.1)) as Hmax by (by vm_compute).
  split; [done|]. split; [exact Hnd|]. split; [exact Hmax|]. split; [by vm_compute|].
  exact (cleanup_within_capacity noFaults 4 afterThreeInserts (λ _, eq_refl) Hnd Hmax).
Defined.

(** *** Least recently used first *)

Lemma seriesInfo_elem m c (x : SeriesInfo) :
  NoDup (jsKeys m) → x ∈ seriesInfo <$> m → x.1.1 = c →
  ∃ e, jsGet c m = Some e ∧ x.1.2 = lastAccessAt e.
Proof.
  intros Hnd Hx Hc. apply list_elem_of_fmap in Hx as ([c' e] & -> & Hin).
  cbn in Hc. subst c'. exists e. split; [by apply jsGet_elem|done].
Qed.

(** X8.  The size pass evicts the least recently used: with an index that
    lists every series once and no removal throwing, no series that the pass
    removes was accessed later than a series it keeps. *)
Theorem cleanBySize_least_recent F st removed e1 kept e2 :
  (∀ code, rmFails F code = false) →
  NoDup (jsKeys (metadata st.1)) →
  jsGet removed (metadata st.1) = Some e1 →
  jsGet removed (metadata (cleanBySize F st).1) = None →
  jsGet kept (metadata (cleanBySize F st).1) = Some e2 →
  lastAccessAt e1 ≤ lastAccessAt e2.
Proof.
  intros Hrm Hnd Hget1 Hgone Hkept.
  unfold cleanBySize in Hgone, Hkept. cbn [getCacheStats stats_totalSize] in Hgone, Hkept.
  case_bool_decide as Hle; [congruence|].
  set (order := sortByAccess (seriesInfo <$> metadata st.1)) in *.
  destruct (evictLoop_prefix F order (totalSize (metadata st.1)) st)
    as (n & Hn & Heq & _ & _).
  rewrite Heq, foldl_removeSeries_metadata in Hgone, Hkept by done.
  assert (order ≡ₚ seriesInfo <$> metadata st.1) as Hperm by apply sortBy_Permutation.
  assert (StronglySorted (λ a b : SeriesInfo, a.1.2 ≤ b.1.2) order) as Hsorted
    by apply (sortBy_sorted (λ x : SeriesInfo, x.1.2)).
  (* the removed series is among the first [n] *)
  assert (∃ x, x ∈ take n order ∧ x.1.1 = removed) as (x1 & Hx1 & Hc1).
  { destruct (decide (removed ∈ (take n order).*1.*1)) as [Hin|Hnin].
    - apply list_elem_of_fmap in Hin as (y & -> & Hin).
      apply list_elem_of_fmap in Hin as (x & -> & Hin). by exists x.
    - exfalso. apply jsGet_Some_elem in Hget1.
      assert ((removed, e1) ∈ filter (λ kv : string * SeriesMetadata,
                                        kv.1 ∉ (take n order).*1.*1) (metadata st.1))
        as Hstill by (by apply list_elem_of_filter).
      apply jsGet_None in Hgone. apply Hgone. unfold jsKeys.
      apply list_elem_of_fmap. by exists (removed, e1). }
  (* the kept series is among the others *)
  apply jsGet_Some_elem, list_elem_of_filter in Hkept as [Hnot Hin2]. cbn in Hnot.
  assert (seriesInfo (kept, e2) ∈ drop n order) as Hx2.
  { assert (seriesInfo (kept, e2) ∈ take n order ++ drop n order) as Hin.
    { rewrite take_drop, Hperm. apply list_elem_of_fmap. by exists (kept, e2). }
    apply elem_of_app in Hin as [Hin|Hin]; [|done].
    exfalso. apply Hnot. apply list_elem_of_fmap. exists (kept, lastAccessAt e2).
    split; [done|]. apply list_elem_of_fmap. by exists (seriesInfo (kept, e2)). }
  rewrite <- (take_drop n order) in Hsorted.
  pose proof (StronglySorted_app_1_elem_of _ _ _ _ _ Hsorted Hx1 Hx2) as Hle12.
  cbn in Hle12.
  destruct (seriesInfo_elem (metadata st.1) removed x1 Hnd) as (e & He & Hla); [|done|].
  { rewrite <- Hperm, <- (take_drop n order). apply elem_of_app. by left. }
  rewrite Hget1 in He. injection He as <-. lia.
Qed.

Lemma cleanBySize_least_recent_witness :
  (∀ code, rmFails noFaults code = false) ∧
  NoDup (jsKeys (metadata afterThreeInserts.1)) ∧
  jsGet "A" (metadata afterThreeInserts.1)
    = Some (mkSeries 1 1 1 [("1", mkVideo (4 * MiB) 1)]) ∧
  jsGet "A" (metadata (cleanBySize noFaults afterThreeInserts).1) = None ∧
  jsGet "C" (metadata (cleanBySize noFaults afterThreeInserts).1)
    = Some (mkSeries 3 3 1 [("1", mkVideo (4 * MiB) 3)]) ∧
  1 ≤ 3.
Proof.
  assert (NoDup (jsKeys (metadata afterThreeInserts.1))) as Hnd
    by (vm_compute; repeat constructor; set_solver).
  assert (jsGet "A" (metadata afterThreeInserts.1)
          = Some (mkSeries 1 1 1 [("1", mkVideo (4 * MiB) 1)])) as H1 by (by vm_compute).
  assert (jsGet "A" (metadata (cleanBySize noFaults afterThreeInserts).1) = None) as H2
    by (by vm_compute).
  assert (jsGet "C" (metadata (cleanBySize noFaults afterThreeInserts).1)
          = Some (mkSeries 3 3 1 [("1", mkVideo (4 * MiB) 3)])) as H3 by (by vm_compute).
  split; [done|]. split; [exact Hnd|]. split; [exact H1|]. split; [exact H2|].
  split; [exact H3|].
  exact (cleanBySize_least_recent noFaults afterThreeInserts "A" _ "C" _
           (λ _, eq_refl) Hnd H1 H2 H3).
Defined.

End CacheDisk.

(** ** The capacity of the cache of the consolidated module *)

Section WeightFacts.
Context {V : Type} (w : V → Z).
Implicit Types (o : list (string * V)).

Lemma weight_app o1 o2 : weight w (o1 ++ o2) = weight w o1 + weight w o2.
Proof.
  unfold weight. induction o1 as [|x o1 IH]; [done|]. cbn [app foldr]. rewrite IH. lia.
Qed.

Lemma weight_Permutation o1 o2 : o1 ≡ₚ o2 → weight w o1 = weight w o2.
Proof. unfold weight. induction 1; simpl; [done|congruence|lia|congruence]. Qed.

Lemma weight_filter_le (P Q : string * V → Prop)
    `{∀ x, Decision (P x)} `{∀ x, Decision (Q x)} o :
  (∀ kv, kv ∈ o → 0 ≤ w kv.2) → (∀ kv, P kv → Q kv) →
  weight w (filter P o) ≤ weight w (filter Q o).
Proof.
  intros Hpos HPQ. induction o as [|x o IH]; [done|].
  assert (0 ≤ w x.2) by (apply Hpos, list_elem_of_here).
  assert (weight w (filter P o) ≤ weight w (filter Q o)) as IH'
    by (apply IH; intros kv Hkv; by apply Hpos, list_elem_of_further).
  rewrite !filter_cons. destruct (decide (P x)) as [HP|HP].
  - rewrite decide_True by auto. unfold weight in *. cbn [foldr]. lia.
  - destruct (decide (Q x)); unfold weight in *; cbn [foldr]; lia.
Qed.

(** What is left after the removal of a prefix of an arrangement of the
    object. *)
Lemma weight_remaining o (order : list (string * V)) n :
  NoDup (jsKeys o) → order ≡ₚ o →
  weight w (filter (λ kv, kv.1 ∉ (take n order).*1) o)
  = weight w o - weight w (take n order).
Proof.
  intros Hnd Hperm.
  assert (NoDup (order.*1)) as Hnd' by (by rewrite Hperm).
  rewrite <- (weight_Permutation _ _ (filter_Permutation _ _ _ Hperm)).
  rewrite <- (weight_Permutation _ _ Hperm).
  assert (weight w order = weight w (take n order) + weight w (drop n order)) as Hsum
    by (by rewrite <- weight_app, take_drop).
  rewrite <- (take_drop n order), fmap_app in Hnd'.
  apply NoDup_app in Hnd' as (_ & Hdisj & _).
  assert (filter (λ kv : string * V, kv.1 ∉ (take n order).*1) order = drop n order)
    as ->; [|lia].
  transitivity (filter (λ kv : string * V, kv.1 ∉ (take n order).*1)
                  (take n order ++ drop n order)); [by rewrite take_drop|].
  rewrite filter_app, filter_none, filter_all; [done| |].
  - intros x Hx Hin. apply (Hdisj _ Hin). apply list_elem_of_fmap. by exists x.
  - intros x Hx Hn. apply Hn. apply list_elem_of_fmap. by exists x.
Qed.

End WeightFacts.

Module ConsolidatedExtras.
Import Consolidated ConsolidatedNotions ConsolidatedProofs.

Lemma recordedTotal_weight m : recordedTotal m = weight size m.
Proof. unfold recordedTotal, weight. by rewrite (CacheProofs.foldl_sum (λ kv, size kv.2)), Z.add_0_l. Qed.

Section Healthy.
Context (F : Faults) (Hwrite : writeFails F = false) (Hrm : ∀ c, rmFails F c = false).

Lemma removeSeries_load_delete c fs :
  rootExists fs = true →
  loadMetadata (removeSeries F c fs) = jsDelete c (loadMetadata fs).
Proof.
  intros Hroot. rewrite removeSeries_load by done.
  unfold blocked. by rewrite Hrm, andb_false_r.
Qed.

Lemma removeAll_load codes fs :
  rootExists fs = true →
  loadMetadata (foldl (λ fs code, removeSeries F code fs) fs codes)
  = filter (λ kv, kv.1 ∉ codes) (loadMetadata fs).
Proof.
  intros Hroot. rewrite <- CacheProofs.foldl_jsDelete.
  revert fs Hroot. induction codes as [|c codes IH]; intros fs Hroot; simpl; [done|].
  rewrite IH by (by rewrite removeSeries_root). by rewrite removeSeries_load_delete.
Qed.

(** The second loop removes the first [n] series of the list. *)
Lemma enforceLoop_prefix cm metadata sorted total fs :
  ∃ n, (n ≤ length sorted)%nat ∧
       enforceLoop F cm metadata sorted total fs
       = foldl (λ fs code, removeSeries F code fs) fs (take n sorted).*1 ∧
       (n = length sorted ∨
        total - foldr (λ kv s, sizeIn metadata kv.1 + s) 0 (take n sorted)
          ≤ maxCacheSize cm).
Proof.
  revert total fs. induction sorted as [|[c e] sorted IH]; intros total fs; simpl.
  - exists 0%nat. split_and!; [done|done|by left].
  - case_bool_decide as Hin.
    + exists 0%nat. simpl. split_and!; [lia|done|right; lia].
    + destruct (IH (total - sizeIn metadata c) (removeSeries F c fs))
        as (n & Hn & Heq & Hstop).
      exists (S n). simpl. split_and!; [lia|done|].
      destruct Hstop as [->|Hstop]; [by left|right; lia].
Qed.

Lemma sizeIn_weight metadata (l : list (string * SeriesEntry)) :
  (∀ kv, kv ∈ l → jsGet kv.1 metadata = Some kv.2) →
  foldr (λ kv s, sizeIn metadata kv.1 + s) 0 l = weight size l.
Proof.
  intros Hl. induction l as [|kv l IH]; [done|].
  unfold weight. cbn [foldr]. unfold weight in IH. rewrite IH.
  - unfold sizeIn. by rewrite (Hl kv) by apply list_elem_of_here.
  - intros kv' Hkv'. by apply Hl, list_elem_of_further.
Qed.

Lemma enforceCache_capacity now cm fs :
  rootExists fs = true →
  wellFormed (loadMetadata fs) →
  0 ≤ maxCacheSize cm →
  recordedTotal (loadMetadata (enforceCache F now cm fs)) ≤ maxCacheSize cm.
Proof.
  intros Hroot [Hnd Hpos] Hmax. unfold enforceCache.
  rewrite Forall_forall in Hpos.
  set (m := loadMetadata fs) in *.
  set (sorted := sortBy (λ kv : string * SeriesEntry, lastAccessed kv.2) m).
  assert (sorted ≡ₚ m) as Hperm by apply sortBy_Permutation.
  destruct (enforceLoop_prefix cm m sorted
              (foldl (λ sum series, sum + size series.2) 0 m)
              (foldl (λ fs code, removeSeries F code fs) fs (seriesToRemove cm now m)))
    as (n & Hn & -> & Hstop).
  rewrite removeAll_load by (by rewrite removeAll_root).
  rewrite removeAll_load by done. fold m.
  rewrite list_filter_filter, recordedTotal_weight.
  etrans.
  { apply (weight_filter_le size _ (λ kv, kv.1 ∉ (take n sorted).*1)); [done|].
    by intros kv [? ?]. }
  rewrite weight_remaining by done.
  fold (recordedTotal m) in Hstop. rewrite recordedTotal_weight in Hstop.
  destruct Hstop as [->|Hstop].
  - rewrite firstn_all, (weight_Permutation _ _ _ Hperm). lia.
  - rewrite sizeIn_weight in Hstop; [lia|].
    intros kv Hkv. apply jsGet_elem; [done|].
    rewrite <- Hperm, <- (take_drop n sorted). apply elem_of_app. left.
    by destruct kv.
Qed.

Lemma directorySize_nonneg fs seriesCode :
  sizesOnDisk fs → 0 ≤ getDirectorySize F fs seriesCode.
Proof.
  intros [Hdirs _]. unfold getDirectorySize.
  destruct (seriesDirs fs !! seriesCode) as [d|] eqn:Hd; [|done].
  destruct (readdirFails F seriesCode); [done|].
  apply (map_Forall_lookup_1 _ _ _ _ Hdirs) in Hd. cbn in Hd.
  apply map_Forall_to_list in Hd.
  rewrite (CacheProofs.foldl_sum (λ kv : string * Z, kv.2)), Z.add_0_l.
  induction Hd as [|[k z] l Hz _ IH]; cbn in *; lia.
Qed.

End Healthy.

(** X9.  The consolidated cache enforces its capacity on every insert.  With
    a disk on which writing and removing work, an index that lists every
    series once and a capacity that is not negative, an insert whose copy
    succeeds leaves an index whose recorded total is within [maxCacheSize]. *)
Theorem cacheVideo_within_capacity F now nowEnforce cm seriesCode videoId sourcePath fs :
  writeFails F = false →
  (∀ c, rmFails F c = false) →
  mkdirFails F seriesCode = false →
  copyFails F sourcePath = false →
  is_Some (outside fs !! sourcePath) →
  rootExists fs = true →
  sizesOnDisk fs →
  wellFormed (loadMetadata fs) →
  0 ≤ maxCacheSize cm →
  recordedTotal
    (loadMetadata (cacheVideo F now nowEnforce cm seriesCode videoId sourcePath fs))
    ≤ maxCacheSize cm.
Proof.
  intros Hw Hrm Hmk Hcp [sz Hsrc] Hroot Hdisk [Hnd Hpos] Hmax. unfold cacheVideo.
  rewrite Hmk.
  set (fs1 := if existsSeriesDir fs seriesCode then fs
              else mkFS true (<[seriesCode := ∅]> (seriesDirs fs)) (outside fs)
                        (metaFile fs)).
  assert ((if existsSeriesDir fs seriesCode then Some fs
           else Some (mkFS true (<[seriesCode := ∅]> (seriesDirs fs)) (outside fs)
                           (metaFile fs))) = Some fs1) as ->
    by (unfold fs1; by destruct (existsSeriesDir fs seriesCode)).
  assert (rootExists fs1 = true ∧ outside fs1 = outside fs ∧
          loadMetadata fs1 = loadMetadata fs ∧ sizesOnDisk fs1 ∧
          is_Some (seriesDirs fs1 !! seriesCode)) as (Hroot1 & Hout1 & Hload1 & Hdisk1 & [d Hd]).
  { unfold fs1. destruct (existsSeriesDir fs seriesCode) eqn:Hex.
    - split_and!; [done..|]. unfold existsSeriesDir in Hex. by case_bool_decide.
    - split_and!; [done..| |cbn; rewrite lookup_insert_eq; by eexists].
      destruct Hdisk as [Hdirs Hout]. split; [|done]. cbn.
      apply map_Forall_insert_2; [apply map_Forall_empty|done]. }
  rewrite <- Hout1 in Hsrc. rewrite Hsrc, Hd, Hcp.
  set (fs2 := mkFS (rootExists fs1) (<[seriesCode := <[videoId := sz]> d]> (seriesDirs fs1))
                   (outside fs1) (metaFile fs1)).
  assert (sizesOnDisk fs2) as Hdisk2.
  { destruct Hdisk1 as [Hdirs Hout]. split; [|done]. cbn.
    apply map_Forall_insert_2; [|done].
    apply map_Forall_insert_2.
    - apply (map_Forall_lookup_1 _ _ _ _ Hout Hsrc).
    - apply (map_Forall_lookup_1 _ _ _ _ Hdirs Hd). }
  assert (loadMetadata fs2 = loadMetadata fs) as Hload2 by done.
  cbv zeta. fold fs2. rewrite !Hload2.
  set (e' := mkEntry _ now (getDirectorySize F fs2 seriesCode)).
  apply enforceCache_capacity; [done..| | |done].
  - unfold saveMetadata. rewrite Hw. cbn. by rewrite Hroot1.
  - unfold saveMetadata. rewrite Hw. cbn. rewrite Hroot1. cbn. split.
    + by apply jsSet_NoDup.
    + apply Forall_forall. intros kv Hkv.
      apply CacheInvariant.jsSet_elem in Hkv as [->|Hkv].
      * cbn. by apply directorySize_nonneg.
      * by eapply Forall_forall in Hpos.
Qed.

Lemma cacheVideo_within_capacity_witness :
  sizesOnDisk ConsolidatedMoreScenarios.twoSeriesDisk ∧
  wellFormed (loadMetadata ConsolidatedMoreScenarios.twoSeriesDisk) ∧
  recordedTotal (loadMetadata ConsolidatedMoreScenarios.twoSeriesDisk)
    = 8 * 1024 * 1024 ∧
  recordedTotal
    (loadMetadata
       (cacheVideo noFaults 3 3 ConsolidatedMoreScenarios.smallCache "C" "1"
          "./temp/c.mp4" ConsolidatedMoreScenarios.twoSeriesDisk))
    ≤ maxCacheSize ConsolidatedMoreScenarios.smallCache.
Proof.
  assert (sizesOnDisk ConsolidatedMoreScenarios.twoSeriesDisk) as Hdisk.
  { split; refine (bool_decide_unpack _ _); by vm_compute. }
  assert (wellFormed (loadMetadata ConsolidatedMoreScenarios.twoSeriesDisk)) as Hwf.
  { split; refine (bool_decide_unpack _ _); by vm_compute. }
  split; [exact Hdisk|]. split; [exact Hwf|]. split; [by vm_compute|].
  refine (cacheVideo_within_capacity noFaults 3 3 ConsolidatedMoreScenarios.smallCache
            "C" "1" "./temp/c.mp4" ConsolidatedMoreScenarios.twoSeriesDisk
            eq_refl (λ _, eq_refl) eq_refl eq_refl _ eq_refl Hdisk Hwf _).
  - exists (4 * 1024 * 1024). by vm_compute.
  - by vm_compute.
Defined.

End ConsolidatedExtras.

(** ** The order of the videos of a series *)

Section SortDescending.
Context {A : Type} (key : A → Z).

Lemma insertBy_last x l :
  Forall (λ y, key y < key x) l → insertBy key x l = l ++ [x].
Proof.
  induction 1 as [|y l Hy _ IH]; simpl; [done|].
  rewrite bool_decide_false by lia. by rewrite IH.
Qed.

(** Sorting a list that descends strictly reverses it. *)
Lemma sortBy_descending l :
  StronglySorted (λ a b, key b < key a) l → sortBy key l = reverse l.
Proof.
  induction 1 as [|x l _ IH Hx]; simpl; [done|].
  rewrite IH, reverse_cons. apply insertBy_last.
  apply Forall_forall. intros y Hy. rewrite elem_of_reverse in Hy.
  rewrite Forall_forall in Hx. by apply Hx.
Qed.

End SortDescending.

Lemma filter_ext_in {A} (P Q : A → Prop) `{∀ x, Decision (P x)} `{∀ x, Decision (Q x)}
    (l : list A) :
  (∀ x, x ∈ l → (P x ↔ Q x)) → filter P l = filter Q l.
Proof.
  induction l as [|x l IH]; intros HPQ; [done|].
  rewrite !filter_cons, IH by (intros y Hy; by apply HPQ, list_elem_of_further).
  destruct (decide (P x)) as [HP|HP].
  - by rewrite decide_True by (by apply (HPQ x), HP; apply list_elem_of_here).
  - rewrite decide_False; [done|]. intros HQ. apply HP.
    by apply (HPQ x); [apply list_elem_of_here|].
Qed.

Module TelegramProofs.
Import Handler Telegram.

Lemma videoInfoOf_id message v : videoInfoOf message = Some v → id v = msgId message.
Proof.
  unfold videoInfoOf. destruct (_ && _); [|done].
  destruct (msgVideo message); [|done]. by intros [= <-].
Qed.

Lemma collectVideos_elem messages v :
  v ∈ collectVideos messages ↔ ∃ message, message ∈ messages ∧ videoInfoOf message = Some v.
Proof. apply list_elem_of_omap. Qed.

(** X10.  [fetchVideosFromGroup] returns the videos of the group in ascending
    order of message id, however Telegram listed the messages: the list
    returned ascends in [id], holds exactly the messages that carry a video
    (each as often as it was listed), and keeps videos of equal id in the
    order of the listing.  It throws when the client is not connected, and
    throws the error of the Telegram client again. *)
Theorem fetchVideosFromGroup_sorted connected answer :
  match fetchVideosFromGroup connected answer with
  | Returned videos =>
      connected = true ∧
      ∃ messages,
        answer = Returned messages ∧
        StronglySorted (λ a b, id a ≤ id b) videos ∧
        videos ≡ₚ collectVideos messages ∧
        (∀ v, v ∈ videos ↔
              ∃ message, message ∈ messages ∧ videoInfoOf message = Some v) ∧
        (∀ z, filter (λ v, id v = z) videos
              = filter (λ v, id v = z) (collectVideos messages))
  | Thrown err =>
      (connected = false ∧ err = "Telegram client not connected") ∨
      (connected = true ∧ answer = Thrown err)
  end.
Proof.
  unfold fetchVideosFromGroup. destruct connected; [|by left].
  destruct answer as [messages|err]; [|by right].
  split; [done|]. exists messages. split_and!; [done| | | |].
  - apply sortBy_sorted.
  - apply sortBy_Permutation.
  - intros v. rewrite sortBy_Permutation. apply collectVideos_elem.
  - intros z. apply sortBy_stable.
Qed.

Lemma collectVideos_ids messages :
  id <$> collectVideos messages
  = msgId <$> filter (λ message, is_Some (videoInfoOf message)) messages.
Proof.
  unfold collectVideos. induction messages as [|message messages IH]; [done|].
  cbn [omap list_omap]. rewrite filter_cons.
  destruct (videoInfoOf message) as [v|] eqn:Hv.
  - rewrite decide_True by (by eexists). cbn [fmap list_fmap].
    rewrite (videoInfoOf_id _ _ Hv). f_equal. exact IH.
  - rewrite decide_False by (by intros [? ?]). exact IH.
Qed.

Lemma collectVideos_newestFirst messages :
  newestFirst messages →
  StronglySorted (λ a b, id b < id a) (collectVideos messages).
Proof.
  unfold newestFirst, collectVideos.
  induction 1 as [|message messages _ IH Hall]; cbn [omap list_omap]; [constructor|].
  destruct (videoInfoOf message) as [v|] eqn:Hv; [|done].
  constructor; [done|]. apply Forall_forall. intros v' Hv'.
  apply list_elem_of_omap in Hv' as (m' & Hm' & Hv'').
  rewrite (videoInfoOf_id _ _ Hv), (videoInfoOf_id _ _ Hv'').
  rewrite Forall_forall in Hall. by apply Hall.
Qed.

Lemma filter_bool {A} (f : A → bool) (l : list A) :
  List.filter f l = filter (λ x, f x = true) l.
Proof.
  induction l as [|x l IH]; [done|]. cbn [List.filter]. rewrite filter_cons.
  destruct (f x); [rewrite decide_True by done|rewrite decide_False by done];
    by rewrite IH.
Qed.

Lemma reverse_ascending (l : list VideoInfo) :
  StronglySorted (λ a b, id b < id a) l → StronglySorted Z.lt (id <$> reverse l).
Proof.
  induction 1 as [|v l _ IH Hall]; [constructor|].
  rewrite reverse_cons, fmap_app. apply StronglySorted_app_2; [|done|repeat constructor].
  intros x y Hx Hy. apply list_elem_of_fmap in Hx as (vx & -> & Hx).
  apply list_elem_of_singleton in Hy as ->. rewrite elem_of_reverse in Hx.
  rewrite Forall_forall in Hall. by apply Hall.
Qed.

(** X11.  The two variants of the service agree on what Telegram sends.
    When the messages are listed from the newest to the oldest, and the two
    tests for a video select the same messages, the reversal of the
    consolidated module gives the videos in the order in which
    [fetchVideosFromGroup] sorts them. *)
Theorem fetch_variants_agree messages videos refs :
  newestFirst messages →
  (∀ message, message ∈ messages →
     (is_Some (videoInfoOf message) ↔ hasMediaVideo message = true)) →
  fetchVideosFromGroup true (Returned messages) = Returned videos →
  fetchVideosConsolidated (Returned messages) = Returned refs →
  id <$> videos = refId <$> refs ∧
  StronglySorted (λ a b, refId a < refId b) refs.
Proof.
  intros Hnew Hsame [= <-] [= <-].
  assert (id <$> sortBy id (collectVideos messages)
          = refId <$> ((λ msg, mkVideoRef (msgId msg) (orNull (msgText msg)))
                         <$> reverse (List.filter hasMediaVideo messages))) as Hids.
  { rewrite sortBy_descending by (by apply collectVideos_newestFirst).
    rewrite fmap_reverse, collectVideos_ids, <- list_fmap_compose, fmap_reverse.
    f_equal. rewrite filter_bool.
    assert (filter (λ message, is_Some (videoInfoOf message)) messages
            = filter (λ x, hasMediaVideo x = true) messages) as ->; [|done].
    apply filter_ext_in. intros m Hm. by apply Hsame. }
  split; [exact Hids|].
  assert (StronglySorted Z.lt (id <$> sortBy id (collectVideos messages))) as Hs.
  { rewrite sortBy_descending by (by apply collectVideos_newestFirst).
    by apply reverse_ascending, collectVideos_newestFirst. }
  rewrite Hids in Hs. clear Hids.
  induction (_ <$> reverse _) as [|r l IH]; [constructor|].
  cbn in Hs. apply StronglySorted_inv in Hs as [Hs Hall].
  constructor; [by apply IH|].
  apply Forall_forall. intros r' Hr'. rewrite Forall_forall in Hall. apply Hall.
  apply list_elem_of_fmap. by exists r'.
Qed.

Lemma fetch_variants_agree_witness :
  newestFirst TelegramScenarios.smallGroup ∧
  id <$> sortBy id (collectVideos TelegramScenarios.smallGroup) = [5; 7] ∧
  id <$> sortBy id (collectVideos TelegramScenarios.smallGroup)
  = refId <$> ((λ msg, mkVideoRef (msgId msg) (orNull (msgText msg)))
                 <$> reverse (List.filter hasMediaVideo TelegramScenarios.smallGroup)).
Proof.
  assert (newestFirst TelegramScenarios.smallGroup) as Hnew.
  { unfold newestFirst, TelegramScenarios.smallGroup.
    repeat (constructor; [|repeat constructor; simpl; lia]). constructor. }
  split; [exact Hnew|]. split; [reflexivity|].
  refine (proj1 (fetch_variants_agree TelegramScenarios.smallGroup _ _ Hnew _
                   eq_refl eq_refl)).
  intros message Hin. unfold TelegramScenarios.smallGroup in Hin.
  repeat (apply elem_of_cons in Hin as [->|Hin];
          [vm_compute; split; intros H; first [by eauto|by destruct H|done]|]).
  by apply elem_of_nil in Hin.
Defined.

End TelegramProofs.

(** ** Further properties of the message handler *)

Module HandlerExtras.
Import Handler Protocol HandlerScenarios HandlerProofs Observation.

(** *** Runs and what they ensure *)

Lemma mapEvent_isMapEvent {X} (e : Event X) active r :
  mapEvent e active = Some r → isMapEvent e = true.
Proof. by destruct e. Qed.

(** [play] returns what [run] returns. *)
Lemma play_run {R} ans (t : Task R) :
  ∀ n log active,
    ∃ log' active', run ans n t log active = (Ret (play ans n t active).1, log', active').
Proof.
  unfold run. induction t as [r|X e k IH]; intros n log active; simpl; [by eauto|].
  destruct (mapEvent e active) as [[[x active'] evs]|].
  - destruct (IH x n (log ++ evs) active') as (log' & active'' & ->).
    exists log', active''. by destruct (play ans n (k x) active').
  - rewrite andb_false_r.
    destruct (IH (ans n _ e) (S n) log active) as (log' & active'' & ->).
    exists log', active''. by destruct (play ans (S n) (k (ans n _ e)) active).
Qed.

Lemma ensures_sound {R O} (good : Allowed) (obs : Call → list O) ans (t : Task R) :
  (∀ n X (e : Event X), good X e (ans n X e)) →
  (∀ X (e : Event X) x, isMapEvent e = true → good X e x) →
  ∀ n seen active (Q : R → list O → Prop),
    ensures good obs t seen Q →
    Q (play ans n t active).1 (seen ++ ((play ans n t active).2 ≫= obs)).
Proof.
  intros Hans Hmap. induction t as [r|X e k IH]; intros n seen active Q He; simpl.
  - by rewrite app_nil_r.
  - destruct (mapEvent e active) as [[[x active'] evs]|] eqn:Hm.
    + pose proof (IH x n (seen ++ obs (MkCall e)) active' Q
                    (He x (Hmap _ _ _ (mapEvent_isMapEvent _ _ _ Hm)))) as HQ.
      destruct (play ans n (k x) active') as [r calls]. simpl in *.
      by rewrite <- app_assoc in HQ.
    + pose proof (IH (ans n _ e) (S n) (seen ++ obs (MkCall e)) active Q
                    (He _ (Hans n _ e))) as HQ.
      destruct (play ans (S n) (k (ans n _ e)) active) as [r calls]. simpl in *.
      by rewrite <- app_assoc in HQ.
Qed.

Section Ensures.
Context {O : Type} (good : Allowed) (obs : Call → list O).

Lemma ensures_mono {R} (t : Task R) seen (Q Q' : R → list O → Prop) :
  (∀ r s, Q r s → Q' r s) → ensures good obs t seen Q → ensures good obs t seen Q'.
Proof.
  intros HQ. revert seen. induction t as [r|X e k IH]; intros seen; simpl; [apply HQ|].
  intros He x Hx. apply IH, He, Hx.
Qed.

Lemma ensures_bind {A B} (t : Async A) (f : A → Async B) seen Q :
  ensures good obs t seen
    (λ o s, match o with
            | Returned a => ensures good obs (f a) s Q
            | Thrown err => Q (Thrown err) s
            end) →
  ensures good obs (bind t f) seen Q.
Proof.
  revert seen. induction t as [[a|err]|X e k IH]; intros seen; simpl; [done..|].
  intros He x Hx. apply IH, He, Hx.
Qed.

Lemma ensures_tryCatch {A} (t : Async A) (h : Error → Async A) seen Q :
  ensures good obs t seen
    (λ o s, match o with
            | Returned a => Q (Returned a) s
            | Thrown err => ensures good obs (h err) s Q
            end) →
  ensures good obs (tryCatch t h) seen Q.
Proof.
  revert seen. induction t as [[a|err]|X e k IH]; intros seen; simpl; [done..|].
  intros He x Hx. apply IH, He, Hx.
Qed.

Lemma ensures_tryFinally {A} (t : Async A) (fin : Async unit) seen Q :
  ensures good obs t seen
    (λ o s, ensures good obs fin s
              (λ o' s', match o' with
                        | Returned _ => Q o s'
                        | Thrown err => Q (Thrown err) s'
                        end)) →
  ensures good obs (tryFinally t fin) seen Q.
Proof.
  revert seen. induction t as [o|X e k IH]; intros seen; simpl.
  - intros Hfin. apply ensures_bind. eapply ensures_mono; [|exact Hfin].
    intros [[]|err] s; done.
  - intros He x Hx. apply IH, He, Hx.
Qed.

Lemma ensures_call {X} (e : Event X) seen Q :
  (∀ x, good _ e x → Q (Returned x) (seen ++ obs (MkCall e))) →
  ensures good obs (call e) seen Q.
Proof. intros HQ. simpl. exact HQ. Qed.

Lemma ensures_attempt {X} (e : Event (Outcome X)) seen Q :
  (∀ o, good _ e o → Q o (seen ++ obs (MkCall e))) →
  ensures good obs (attempt e) seen Q.
Proof. intros HQ. simpl. exact HQ. Qed.

Lemma ensures_ret {A} (a : A) seen (Q : Outcome A → list O → Prop) :
  Q (Returned a) seen → ensures good obs (ret a) seen Q.
Proof. done. Qed.

(** A [try] whose handler ends well ends well. *)
Lemma ensures_caught {A} (t : Async A) (h : Error → Async A) seen
    (Q : Outcome A → list O → Prop) :
  (∀ a s, Q (Returned a) s) →
  (∀ err s, ensures good obs (h err) s Q) →
  ensures good obs (tryCatch t h) seen Q.
Proof.
  intros Hret Hh. revert seen.
  induction t as [[a|err]|X e k IH]; intros seen; simpl; [apply Hret|apply Hh|].
  intros x _. apply IH.
Qed.

End Ensures.

(** *** Errors do not leave the request *)

Lemma handleSeriesRequest_ensures mapping seriesCode chatId seen :
  ensures repliesDelivered (λ _, @nil unit) (handleSeriesRequest mapping seriesCode chatId)
    seen (λ o _, o = Returned tt).
Proof.
  unfold handleSeriesRequest, mbind, async_bind.
  apply ensures_bind, ensures_call. intros [|] _.
  - apply ensures_attempt. by intros o ->.
  - destruct (negb _).
    + apply ensures_attempt. by intros o ->.
    + apply ensures_tryFinally, ensures_caught.
      * intros [] s. apply ensures_bind, ensures_call. by intros _ _.
      * intros err s. apply ensures_attempt. intros o ->.
        apply ensures_bind, ensures_call. by intros _ _.
Qed.

(** X12.  The errors of the collaborators do not leave [handleSeriesRequest]:
    whatever the Telegram service, the cache, the database, the file system
    and the sending of messages and videos do, the request returns normally
    as long as [message.reply] does not throw. *)
Theorem series_request_contains_errors mapping seriesCode chatId (ans : Answers) n active :
  (∀ m text, ans m _ (MessageReply text) = Returned tt) →
  (play ans n (handleSeriesRequest mapping seriesCode chatId) active).1 = Returned tt.
Proof.
  intros Hreply.
  refine (ensures_sound repliesDelivered (λ _, @nil unit) ans
            (handleSeriesRequest mapping seriesCode chatId) _ _ n [] active
            (λ o _, o = Returned tt) (handleSeriesRequest_ensures _ _ _ _)).
  - intros m X e. destruct e; simpl; auto.
  - intros X e x. by destruct e.
Qed.

Lemma series_request_contains_errors_witness :
  (∀ m text, telegramDown m _ (MessageReply text) = Returned tt) ∧
  (play telegramDown 0 (handleSeriesRequest seriesMapping "ab001" "u1") ∅).1
    = Returned tt.
Proof.
  split; [done|].
  exact (series_request_contains_errors seriesMapping "ab001" "u1" telegramDown 0%nat ∅
           (λ _ _, eq_refl)).
Defined.

(** *** One video that fails does not stop the others *)





(** *** The videos are sent in the order of the list *)







(** *** Work is done under the entry of the chat *)

Lemma holding_work chatId s : holding chatId s → holding chatId (s ++ [Worked]).
Proof.
  intros (works & -> & Hw). exists (works ++ [Worked]). split; [done|].
  apply Forall_app. split; [done|]. by repeat constructor.
Qed.

Lemma holding_obs chatId {X} (e : Event X) s :
  isMapEvent e = false → holding chatId s → holding chatId (s ++ lockObs (MkCall e)).
Proof.
  intros He Hh.
  destruct e; try discriminate He; simpl; rewrite ?app_nil_r;
    first [done|by apply holding_work].
Qed.

(** A computation that makes no call on the map works on. *)
Lemma quiet_works {R} chatId (t : Task R) seen :
  quiet t → holding chatId seen →
  ensures anyAnswer lockObs t seen (λ _ s, holding chatId s).
Proof.
  revert seen. induction t as [r|X e k IH]; intros seen; simpl; [done|].
  intros [He Hk] Hh x _. apply IH; [apply Hk|]. by apply holding_obs.
Qed.

Lemma attempt_works chatId {X} (e : Event (Outcome X)) seen
    (Q : Outcome X → list Token → Prop) :
  isMapEvent e = false → holding chatId seen →
  (∀ o s, holding chatId s → Q o s) →
  ensures anyAnswer lockObs (attempt e) seen Q.
Proof. intros He Hh HQ. apply ensures_attempt. intros o _. by apply HQ, holding_obs. Qed.

Lemma call_works chatId {X} (e : Event X) seen
    (Q : Outcome X → list Token → Prop) :
  isMapEvent e = false → holding chatId seen →
  (∀ x s, holding chatId s → Q (Returned x) s) →
  ensures anyAnswer lockObs (call e) seen Q.
Proof. intros He Hh HQ. apply ensures_call. intros x _. by apply HQ, holding_obs. Qed.

(** The [try] block with its [catch]: the entry is set and work goes on, or
    (the series without videos) the entry has been deleted once. *)
Lemma processRequest_works mapping code chatId :
  ensures anyAnswer lockObs
    (tryCatch (processRequest mapping code chatId)
              (λ _, attempt (MessageReply ErrorOccurred)))
    []
    (λ _ s, holding chatId s ∨ ∃ s0, holding chatId s0 ∧ s = s0 ++ [Released chatId]).
Proof.
  assert (∀ s, holding chatId s →
            ensures anyAnswer lockObs (attempt (MessageReply ErrorOccurred)) s
              (λ _ s', holding chatId s' ∨
                       ∃ s0, holding chatId s0 ∧ s' = s0 ++ [Released chatId])) as Hcatch.
  { intros s Hs. apply (attempt_works chatId); [done|done|]. intros; by left. }
  unfold processRequest, mbind, async_bind.
  apply ensures_tryCatch, ensures_bind, ensures_call. intros [] _.
  assert (holding chatId ([] ++ lockObs (MkCall (ActiveSet chatId code)))) as Hh
    by (exists []; by split).
  revert Hh. generalize ([] ++ lockObs (MkCall (ActiveSet chatId code))). intros s Hs.
  destruct (getTelegramGroup mapping code) as [groupUsername|]; [|by apply Hcatch].
  apply ensures_bind, (attempt_works chatId); [done..|].
  intros [[]|err] s1 Hs1; [|by apply Hcatch].
  apply ensures_bind, (attempt_works chatId); [done..|].
  intros [videos|err] s2 Hs2; [|by apply Hcatch].
  case_bool_decide.
  - apply ensures_bind, (attempt_works chatId); [done..|].
    intros [[]|err] s3 Hs3; [|by apply Hcatch].
    apply ensures_bind, ensures_call. intros x _. simpl. right. by exists s3.
  - apply ensures_bind, (call_works chatId); [done..|]. intros isCached s3 Hs3.
    apply ensures_bind, (attempt_works chatId); [done..|].
    intros [[]|err] s4 Hs4; [|by apply Hcatch].
    apply ensures_bind.
    eapply ensures_mono; [|by apply (quiet_works chatId), Hs4; apply quiet_sendVideosInOrder].
    intros [[]|err] s5 Hs5; [|by apply Hcatch].
    apply ensures_bind, (attempt_works chatId); [done..|].
    intros [[]|err] s6 Hs6; [|by apply Hcatch].
    apply (attempt_works chatId); [done..|].
    intros [[]|err] s7 Hs7; [by left|by apply Hcatch].
Qed.

(** X19.  A request works for its chat only while it holds the chat's entry.
    In every run of [handleSeriesRequest], whatever the collaborators
    answer, either the request makes no call but the reading of the map and
    a reply (the chat is busy, or the series unknown), or it sets the entry
    of its chat first, makes every call to the cache, the Telegram service,
    the database and the WhatsApp client after that, and deletes the entry
    last (twice for a series without videos); it sets and deletes no other
    entry. *)
Theorem work_only_while_holding mapping seriesCode chatId (ans : Answers) n active :
  (play ans n (handleSeriesRequest mapping seriesCode chatId) active).2 ≫= lockObs = [] ∨
  served chatId
    ((play ans n (handleSeriesRequest mapping seriesCode chatId) active).2 ≫= lockObs).
Proof.
  refine (ensures_sound anyAnswer lockObs ans
            (handleSeriesRequest mapping seriesCode chatId) _ _ n [] active
            (λ _ s, s = [] ∨ served chatId s) _); [done..|].
  unfold handleSeriesRequest, mbind, async_bind.
  apply ensures_bind, ensures_call. intros [|] _.
  - apply ensures_attempt. intros o _. by left.
  - destruct (negb _); [apply ensures_attempt; intros o _; by left|].
    apply ensures_tryFinally.
    eapply ensures_mono; [|apply processRequest_works].
    intros o s Hs. apply ensures_bind, ensures_call. intros x _. simpl. right.
    destruct Hs as [(works & -> & Hw)|(s0 & (works & -> & Hw) & ->)].
    + exists works, [Released chatId]. destruct o; auto.
    + exists works, [Released chatId; Released chatId].
      rewrite <- !app_assoc. destruct o; auto.
Qed.

End HandlerExtras.

(** ** The entries of [activeRequests] and the requests in flight *)

Module PoolProofs.
Import Handler Protocol HandlerScenarios HandlerProofs PoolNotions.

(** One call on the map, made according to the discipline. *)
Lemma map_step chatId {X} (e : Event X) p (K : X → Phase → Prop) log active x active' evs :
  eventRule chatId e p K →
  Knows chatId p log active →
  mapEvent e active = Some (x, active', evs) →
  ∃ p', K x p' ∧
        Knows chatId p' (log ++ evs) active' ∧
        (p' = Holding ∨ active' !! chatId = None ∨ (active' = active ∧ evs = [])).
Proof.
  intros Hrule Hk Hm. destruct e; try discriminate Hm; simpl in Hm, Hrule.
  - (* has *)
    destruct Hrule as [-> Hrule]. injection Hm as Hx Hact Hevs. subst x active' evs.
    rewrite app_nil_r.
    destruct (decide (is_Some (active !! chatId))) as [Hsome|Hnone].
    + rewrite bool_decide_true by done.
      destruct p; simpl in Hk;
        try (destruct Hk as [Hn _]; rewrite Hn in Hsome; by destruct Hsome).
      * exists Outside. destruct Hrule. split_and!; [done..|right; right; done].
      * exists Holding. split_and!; [done..|by left].
      * exists Gone. destruct Hrule. split_and!; [done..|right; right; done].
    + rewrite bool_decide_false by done.
      assert (active !! chatId = None) as Hn by by apply eq_None_not_Some.
      destruct p; simpl in Hk; try (by destruct Hk as [Hs _]).
      * exists SawFree. destruct Hrule. split_and!; [done..|right; by left].
      * exists SawFree. split_and!; [done..|right; by left].
      * exists JustReleased. split_and!; [done..|right; by left].
      * exists Gone. destruct Hrule. split_and!; [done..|right; by left].
  - (* set *)
    destruct Hrule as (-> & -> & HK). injection Hm as Hact Hevs. subst active' evs.
    destruct x.
    simpl in Hk. destruct Hk as (Hn & Ha & Hr).
    destruct (count_acquire chatId code) as [Ha1 Hr1].
    exists Holding. split_and!; [done| |by left].
    simpl. rewrite lookup_insert_eq, acquisitions_app, releases_app.
    split_and!; [by eexists|lia..].
  - (* delete *)
    destruct Hrule as [-> Hrule]. injection Hm as Hx Hact Hevs. subst x active' evs.
    destruct (count_release chatId false) as [Ha0 Hr0].
    destruct (count_release chatId true) as [Ha1 Hr1].
    destruct p; simpl in Hk; try done.
    + destruct Hk as (Hn & Ha & Hr).
      rewrite bool_decide_false by (rewrite Hn; by intros [? ?]).
      exists SawFree. split_and!; [done| |right; left; apply lookup_delete_eq].
      simpl. rewrite lookup_delete_eq, acquisitions_app, releases_app.
      split_and!; [done|lia..].
    + destruct Hk as (Hs & Ha & Hr).
      rewrite bool_decide_true by done.
      exists JustReleased. split_and!; [done| |right; left; apply lookup_delete_eq].
      simpl. rewrite lookup_delete_eq, acquisitions_app, releases_app.
      split_and!; [done|lia..].
    + destruct Hk as (Hn & Ha & Hr).
      rewrite bool_decide_false by (rewrite Hn; by intros [? ?]).
      exists JustReleased. split_and!; [done| |right; left; apply lookup_delete_eq].
      simpl. rewrite lookup_delete_eq, acquisitions_app, releases_app.
      split_and!; [done|lia..].
Qed.

(** What a run does to the entry of its chat: at the end the request is in
    flight, or there is no entry, or the entry is the one of the start and
    the request was not in flight then. *)
Lemma exec_entry {R} chatId (Q : R → Phase → Prop) through ans (t : Task R) :
  ∀ n p log active t' log' active',
    follows chatId t Q p →
    Knows chatId p log active →
    exec through ans n t log active = (t', log', active') →
    (releases chatId log' < acquisitions chatId log')%nat ∨
    active' !! chatId = None ∨
    (active' !! chatId = active !! chatId ∧
     ¬ (releases chatId log < acquisitions chatId log)%nat).
Proof.
  induction t as [r|X e k IH]; intros n p log active t' log' active' Hf Hk Hex.
  - simpl in Hex. simplify_eq.
    destruct (decide (releases chatId log' < acquisitions chatId log')%nat); auto.
  - destruct (isMapEvent e) eqn:He.
    + destruct (mapEvent e active) as [[[x active1] evs]|] eqn:Hm;
        [|by destruct e].
      simpl in Hex, Hf. rewrite Hm in Hex.
      destruct (map_step chatId e p _ log active x active1 evs Hf Hk Hm)
        as (p1 & Hf1 & Hk1 & Hchange).
      destruct (IH _ _ _ _ _ _ _ _ Hf1 Hk1 Hex) as [?|[?|[Heq Hnot]]]; [auto..|].
      destruct Hchange as [->|[Hnone|[-> ->]]].
      * exfalso. apply Hnot. by apply (inFlight_Holding _ _ _ _ Hk1).
      * right; left. by rewrite Heq.
      * right; right. by rewrite app_nil_r in Hnot.
    + rewrite exec_other in Hex by done.
      simpl in Hf. pose proof (proj1 (eventRule_other chatId e p _ He) Hf) as Hf'.
      destruct (suspends e && negb through) eqn:Hstop.
      * simplify_eq.
        destruct (decide (releases chatId log' < acquisitions chatId log')%nat); auto.
      * specialize (Hf' (ans n _ e)).
        destruct (suspends e).
        -- by eapply (IH _ _ (afterAwait p)); [|apply Knows_afterAwait|].
        -- by eapply (IH _ _ p).
Qed.

Section Pool.
Context (mapping : gmap string string).

Lemma step_Owned sys sys' :
  SystemInv sys → Owned sys → step mapping sys sys' → Owned sys'.
Proof.
  intros [Hreq Hexcl] Hown Hstep.
  destruct Hstep as [sys seriesCode chatId ans t' log' active' Hadv
                    |sys i r X e k x ans t' log' active' Hi Hrest Hs Hadv].
  - pose proof (handleSeriesRequest_follows mapping seriesCode chatId) as Hf.
    assert (Knows chatId Outside [] (activeRequests sys)) as Hk by done.
    destruct (exec_sound chatId _ false ans _ _ _ _ _ _ _ _ Hf Hk Hadv)
      as (_ & _ & _ & Hframe & _).
    pose proof (exec_entry chatId _ false ans _ _ _ _ _ _ _ _ Hf Hk Hadv) as Hentry.
    intros c Hsome. simpl in Hsome |- *.
    assert (is_Some (activeRequests sys !! c) →
            ∃ i r, (requests sys ++ [mkRequest chatId log' t']) !! i = Some r ∧
                   chat r = c ∧ inFlight r) as Hold.
    { intros Hc. destruct (Hown c Hc) as (i & r & Hi & Hchat & Hin).
      exists i, r. split_and!; [|done..]. by apply lookup_app_l_Some. }
    destruct (decide (c = chatId)) as [->|Hne]; [|apply Hold; by rewrite <- Hframe].
    destruct Hentry as [Hin|[Hnone|[Heq _]]].
    + exists (length (requests sys)), (mkRequest chatId log' t').
      split_and!; [|done..]. by apply list_lookup_middle.
    + rewrite Hnone in Hsome. by destruct Hsome.
    + apply Hold. by rewrite <- Heq.
  - destruct (Hreq i r Hi) as (p & Hst & Hf & Hk). rewrite Hrest in Hf.
    pose proof (follows_resume _ e k _ p x Hs Hst Hf) as Hfx.
    destruct (exec_sound (chat r) _ false ans _ _ _ _ _ _ _ _ Hfx Hk Hadv)
      as (_ & _ & _ & Hframe & _).
    pose proof (exec_entry (chat r) _ false ans _ _ _ _ _ _ _ _ Hfx Hk Hadv) as Hentry.
    intros c Hsome. simpl in Hsome |- *.
    assert (is_Some (activeRequests sys !! c) →
            (c = chat r → ¬ inFlight r) →
            ∃ j rj, <[i := mkRequest (chat r) log' t']> (requests sys) !! j = Some rj ∧
                    chat rj = c ∧ inFlight rj) as Hold.
    { intros Hc Hnot. destruct (Hown c Hc) as (j & rj & Hj & Hchat & Hin).
      exists j, rj. split_and!; [|done..].
      rewrite list_lookup_insert_ne; [done|]. intros <-.
      rewrite Hi in Hj. injection Hj as <-. by apply Hnot. }
    destruct (decide (c = chat r)) as [->|Hne];
      [|apply Hold; [by rewrite <- Hframe|done]].
    destruct Hentry as [Hin|[Hnone|[Heq Hnot]]].
    + exists i, (mkRequest (chat r) log' t'). split_and!; [|done..].
      apply list_lookup_insert_eq. by eapply lookup_lt_Some.
    + rewrite Hnone in Hsome. by destruct Hsome.
    + apply Hold; [by rewrite <- Heq|done].
Qed.

Lemma reachable_Owned sys : reachable mapping sys → Owned sys.
Proof.
  unfold reachable. intros Hr.
  apply (rtc_ind_r (R := step mapping) (λ s, Owned s) initial); [| |done].
  - intros c Hsome. simpl in Hsome. rewrite lookup_empty in Hsome. by destruct Hsome.
  - intros sys1 sys2 Hr1 Hstep IH.
    eapply step_Owned; [|exact IH|exact Hstep]. by eapply reachable_inv.
Qed.

(** X15.  A chat is marked busy exactly when one of its requests is in
    flight: in every state that the system of concurrent requests reaches,
    [activeRequests] has an entry for the chat if and only if some request of
    that chat has set the entry and not yet deleted it.  No entry is left
    behind by a request that has ended, and no request goes on without its
    entry. *)
Theorem busy_iff_in_flight sys chatId :
  reachable mapping sys →
  (is_Some (activeRequests sys !! chatId) ↔
   ∃ i r, requests sys !! i = Some r ∧ chat r = chatId ∧ inFlight r).
Proof.
  intros Hr. split; [by apply reachable_Owned|].
  intros (i & r & Hi & <- & Hin).
  destruct (reachable_inv mapping sys Hr) as [Hreq _].
  destruct (Hreq i r Hi) as (p & _ & _ & Hk).
  apply (inFlight_Holding _ _ _ _ Hk) in Hin as ->. by destruct Hk.
Qed.

End Pool.

Lemma busy_iff_in_flight_witness :
  reachable seriesMapping busySystem ∧
  (is_Some (activeRequests busySystem !! "u1") ↔
   ∃ i r, requests busySystem !! i = Some r ∧ chat r = "u1" ∧ inFlight r).
Proof.
  split; [exact busySystem_reachable|].
  exact (busy_iff_in_flight seriesMapping busySystem "u1" busySystem_reachable).
Defined.

End PoolProofs.

(** ** Series codes *)

Module ConfigProofs.
Import Handler.

Lemma upperAscii_idemp a : upperAscii (upperAscii a) = upperAscii a.
Proof. by destruct a as [[] [] [] [] [] [] [] []]. Qed.

Lemma toUpperCase_idemp s : toUpperCase (toUpperCase s) = toUpperCase s.
Proof. induction s as [|a s IH]; simpl; [done|]. by rewrite upperAscii_idemp, IH. Qed.

(** X16.  Series codes do not depend on the case of their letters.  The
    upper-case form of a code is stable, and two codes with the same
    upper-case form (a code and its upper-case form, for one) are valid or
    not together, name the same Telegram group and are handled by
    [handleSeriesRequest] in the same way.  A code that names a group is
    valid, and the group is not the empty name. *)
Theorem series_code_case_insensitive mapping code code' chatId :
  toUpperCase code = toUpperCase code' →
  toUpperCase (toUpperCase code) = toUpperCase code ∧
  isValidSeries mapping code = isValidSeries mapping code' ∧
  getTelegramGroup mapping code = getTelegramGroup mapping code' ∧
  handleSeriesRequest mapping code chatId = handleSeriesRequest mapping code' chatId ∧
  handleSeriesRequest mapping (toUpperCase code) chatId
    = handleSeriesRequest mapping code chatId ∧
  (∀ group, getTelegramGroup mapping code = Some group →
            isValidSeries mapping code = true ∧ group ≠ "").
Proof.
  intros Heq. split; [apply toUpperCase_idemp|].
  unfold handleSeriesRequest, isValidSeries, getTelegramGroup.
  rewrite !toUpperCase_idemp, Heq. split_and!; [done..|].
  intros group. destruct (mapping !! toUpperCase code') as [g|]; [|done].
  case_decide; [done|]. intros [= <-]. split; [|done].
  by rewrite bool_decide_true by (by eexists).
Qed.

Lemma series_code_case_insensitive_witness :
  toUpperCase "ab001" = toUpperCase "Ab001" ∧
  handleSeriesRequest seriesMapping "ab001" "u1"
  = handleSeriesRequest seriesMapping "Ab001" "u1".
Proof.
  split; [reflexivity|].
  exact (proj1 (proj2 (proj2 (proj2
           (series_code_case_insensitive seriesMapping "ab001" "Ab001" "u1" eq_refl))))).
Defined.

End ConfigProofs.

(** ** The temporary directory *)

Module TempDirProofs.
Import TempDir.

Lemma cleanLoop_sublist F files : cleanLoop F files `sublist_of` files.
Proof.
  induction files as [|[file isFile] rest IH]; simpl; [done|].
  destruct (statFails F file); [done|]. destruct isFile.
  - destruct (unlinkFails F file); [done|]. by apply sublist_cons.
  - by apply sublist_skip.
Qed.

Lemma cleanLoop_keeps_directories F files name :
  (name, false) ∈ files → (name, false) ∈ cleanLoop F files.
Proof.
  induction files as [|[file isFile] rest IH]; simpl; [done|].
  destruct (statFails F file); [done|]. intros Hin.
  apply elem_of_cons in Hin as [Heq|Hin].
  - injection Heq as <- <-. apply list_elem_of_here.
  - destruct isFile.
    + destruct (unlinkFails F file); [by apply list_elem_of_further|by apply IH].
    + apply list_elem_of_further. by apply IH.
Qed.

Lemma cleanLoop_no_faults files :
  cleanLoop noFaults files = filter (λ entry, entry.2 = false) files.
Proof.
  induction files as [|[file isFile] rest IH]; simpl; [done|].
  rewrite filter_cons. destruct isFile; simpl; by rewrite IH.
Qed.

(** X17.  [cleanTempDirectory] deletes files only.  Whatever throws, what is
    left of the directory is what was there with some plain files taken out:
    every directory, such as the one of the cache, is still there.  When
    nothing throws, no plain file is left. *)
Theorem cleanTempDirectory_spares_directories F dir :
  match dir, cleanTempDirectory F dir with
  | Some files, Some files' =>
      files' `sublist_of` files ∧
      (∀ name, (name, false) ∈ files → (name, false) ∈ files') ∧
      (∀ name isFile, (name, isFile) ∈ files → (name, isFile) ∉ files' → isFile = true)
  | None, None => True
  | _, _ => False
  end ∧
  cleanTempDirectory noFaults dir = filter (λ entry, entry.2 = false) <$> dir.
Proof.
  split.
  - destruct dir as [files|]; simpl; [|done].
    destruct (readdirFails F).
    + split_and!; [done|done|]. intros name isFile Hin Hnot. by destruct Hnot.
    + split_and!.
      * apply cleanLoop_sublist.
      * intros name. apply cleanLoop_keeps_directories.
      * intros name [|] Hin Hnot; [done|].
        destruct Hnot. by apply cleanLoop_keeps_directories.
  - destruct dir as [files|]; simpl; [|done]. by rewrite cleanLoop_no_faults.
Qed.

End TempDirProofs.

(** ** Delivery and cache together *)

Module DeliveryProofs.
Import Handler Protocol HandlerProofs Observation Delivery HandlerExtras.

(** [wp] speaks of [deliver]. *)
Lemma wp_deliver o {R} (t : Task R) (Q : R → list Call → Running → Prop) seen c :
  wp o t Q seen c ↔
  Q (deliver o t c).1.1 (seen ++ (deliver o t c).1.2) (deliver o t c).2.
Proof.
  revert seen c. induction t as [r|X e k IH]; intros seen c; simpl.
  - by rewrite app_nil_r.
  - rewrite IH. destruct (deliver o _ _) as [[r calls] c']. simpl.
    by rewrite <- app_assoc.
Qed.

Section Logic.
Context (o : Oracle).

Lemma wp_mono {R} (t : Task R) (Q Q' : R → list Call → Running → Prop) seen c :
  (∀ r s c', Q r s c' → Q' r s c') → wp o t Q seen c → wp o t Q' seen c.
Proof.
  intros HQ. revert seen c. induction t as [r|X e k IH]; intros seen c; simpl; [apply HQ|].
  apply IH.
Qed.

Lemma wp_bind {A B} (t : Async A) (f : A → Async B) Q seen c :
  wp o t (λ r s c', match r with
                    | Returned a => wp o (f a) Q s c'
                    | Thrown err => Q (Thrown err) s c'
                    end) seen c →
  wp o (bind t f) Q seen c.
Proof.
  revert seen c. induction t as [[a|err]|X e k IH]; intros seen c; simpl; [done..|].
  apply IH.
Qed.

Lemma wp_tryCatch {A} (t : Async A) (h : Error → Async A) Q seen c :
  wp o t (λ r s c', match r with
                    | Returned a => Q (Returned a) s c'
                    | Thrown err => wp o (h err) Q s c'
                    end) seen c →
  wp o (tryCatch t h) Q seen c.
Proof.
  revert seen c. induction t as [[a|err]|X e k IH]; intros seen c; simpl; [done..|].
  apply IH.
Qed.

Lemma wp_tryFinally {A} (t : Async A) (fin : Async unit) Q seen c :
  wp o t (λ r s c', wp o fin (λ r' s' c'', match r' with
                                           | Returned _ => Q r s' c''
                                           | Thrown err => Q (Thrown err) s' c''
                                           end) s c') seen c →
  wp o (tryFinally t fin) Q seen c.
Proof.
  revert seen c. induction t as [r|X e k IH]; intros seen c; simpl.
  - intros Hfin. apply wp_bind. eapply wp_mono; [|exact Hfin].
    intros [[]|err] s c'; done.
  - apply IH.
Qed.

(** What holds before a run and is kept by every call holds after it. *)
Lemma wp_stable {R} (I : Running → Prop) (t : Task R) Q seen c :
  stable o I → I c → (∀ r s c', I c' → Q r s c') → wp o t Q seen c.
Proof.
  intros Hst. revert seen c. induction t as [r|X e k IH]; intros seen c HI HQ; simpl.
  - by apply HQ.
  - apply IH; [by apply Hst|done].
Qed.

(** A call leaves the cached videos in the cache, unless it is an insert
    whose copy throws. *)
Lemma respond_keeps_cached code videoId {X} (e : Event X) c :
  fetches (MkCall e) = false ∨ (∀ filePath, Cache.copyFails (faults o) filePath = false) →
  Cache.isCached (cache c) code videoId = true →
  Cache.isCached (cache (respond o e c).2) code videoId = true.
Proof.
  intros Hwhich Hc. destruct e; simpl; try done.
  - by apply CacheExtras.getCachedVideo_keeps_files.
  - destruct Hwhich as [Hquiet|Hcopy]; [done|].
    apply CacheExtras.cacheVideo_keeps_files; [|done]. right. left. apply Hcopy.
  - by destruct (answers o _ _ _).
  - destruct (answers o _ _ _); simpl; [|done]. by destruct (written o _).
Qed.

Lemma allCached_stable code videos :
  (∀ filePath, Cache.copyFails (faults o) filePath = false) →
  stable o (allCached code videos).
Proof.
  intros Hcopy X e c HI video Hin. apply respond_keeps_cached; [by right|by apply HI].
Qed.

Lemma allCached_quiet code videos {X} (e : Event X) c :
  fetches (MkCall e) = false →
  allCached code videos c → allCached code videos (respond o e c).2.
Proof.
  intros Hquiet HI video Hin. apply respond_keeps_cached; [by left|by apply HI].
Qed.

End Logic.

(** *** A series in the cache is served from the cache *)

(** What [ensures] promises of every run is true of some run, when every
    call has an answer that is allowed. *)
Lemma ensures_run {R O} (good : Allowed) (obs : Call → list O) (t : Task R) :
  (∀ X (e : Event X), ∃ x, good X e x) →
  ∀ seen (Q : R → list O → Prop),
    ensures good obs t seen Q → ∃ r s, Q r (seen ++ s).
Proof.
  intros Hsome. induction t as [r|X e k IH]; intros seen Q He; simpl in He.
  - exists r, []. by rewrite app_nil_r.
  - destruct (Hsome X e) as [x Hx].
    destruct (IH x _ _ (He x Hx)) as (r & s & HQ).
    exists r, (obs (MkCall e) ++ s). by rewrite app_assoc.
Qed.

(** A computation of which nothing is ever observed, run on the cache: the
    invariant need only be kept by the calls of which nothing is observed,
    since the others do not occur. *)
Lemma ensures_deliver {R O} o (good : Allowed) (obs : Call → list O)
    (I : Running → Prop) (t : Task R) :
  (∀ X (e : Event X), ∃ x, good X e x) →
  (∀ X (e : Event X) c, I c → good X e (respond o e c).1) →
  (∀ X (e : Event X) c, obs (MkCall e) = [] → I c → I (respond o e c).2) →
  ∀ c, I c → ensures good obs t [] (λ _ s, s = []) →
    (deliver o t c).1.2 ≫= obs = [].
Proof.
  intros Hsome Hgood Hkeep. induction t as [r|X e k IH]; intros c HI He; simpl; [done|].
  pose proof (He _ (Hgood X e c HI)) as He'. cbn [app] in He'.
  destruct (obs (MkCall e)) as [|o1 os] eqn:Hobs.
  - pose proof (IH _ _ (Hkeep X e c Hobs HI) He') as Hnil.
    destruct (deliver o _ _) as [[r calls] c']. simpl in *. by rewrite Hobs.
  - destruct (ensures_run good obs _ Hsome _ _ He') as (r & s & Hs). done.
Qed.

Lemma hits_some code cached X (e : Event X) : ∃ x, hits code cached X e x.
Proof.
  destruct e; simpl;
    first [ by exists (Thrown "")
          | by exists (Some "")
          | by exists tt
          | by exists true
          | by exists (Returned tt)
          | by exists (Returned "") ].
Qed.

Section Hits.
Context (code : string) (cached : list VideoInfo).

Lemma sendOne_hit total i video chatId seen (Q : Outcome unit → list Call → Prop) :
  video ∈ cached →
  (∀ r, Q r seen) →
  ensures (hits code cached) fetchObs
    (tryCatch (sendOne total i video chatId code)
              (λ _, attempt (ClientSendText chatId (ErrorSendingVideo (i + 1)))))
    seen Q.
Proof.
  intros Hin HQ. unfold sendOne, mbind, async_bind.
  apply ensures_tryCatch, ensures_bind, ensures_call. intros cachedPath Hhit.
  destruct Hhit as [p ->]; [done|by exists video|].
  cbn [fetchObs fetches]. rewrite app_nil_r.
  repeat (cbn beta iota; rewrite ?app_nil_r;
          lazymatch goal with
          | |- ensures _ _ (bind _ _) _ _ => apply ensures_bind
          | |- ensures _ _ (attempt _) _ _ =>
              apply ensures_attempt; intros [?|?] ?; cbn [fetchObs fetches]
          | |- ensures _ _ (call _) _ _ =>
              apply ensures_call; intros ? ?; cbn [fetchObs fetches]
          | |- ensures _ _ (ret _) _ _ => apply ensures_ret
          | |- ensures _ _ (match ?c with _ => _ end) _ _ => destruct c
          end); rewrite ?app_nil_r; auto.
Qed.

Lemma sendLoop_hit total videos chatId :
  videos ⊆ cached →
  ∀ i seen (Q : Outcome unit → list Call → Prop),
    (∀ r, Q r seen) →
    ensures (hits code cached) fetchObs (sendLoop total i videos chatId code) seen Q.
Proof.
  induction videos as [|video videos IH]; intros Hsub i seen Q HQ; [apply HQ|].
  cbn [sendLoop]. unfold mbind, async_bind.
  apply ensures_bind, sendOne_hit; [apply Hsub, list_elem_of_here|].
  intros [[]|err]; [|apply HQ].
  apply IH; [|done]. intros v Hv. by apply Hsub, list_elem_of_further.
Qed.

End Hits.

Lemma handleSeriesRequest_hit cached mapping seriesCode chatId :
  ensures (hits (toUpperCase seriesCode) cached) fetchObs
    (handleSeriesRequest mapping seriesCode chatId) [] (λ _ s, s = []).
Proof.
  assert (∀ X (e : Event X) (Q : Outcome X → list Call → Prop),
            fetches (MkCall e) = false → (∀ r, Q r []) →
            ensures (hits (toUpperCase seriesCode) cached) fetchObs (call e) [] Q) as Hcall.
  { intros X e Q He HQ. apply ensures_call. intros x _.
    unfold fetchObs. rewrite He. apply HQ. }
  assert (∀ X (e : Event (Outcome X)) (Q : Outcome X → list Call → Prop),
            fetches (MkCall e) = false → (∀ r, Q r []) →
            ensures (hits (toUpperCase seriesCode) cached) fetchObs (attempt e) [] Q)
    as Hattempt.
  { intros X e Q He HQ. apply ensures_attempt. intros x _.
    unfold fetchObs. rewrite He. apply HQ. }
  assert (ensures (hits (toUpperCase seriesCode) cached) fetchObs
            (bind (call (ActiveDelete chatId)) (λ _, ret tt)) []
            (λ r' s, match r' with
                     | Returned _ => s = []
                     | Thrown _ => s = []
                     end)) as Hfin.
  { apply ensures_bind, Hcall; [done|]. by intros [[]|?]. }
  unfold handleSeriesRequest, mbind, async_bind.
  apply ensures_bind, Hcall; [done|]. intros [[|]|err]; [| |done].
  - by apply Hattempt.
  - destruct (negb _); [by apply Hattempt|].
    apply ensures_tryFinally, ensures_tryCatch.
    assert (∀ (r : Outcome unit),
              match r with
              | Returned a =>
                  ensures (hits (toUpperCase seriesCode) cached) fetchObs
                    (bind (call (ActiveDelete chatId)) (λ _, ret tt)) []
                    (λ r' s, match r' with
                             | Returned _ => s = []
                             | Thrown _ => s = []
                             end)
              | Thrown err =>
                  ensures (hits (toUpperCase seriesCode) cached) fetchObs
                    (attempt (MessageReply ErrorOccurred)) []
                    (λ r0 s,
                       ensures (hits (toUpperCase seriesCode) cached) fetchObs
                         (bind (call (ActiveDelete chatId)) (λ _, ret tt)) s
                         (λ r' s', match r' with
                                   | Returned _ => s' = []
                                   | Thrown _ => s' = []
                                   end))
              end) as Hend.
    { intros [a|err]; [apply Hfin|]. apply Hattempt; [done|]. intros r. apply Hfin. }
    unfold processRequest, mbind, async_bind.
    apply ensures_bind, Hcall; [done|]. intros [[]|err]; [|apply (Hend (Thrown err))].
    destruct (getTelegramGroup mapping (toUpperCase seriesCode)) as [group|];
      [|apply (Hend (Thrown "No Telegram group found for series"))].
    apply ensures_bind, Hattempt; [done|].
    intros [[]|err]; [|apply (Hend (Thrown err))].
    apply ensures_bind, ensures_attempt. intros fetched Hfetched.
    cbn [fetchObs fetches]. rewrite app_nil_r.
    destruct fetched as [videos|err]; [|apply (Hend (Thrown err))].
    pose proof (Hfetched videos eq_refl) as Hsub.
    case_bool_decide.
    + apply ensures_bind, Hattempt; [done|].
      intros [[]|err]; [|apply (Hend (Thrown err))].
      apply ensures_bind, Hcall; [done|]. intros [b|err]; [|apply (Hend (Thrown err))].
      apply (Hend (Returned tt)).
    + apply ensures_bind, Hcall; [done|]. intros [isCached|err]; [|apply (Hend (Thrown err))].
      apply ensures_bind, Hattempt; [done|].
      intros [[]|err]; [|apply (Hend (Thrown err))].
      apply ensures_bind. unfold sendVideosInOrder, mbind, async_bind.
      apply ensures_bind, sendLoop_hit; [done|].
      intros [[]|err]; [|apply (Hend (Thrown err))].
      apply Hcall; [done|]. intros [[]|err]; [|apply (Hend (Thrown err))].
      apply ensures_bind, Hattempt; [done|].
      intros [[]|err]; [|apply (Hend (Thrown err))].
      apply Hattempt; [done|]. intros [[]|err]; [apply (Hend (Returned tt))|].
      apply (Hend (Thrown err)).
Qed.

Lemma fetchObs_nil calls :
  calls ≫= fetchObs = [] → Forall (λ call, fetches call = false) calls.
Proof.
  induction calls as [|call calls IH]; [constructor|]. cbn. unfold fetchObs at 1.
  destruct (fetches call) eqn:Hf; [done|]. intros Hnil. constructor; [done|by apply IH].
Qed.

(** X20.  A series that is in the cache is served from the cache.  If the
    cache holds the videos [cached] of the series, and Telegram lists videos
    among these, a request for the series downloads nothing and copies
    nothing into the cache, whatever else happens during the request. *)
Theorem cached_series_needs_no_download o mapping seriesCode chatId c cached :
  allCached (toUpperCase seriesCode) cached c →
  (∀ n group videos,
     answers o n _ (FetchVideosFromGroup group) = Returned videos → videos ⊆ cached) →
  Forall (λ call, fetches call = false)
    (deliver o (handleSeriesRequest mapping seriesCode chatId) c).1.2.
Proof.
  intros Hall Hfetch. apply fetchObs_nil.
  refine (ensures_deliver o (hits (toUpperCase seriesCode) cached) fetchObs
            (allCached (toUpperCase seriesCode) cached)
            (handleSeriesRequest mapping seriesCode chatId)
            (hits_some _ _) _ _ c Hall (handleSeriesRequest_hit _ _ _ _)).
  - intros X e c' HI. destruct e; simpl; try done.
    + intros -> (video & Hin & ->). unfold Cache.getCachedVideo.
      specialize (HI video Hin). unfold Cache.isCached in HI. rewrite HI. by eexists.
    + intros videos Hv. by eapply Hfetch.
  - intros X e c' Hobs HI. apply allCached_quiet; [|done].
    unfold fetchObs in Hobs. by destruct (fetches (MkCall e)).
Qed.

(** *** The first delivery fills the cache *)

Lemma cached_series_needs_no_download_witness :
  allCached (toUpperCase "ab001") twoVideos warm ∧
  Forall (λ call, fetches call = false)
    (deliver (steady twoVideos) (handleSeriesRequest seriesMapping "ab001" "u2") warm).1.2.
Proof.
  assert (allCached (toUpperCase "ab001") twoVideos warm) as Hwarm.
  { intros video Hvideo. unfold twoVideos in Hvideo.
    repeat (apply elem_of_cons in Hvideo as [->|Hvideo]; [by vm_compute|]).
    by apply elem_of_nil in Hvideo. }
  split; [exact Hwarm|].
  apply (cached_series_needs_no_download (steady twoVideos) seriesMapping "ab001" "u2"
           warm twoVideos Hwarm).
  intros n group videos [= <-]. done.
Defined.

Section Calls.
Context (o : Oracle).

Lemma wp_call_exact {X} (e : Event X) (Q : Outcome X → list Call → Running → Prop)
    seen c :
  Q (Returned (respond o e c).1) (seen ++ [MkCall e]) (respond o e c).2 →
  wp o (call e) Q seen c.
Proof. done. Qed.

Lemma wp_attempt_exact {X} (e : Event (Outcome X))
    (Q : Outcome X → list Call → Running → Prop) seen c :
  Q (respond o e c).1 (seen ++ [MkCall e]) (respond o e c).2 →
  wp o (attempt e) Q seen c.
Proof. done. Qed.

Lemma wp_ret {A} (a : A) (Q : Outcome A → list Call → Running → Prop) seen c :
  Q (Returned a) seen c → wp o (ret a) Q seen c.
Proof. done. Qed.

(** A call that does not throw, under an invariant. *)
Lemma wp_call_inv (I : Running → Prop) {X} (e : Event X)
    (Q : Outcome X → list Call → Running → Prop) seen c :
  stable o I → I c →
  (∀ x s c', I c' → Q (Returned x) s c') →
  wp o (call e) Q seen c.
Proof. intros Hst HI HQ. apply wp_call_exact, HQ. by apply Hst. Qed.

(** A call that may throw and does not, under an invariant. *)
Lemma wp_attempt_ok (I : Running → Prop) {X} (e : Event (Outcome X))
    (Q : Outcome X → list Call → Running → Prop) seen c :
  isReturned (respond o e c).1 →
  stable o I → I c →
  (∀ a s c', I c' → Q (Returned a) s c') →
  wp o (attempt e) Q seen c.
Proof.
  intros [a Ha] Hst HI HQ. apply wp_attempt_exact. rewrite Ha. apply HQ. by apply Hst.
Qed.

End Calls.

Ltac returned Hsucc :=
  lazymatch goal with
  | |- isReturned (respond _ ?e ?c).1 =>
      let a := fresh "a" in
      let Ha := fresh "Ha" in
      destruct (Hsucc (callsMade c) _ e) as [a Ha];
      cbn [respond fst]; rewrite Ha; cbn [fst]; by eexists
  end.

Ltac ok_go I Hsucc Hst :=
  repeat (cbn beta iota;
          lazymatch goal with
          | |- wp _ (bind _ _) _ _ _ => apply wp_bind
          | |- wp _ (attempt _) _ _ _ =>
              apply (wp_attempt_ok _ I); [returned Hsucc|exact Hst|assumption|intros ? ? ? ?]
          | |- wp _ (call _) _ _ _ =>
              apply (wp_call_inv _ I); [exact Hst|assumption|intros ? ? ? ?]
          | |- wp _ (ret _) _ _ _ => apply wp_ret
          | |- wp _ (match ?c with _ => _ end) _ _ _ => destruct c
          end).

Section Fills.
Context (o : Oracle) (Hrel : reliable o).
Context (code : string).

Lemma allCached_app videos videos' c :
  allCached code (videos ++ videos') c ↔
  allCached code videos c ∧ allCached code videos' c.
Proof.
  unfold allCached. setoid_rewrite elem_of_app. naive_solver.
Qed.

Lemma allCached_singleton video c :
  allCached code [video] c ↔ Cache.isCached (cache c) code (videoIdOf video) = true.
Proof.
  unfold allCached. split; [intros H; apply H, list_elem_of_here|].
  intros H v Hv. by apply list_elem_of_singleton in Hv as ->.
Qed.

Lemma fills_stable videos : stable o (allCached code videos).
Proof. apply allCached_stable. destruct Hrel as (_ & _ & ->). done. Qed.

(** One turn of the loop, when nothing throws: the video is in the cache
    afterwards, found there or downloaded and copied. *)
Lemma sendOne_fills total i video chatId cached seen c
    (Q : Outcome unit → list Call → Running → Prop) :
  allCached code cached c →
  (∀ s c', allCached code (cached ++ [video]) c' → Q (Returned tt) s c') →
  wp o (tryCatch (sendOne total i video chatId code)
                 (λ _, attempt (ClientSendText chatId (ErrorSendingVideo (i + 1)))))
     Q seen c.
Proof.
  destruct Hrel as (Hsucc & Hwritten & Hfaults). intros Hc HQ.
  pose proof (fills_stable (cached ++ [video])) as Hst.
  assert (∀ r s c', allCached code (cached ++ [video]) c' →
            match r with
            | Returned a => Q (Returned a) s c'
            | Thrown err =>
                wp o (attempt (ClientSendText chatId (ErrorSendingVideo (i + 1)))) Q s c'
            end) as Hend.
  { intros [[]|err] s c' Hc'; [by apply HQ|].
    apply (wp_attempt_ok o (allCached code (cached ++ [video])));
      [returned Hsucc|done|done|]. intros [] s' c'' Hc''. by apply HQ. }
  unfold sendOne, mbind, async_bind.
  apply wp_tryCatch, wp_bind, wp_call_exact.
  destruct (Cache.isCached (cache c) code (videoIdOf video)) eqn:Hhit.
  - (* found in the cache *)
    assert (allCached code (cached ++ [video])
              (respond o (GetCachedVideo code (videoIdOf video)) c).2) as Hc1.
    { apply Hst. apply allCached_app. split; [done|by apply allCached_singleton]. }
    assert (∃ p, (respond o (GetCachedVideo code (videoIdOf video)) c).1 = Some p)
      as [p ->].
    { cbn [respond fst]. unfold Cache.getCachedVideo. unfold Cache.isCached in Hhit.
      rewrite Hhit. by eexists. }
    revert Hc1. generalize (respond o (GetCachedVideo code (videoIdOf video)) c).2.
    generalize (seen ++ [MkCall (GetCachedVideo code (videoIdOf video))]).
    intros s1 c1 Hc1.
    ok_go (allCached code (cached ++ [video])) Hsucc Hst;
      repeat match goal with u : unit |- _ => destruct u end;
      by apply (Hend (Returned tt)).
  - (* downloaded and copied *)
    assert ((respond o (GetCachedVideo code (videoIdOf video)) c).1 = None) as ->.
    { cbn [respond fst]. unfold Cache.getCachedVideo. unfold Cache.isCached in Hhit.
      by rewrite Hhit. }
    assert (allCached code cached
              (respond o (GetCachedVideo code (videoIdOf video)) c).2) as Hc1
      by (by apply fills_stable).
    revert Hc1. generalize (respond o (GetCachedVideo code (videoIdOf video)) c).2.
    generalize (seen ++ [MkCall (GetCachedVideo code (videoIdOf video))]).
    intros s1 c1 Hc1. cbn beta iota.
    apply wp_bind, wp_bind, wp_attempt_exact.
    destruct (Hsucc (callsMade c1) _ (DownloadVideo video tempDir)) as [p Hp].
    destruct (Hwritten (callsMade c1)) as [sz Hsz].
    cbn [respond fst snd]. rewrite Hp, Hsz. cbn [fst snd].
    apply wp_bind, wp_call_exact.
    assert (allCached code (cached ++ [video])
              (respond o (CacheVideo code (videoIdOf video) p)
                 (next c1 (withFiles (cache c1)
                             (<[p := sz]> (Cache.outside (cache c1).2))))).2) as Hc2.
    { apply allCached_app. split.
      - apply fills_stable. intros v Hv. by apply Hc1.
      - apply allCached_singleton. cbn [respond snd next cache]. rewrite Hfaults.
        eapply CacheExtras.cacheVideo_caches. cbn. apply lookup_insert_eq. }
    revert Hc2.
    generalize (respond o (CacheVideo code (videoIdOf video) p)
                  (next c1 (withFiles (cache c1)
                              (<[p := sz]> (Cache.outside (cache c1).2))))).
    intros [x c2] Hc2. cbn [fst snd] in *.
    ok_go (allCached code (cached ++ [video])) Hsucc Hst;
      repeat match goal with u : unit |- _ => destruct u end;
      by apply (Hend (Returned tt)).
Qed.

Lemma sendLoop_fills total chatId videos :
  ∀ i cached seen c (Q : Outcome unit → list Call → Running → Prop),
    allCached code cached c →
    (∀ r s c', allCached code (cached ++ videos) c' → Q r s c') →
    wp o (sendLoop total i videos chatId code) Q seen c.
Proof.
  induction videos as [|video videos IH]; intros i cached seen c Q Hc HQ.
  - apply HQ. by rewrite app_nil_r.
  - cbn [sendLoop]. unfold mbind, async_bind.
    apply wp_bind, (sendOne_fills _ _ _ _ cached); [done|].
    intros s c' Hc'. apply (IH _ (cached ++ [video])); [done|].
    intros r s' c'' Hc''. apply HQ. by rewrite <- app_assoc in Hc''.
Qed.

End Fills.

Ltac rest I Hst :=
  repeat (cbn beta iota;
          lazymatch goal with
          | |- wp _ _ _ _ _ => eapply (wp_stable _ I); [exact Hst|eassumption|intros ? ? ? ?]
          | |- match ?r with _ => _ end => destruct r
          end);
  try assumption.

(** X21.  The first delivery fills the cache.  When nothing throws and every
    download writes its file, a request for a series of a chat that is not
    busy leaves every video that Telegram lists for the series in the cache,
    under the upper-case code of the series. *)
Theorem first_delivery_fills_cache o mapping seriesCode chatId group videos c :
  reliable o →
  getTelegramGroup mapping seriesCode = Some group →
  active c !! chatId = None →
  (∀ n, answers o n _ (FetchVideosFromGroup group) = Returned videos) →
  allCached (toUpperCase seriesCode) videos
    (deliver o (handleSeriesRequest mapping seriesCode chatId) c).2.
Proof.
  intros Hrel Hgroup Hfree Hfetch.
  pose proof Hrel as (Hsucc & _ & _).
  set (code := toUpperCase seriesCode).
  pose proof (fills_stable o Hrel code videos) as Hst.
  assert (stable o (λ _, True)) as Htrue by done.
  refine (proj1 (wp_deliver o _ (λ _ _ c', allCached code videos c') [] c) _).
  assert (getTelegramGroup mapping code = Some group) as Hgroup'.
  { unfold getTelegramGroup, code in *. by rewrite ConfigProofs.toUpperCase_idemp. }
  assert (isValidSeries mapping code = true) as Hvalid.
  { unfold isValidSeries, getTelegramGroup in *.
    destruct (mapping !! toUpperCase code); [|done]. by apply bool_decide_eq_true. }
  unfold handleSeriesRequest, mbind, async_bind. fold code.
  apply wp_bind, wp_call_exact. cbn [respond fst snd].
  rewrite bool_decide_false by (rewrite Hfree; by intros [? ?]).
  cbn beta iota. rewrite Hvalid. cbn [negb].
  apply wp_tryFinally, wp_tryCatch.
  unfold processRequest, mbind, async_bind. rewrite Hgroup'.
  apply wp_bind, (wp_call_inv o (λ _, True)); [done..|]. intros [] s1 c1 _.
  apply wp_bind, (wp_attempt_ok o (λ _, True)); [returned Hsucc|done..|].
  intros [] s2 c2 _.
  apply wp_bind, wp_attempt_exact. cbn [respond fst snd]. rewrite Hfetch.
  case_bool_decide as Hlen.
  - assert (∀ c', allCached code videos c') as Hany.
    { intros c' v Hv. destruct videos; [by apply elem_of_nil in Hv|done]. }
    pose proof (Hany (next c2 (cache c2))) as Hc.
    rest (allCached code videos) Hst.
  - apply wp_bind, (wp_call_inv o (λ _, True)); [done..|]. intros isCached s3 c3 _.
    apply wp_bind, (wp_attempt_ok o (λ _, True)); [returned Hsucc|done..|].
    intros [] s4 c4 _.
    apply wp_bind. unfold sendVideosInOrder, mbind, async_bind.
    apply wp_bind, (sendLoop_fills o Hrel code _ _ _ _ []);
      [intros v Hv; by apply elem_of_nil in Hv|].
    intros r s5 c5 Hc5. cbn [app] in Hc5.
    rest (allCached code videos) Hst.
Qed.

Lemma first_delivery_fills_cache_witness :
  reliable (steady twoVideos) ∧
  allCached (toUpperCase "ab001") twoVideos
    (deliver (steady twoVideos) (handleSeriesRequest seriesMapping "ab001" "u1") idle).2.
Proof.
  assert (reliable (steady twoVideos)) as Hrel.
  { split_and!; [|by eauto|done]. intros n X e. destruct e; first [done|by eexists]. }
  split; [exact Hrel|].
  apply (first_delivery_fills_cache (steady twoVideos) seriesMapping "ab001" "u1"
           "wbsd06" twoVideos idle Hrel); [by vm_compute|done|done].
Defined.

End DeliveryProofs.
